(** * FrameShare2: scoring engine, legal-pins calculator and turn sequencer

    A shallow embedding of the scoring and turn-state code of the shared
    bowling scorecard:

    - [src/lib/useRealtimeRolls.ts]: [getNextRoll], [getNextTwoRolls],
      [processRollsIntoPlayers] and the change-feed handler for rolls;
    - the game page component: [getMaxPinsForSelection], [advanceTurn],
      [handleRollInput], [handleResetFrame], [handleResetPlayer];
    - [src/lib/bowling.ts]: [resetFrame], [resetPlayer].

    JavaScript numbers are modelled as [Z] (frame numbers, roll numbers and
    pins are integers in the store), strings as [string], arrays as lists
    read with stdpp's lookup and written with stdpp's insert. *)

From Stdlib Require Import ZArith List String Lia Bool.
From stdpp Require Import base list.

Open Scope Z_scope.

(** * Part I: the program *)

(** ** Data model ([src/lib/bowling.ts], [src/lib/useRealtimeRolls.ts]) *)

Module Roll.
Record t := mk {
  id : string;
  game_id : string;
  player_id : string;
  frame : Z;
  roll : Z;
  pins : Z
}.
End Roll.

Module Player.
Record t := mk {
  id : string;
  game_id : string;
  display_name : string
}.
End Player.

(** An element of [FrameData.rolls]: [{ rollNumber, pins }]. *)
Module FrameRoll.
Record t := mk {
  rollNumber : Z;
  pins : Z
}.
End FrameRoll.

Module FrameData.
Record t := mk {
  frameNumber : Z;
  rolls : list FrameRoll.t;
  frameTotal : Z;
  runningTotal : Z
}.
End FrameData.

(** [PlayerWithFrames extends Player]. *)
Module PlayerWithFrames.
Record t := mk {
  player : Player.t;
  frames : list FrameData.t;
  total : Z
}.
Definition id (p : t) : string := Player.id (player p).
End PlayerWithFrames.

(** ** JavaScript array primitives *)

Section JsArray.
Context {A : Type}.

(** [arr[i]] for a numeric index: [undefined] outside [0 .. length-1]. *)
Definition js_index (l : list A) (i : Z) : option A :=
  if i <? 0 then None else l !! Z.to_nat i.

(** [arr.findIndex(f)]: the first matching index, or [-1]. *)
Fixpoint findIndex (f : A → bool) (l : list A) : Z :=
  match l with
  | [] => -1
  | x :: l' =>
      if f x then 0
      else let r := findIndex f l' in if r =? -1 then -1 else r + 1
  end.

(** [Array.prototype.sort(cmp)] is stable; for a comparator that is a
    total preorder the result is the unique stable ordering, which is
    what insertion from the right computes. *)
Fixpoint sort_insert (cmp : A → A → Z) (x : A) (l : list A) : list A :=
  match l with
  | [] => [x]
  | y :: l' => if cmp x y <=? 0 then x :: l else y :: sort_insert cmp x l'
  end.

Definition js_sort (cmp : A → A → Z) (l : list A) : list A :=
  foldr (sort_insert cmp) [] l.
End JsArray.

(** [o?.pins || 0]: both [undefined] and [0] give [0]. *)
Definition pinsOrZero (o : option FrameRoll.t) : Z :=
  match o with
  | Some r => if FrameRoll.pins r =? 0 then 0 else FrameRoll.pins r
  | None => 0
  end.

(** ** Frame builder ([src/lib/useRealtimeRolls.ts]) *)

(** [(a, b) => a.rollNumber - b.rollNumber] *)
Definition byRollNumber (a b : FrameRoll.t) : Z :=
  FrameRoll.rollNumber a - FrameRoll.rollNumber b.

(** The index range of [for (let i = cur + 1; i < frames.length && i < 10; i++)]. *)
Definition followingIndices (frames : list FrameData.t) (currentFrameIndex : nat)
  : list nat :=
  seq (S currentFrameIndex)
      (Nat.min (length frames) 10 - S currentFrameIndex).

Fixpoint getNextRoll_loop (frames : list FrameData.t) (idxs : list nat) : Z :=
  match idxs with
  | [] => 0
  | i :: rest =>
      match frames !! i with
      | Some frame =>
          if (0 <? length (FrameData.rolls frame))%nat then
            let sortedRolls := js_sort byRollNumber (FrameData.rolls frame) in
            pinsOrZero (sortedRolls !! 0%nat)
          else getNextRoll_loop frames rest
      | None => getNextRoll_loop frames rest
      end
  end.

Definition getNextRoll (frames : list FrameData.t) (currentFrameIndex : nat) : Z :=
  getNextRoll_loop frames (followingIndices frames currentFrameIndex).

(** The inner [for (const roll of sortedRolls)] of [getNextTwoRolls], on the
    pair [(total, rollsFound)]; [break] stops the traversal. *)
Fixpoint takeRolls (sortedRolls : list FrameRoll.t) (total rollsFound : Z)
  : Z * Z :=
  match sortedRolls with
  | [] => (total, rollsFound)
  | roll :: rest =>
      if rollsFound <? 2 then
        let total := total + FrameRoll.pins roll in
        let rollsFound := rollsFound + 1 in
        if rollsFound >=? 2 then (total, rollsFound)
        else takeRolls rest total rollsFound
      else takeRolls rest total rollsFound
  end.

(** The outer loop; its condition also tests [rollsFound < 2]. *)
Fixpoint getNextTwoRolls_loop (frames : list FrameData.t) (idxs : list nat)
    (total rollsFound : Z) : Z :=
  match idxs with
  | [] => total
  | i :: rest =>
      if rollsFound <? 2 then
        match frames !! i with
        | Some frame =>
            if (0 <? length (FrameData.rolls frame))%nat then
              let sortedRolls := js_sort byRollNumber (FrameData.rolls frame) in
              let '(total, rollsFound) := takeRolls sortedRolls total rollsFound in
              getNextTwoRolls_loop frames rest total rollsFound
            else getNextTwoRolls_loop frames rest total rollsFound
        | None => getNextTwoRolls_loop frames rest total rollsFound
        end
      else total
  end.

Definition getNextTwoRolls (frames : list FrameData.t) (currentFrameIndex : nat)
  : Z :=
  getNextTwoRolls_loop frames (followingIndices frames currentFrameIndex) 0 0.

(** [Array.from({ length: 10 }, (_, i) => ({ frameNumber: i, rolls: [], ... }))] *)
Definition emptyFrames : list FrameData.t :=
  map (λ i, FrameData.mk (Z.of_nat i) [] 0 0) (seq 0 10).

(** The comparator of [playerRolls.sort]: by frame, then by roll number. *)
Definition byFrameThenRoll (a b : Roll.t) : Z :=
  if negb (Roll.frame a =? Roll.frame b) then Roll.frame a - Roll.frame b
  else Roll.roll a - Roll.roll b.

(** The body of the [forEach] that groups rolls: [frames[roll.frame - 1]] is
    [undefined] for a frame number outside 1..10, and the push is skipped. *)
Definition pushRoll (frames : list FrameData.t) (roll : Roll.t)
  : list FrameData.t :=
  let frameIndex := Roll.frame roll - 1 in
  match js_index frames frameIndex with
  | Some frame =>
      <[Z.to_nat frameIndex :=
          FrameData.mk (FrameData.frameNumber frame)
            (FrameData.rolls frame
               ++ [FrameRoll.mk (Roll.roll roll - 1) (Roll.pins roll)])
            (FrameData.frameTotal frame) (FrameData.runningTotal frame)]> frames
  | None => frames
  end.

Definition groupRolls (playerRolls : list Roll.t) : list FrameData.t :=
  fold_left pushRoll (js_sort byFrameThenRoll playerRolls) emptyFrames.

(** The total of one non-empty frame, from its sorted rolls; [frames] is the
    array as it stands when the frame is visited. *)
Definition frameScore (frames : list FrameData.t) (frameIndex : nat)
    (sortedRolls : list FrameRoll.t) : Z :=
  let roll1 := pinsOrZero (sortedRolls !! 0%nat) in
  let roll2 := pinsOrZero (sortedRolls !! 1%nat) in
  let roll3 := pinsOrZero (sortedRolls !! 2%nat) in
  if (frameIndex =? 9)%nat then
    if roll1 =? 10 then roll1 + roll2 + roll3
    else if roll1 + roll2 =? 10 then roll1 + roll2 + roll3
    else roll1 + roll2
  else
    if roll1 =? 10 then 10 + getNextTwoRolls frames frameIndex
    else if roll1 + roll2 =? 10 then 10 + getNextRoll frames frameIndex
    else roll1 + roll2.

(** The body of [frames.forEach((frame, frameIndex) => ...)], threading the
    mutated array and [runningTotal]. *)
Definition scoreFrame (st : list FrameData.t * Z) (frameIndex : nat)
  : list FrameData.t * Z :=
  let '(frames, runningTotal) := st in
  match frames !! frameIndex with
  | None => st
  | Some frame =>
      let sortedRolls := js_sort byRollNumber (FrameData.rolls frame) in
      let frames :=
        <[frameIndex := FrameData.mk (FrameData.frameNumber frame) sortedRolls
                          (FrameData.frameTotal frame)
                          (FrameData.runningTotal frame)]> frames in
      if (length sortedRolls =? 0)%nat then
        (<[frameIndex := FrameData.mk (FrameData.frameNumber frame) sortedRolls
                           0 runningTotal]> frames, runningTotal)
      else
        let frameTotal := frameScore frames frameIndex sortedRolls in
        let runningTotal := runningTotal + frameTotal in
        (<[frameIndex := FrameData.mk (FrameData.frameNumber frame) sortedRolls
                           frameTotal runningTotal]> frames, runningTotal)
  end.

Definition scoreFrames (frames : list FrameData.t) : list FrameData.t * Z :=
  fold_left scoreFrame (seq 0 (length frames)) (frames, 0).

(** The callback of [players.map] in [processRollsIntoPlayers]. *)
Definition processPlayer (rolls : list Roll.t) (player : Player.t)
  : PlayerWithFrames.t :=
  let playerRolls :=
    List.filter (λ roll, String.eqb (Roll.player_id roll) (Player.id player))
      rolls in
  let '(frames, runningTotal) := scoreFrames (groupRolls playerRolls) in
  PlayerWithFrames.mk player frames runningTotal.

Definition processRollsIntoPlayers (players : list Player.t)
    (rolls : list Roll.t) : list PlayerWithFrames.t :=
  map (processPlayer rolls) players.

(** ** Roll reconciliation ([useRealtimeRolls], the handler of the rolls
    channel) *)

(** [payload.eventType] with [payload.new] or [payload.old]. *)
Inductive RollsChange :=
| INSERT (new : Roll.t)
| UPDATE (new : Roll.t)
| DELETE (old : Roll.t).

Definition sameRollId (a b : Roll.t) : bool := String.eqb (Roll.id a) (Roll.id b).

(** The new value of [rollsData] after one change event. *)
Definition onRollsChange (rollsData : list Roll.t) (payload : RollsChange)
  : list Roll.t :=
  match payload with
  | INSERT new => rollsData ++ [new]
  | UPDATE updatedRoll =>
      let existingIndex := findIndex (λ roll, sameRollId roll updatedRoll) rollsData in
      if existingIndex >=? 0
      then <[Z.to_nat existingIndex := updatedRoll]> rollsData
      else rollsData ++ [updatedRoll]
  | DELETE deletedRoll =>
      List.filter (λ roll, negb (sameRollId roll deletedRoll)) rollsData
  end.

(** [updatePlayersFromRolls] after the merge: the scoreboard handed to
    [setPlayers]. *)
Definition reconcile (playersData : list Player.t) (rollsData : list Roll.t)
    (payload : RollsChange) : list Roll.t * list PlayerWithFrames.t :=
  let rollsData := onRollsChange rollsData payload in
  (rollsData, processRollsIntoPlayers playersData rollsData).

(** ** The game page: selection, legal pins, turn sequencing *)

Module SelectedCell.
Record t := mk {
  playerId : string;
  frameIndex : Z;
  rollNumber : Z
}.
End SelectedCell.

(** [players.find(p => p.id === playerId)] *)
Definition findPlayer (players : list PlayerWithFrames.t) (playerId : string)
  : option PlayerWithFrames.t :=
  List.find (λ p, String.eqb (PlayerWithFrames.id p) playerId) players.

(** [rolls.find(r => r.rollNumber === n)] *)
Definition findRoll (rolls : list FrameRoll.t) (n : Z) : option FrameRoll.t :=
  List.find (λ r, FrameRoll.rollNumber r =? n) rolls.

(** *** Legal-pins calculator *)

Definition getMaxPinsForSelection (selectedCell : option SelectedCell.t)
    (players : list PlayerWithFrames.t) : Z :=
  match selectedCell with
  | None => 10
  | Some cell =>
      match findPlayer players (SelectedCell.playerId cell) with
      | None => 10
      | Some player =>
          let frameIndex := SelectedCell.frameIndex cell in
          let rollNumber := SelectedCell.rollNumber cell in
          let frame := js_index (PlayerWithFrames.frames player) frameIndex in
          if rollNumber =? 0 then 10
          else if (frameIndex <? 9) && (rollNumber =? 1) then
            match frame with
            | None => 10
            | Some fr =>
                if (length (FrameData.rolls fr) =? 0)%nat then 10
                else
                  match findRoll (FrameData.rolls fr) 0 with
                  | Some roll1 => 10 - FrameRoll.pins roll1
                  | None => 10
                  end
            end
          else if frameIndex =? 9 then
            let rolls := match frame with
                         | Some fr => FrameData.rolls fr
                         | None => []
                         end in
            let roll1 := findRoll rolls 0 in
            let roll2 := findRoll rolls 1 in
            if rollNumber =? 1 then
              match roll1 with
              | None => 10
              | Some r1 =>
                  if FrameRoll.pins r1 =? 10 then 10 else 10 - FrameRoll.pins r1
              end
            else if rollNumber =? 2 then
              match roll2 with
              | None => 10
              | Some r2 =>
                  if FrameRoll.pins r2 =? 10 then 10
                  else if match roll1 with
                          | Some r1 =>
                              (FrameRoll.pins r1 + FrameRoll.pins r2 =? 10)
                              && negb (FrameRoll.pins r1 =? 10)
                          | None => false
                          end then 10
                  else if match roll1 with
                          | Some r1 =>
                              (FrameRoll.pins r1 =? 10) && (FrameRoll.pins r2 <? 10)
                          | None => false
                          end then 10 - FrameRoll.pins r2
                  else 10
              end
            else 10
          else 10
      end
  end.

(** *** Turn sequencer *)

Definition hasId (playerId : string) (p : PlayerWithFrames.t) : bool :=
  String.eqb (PlayerWithFrames.id p) playerId.

(** The closing [setSelectedCell] of [advanceTurn]: the cell of
    [players[nextPlayerIndex]], or [null] when there is no such player. *)
Definition selectPlayer (players : list PlayerWithFrames.t)
    (nextPlayerIndex nextFrameIndex nextRollNumber : Z) : option SelectedCell.t :=
  match js_index players nextPlayerIndex with
  | Some nextPlayer =>
      Some (SelectedCell.mk (PlayerWithFrames.id nextPlayer)
              nextFrameIndex nextRollNumber)
  | None => None
  end.

(** [players[pIndex].frames[9]?.rolls.find(r => r.rollNumber === 0)?.pins || 0]:
    the first roll of the tenth frame as the local scoreboard has it. *)
Definition cachedRoll0 (players : list PlayerWithFrames.t) (pIndex : Z) : Z :=
  match js_index players pIndex with
  | Some player =>
      match js_index (PlayerWithFrames.frames player) 9 with
      | Some frame => pinsOrZero (findRoll (FrameData.rolls frame) 0)
      | None => 0
      end
  | None => 0
  end.

(** [advanceTurn(playerId, frameIndex, rollNumber, pins)]: the selection after
    the call, given the selection [selectedCell] before it (kept when the
    player is unknown and the function returns early). [%] is JavaScript's
    remainder. *)
Definition advanceTurn (players : list PlayerWithFrames.t) (playerId : string)
    (frameIndex rollNumber pins : Z) (selectedCell : option SelectedCell.t)
  : option SelectedCell.t :=
  let pIndex := findIndex (hasId playerId) players in
  if pIndex =? -1 then selectedCell
  else
    let len := Z.of_nat (length players) in
    let nextRollNumber := rollNumber + 1 in
    if frameIndex <? 9 then
      let isStrike := (rollNumber =? 0) && (pins =? 10) in
      if isStrike || (nextRollNumber >? 1) then
        let nextPlayerIndex := Z.rem (pIndex + 1) len in
        let nextFrameIndex :=
          if (nextPlayerIndex =? 0) && (pIndex =? len - 1)
          then frameIndex + 1 else frameIndex in
        selectPlayer players nextPlayerIndex nextFrameIndex 0
      else selectPlayer players pIndex frameIndex nextRollNumber
    else
      let '(turnEnded, nextRollNumber) :=
        if rollNumber =? 0 then (false, 1)
        else if rollNumber =? 1 then
          let roll0 := cachedRoll0 players pIndex in
          if (roll0 =? 10) || (roll0 + pins =? 10) then (false, 2)
          else (true, nextRollNumber)
        else if rollNumber =? 2 then (true, nextRollNumber)
        else (false, nextRollNumber) in
      if turnEnded then
        let nextPlayerIndex := Z.rem (pIndex + 1) len in
        if (nextPlayerIndex =? 0) && (pIndex =? len - 1) then None
        else selectPlayer players nextPlayerIndex frameIndex 0
      else selectPlayer players pIndex frameIndex nextRollNumber.

(** The effect of [handleRollInput(pins)] on the selection: nothing without a
    selection, else [advanceTurn] on the selected cell. The write that follows
    does not touch the selection. *)
Definition handleRollInput (players : list PlayerWithFrames.t)
    (selectedCell : option SelectedCell.t) (pins : Z) : option SelectedCell.t :=
  match selectedCell with
  | None => None
  | Some cell =>
      advanceTurn players (SelectedCell.playerId cell)
        (SelectedCell.frameIndex cell) (SelectedCell.rollNumber cell)
        pins selectedCell
  end.

(** The selection after committing the rolls of [pinsList] one by one. *)
Definition commitRolls (players : list PlayerWithFrames.t)
    (selectedCell : option SelectedCell.t) (pinsList : list Z)
  : option SelectedCell.t :=
  fold_left (handleRollInput players) pinsList selectedCell.

(** *** Reset actions ([src/lib/bowling.ts] and the page handlers) *)

(** A promise that resolves or rejects with an error message. *)
Inductive Outcome (A : Type) :=
| Resolved (a : A)
| Rejected (message : string).
Arguments Resolved {A} a.
Arguments Rejected {A} message.

(** What the page keeps and shows: the selection, the alerts raised, and how
    many refetches were started. *)
Record Page := mkPage {
  selectedCell : option SelectedCell.t;
  alerts : list string;
  refetches : nat
}.

Section Reset.
(** The store's answer to [from('rolls').delete()] scoped by game, player
    and, when given, frame: [None] on success, [Some message] for
    [{ error }]. *)
Variable deleteRolls : string → string → option Z → option string.

Definition resetFrame (gameId playerId : string) (frame : Z) : Outcome unit :=
  match deleteRolls gameId playerId (Some frame) with
  | Some message => Rejected ("Failed to reset frame: " ++ message)
  | None => Resolved tt
  end.

Definition resetPlayer (gameId playerId : string) : Outcome unit :=
  match deleteRolls gameId playerId None with
  | Some message => Rejected ("Failed to reset player: " ++ message)
  | None => Resolved tt
  end.

(** [try { await resetFrame(..); refetch(); setSelectedCell(null) }
     catch (err) { alert(..) }] *)
Definition handleResetFrame (gameId playerId : string) (frameNumber : Z)
    (page : Page) : Page :=
  let frameDbIndex := frameNumber + 1 in
  match resetFrame gameId playerId frameDbIndex with
  | Resolved _ =>
      mkPage None (alerts page) (S (refetches page))
  | Rejected message =>
      mkPage (selectedCell page)
        (alerts page ++ [("Failed to reset frame: " ++ message)%string])
        (refetches page)
  end.

Definition handleResetPlayer (gameId playerId : string) (page : Page) : Page :=
  match resetPlayer gameId playerId with
  | Resolved _ =>
      mkPage None (alerts page) (S (refetches page))
  | Rejected message =>
      mkPage (selectedCell page)
        (alerts page ++ [("Failed to reset player: " ++ message)%string])
        (refetches page)
  end.
End Reset.

(** * Part II: reference readings and predicates used in the statements *)

Definition sumZ (l : list Z) : Z := foldr Z.add 0 l.

(** The pins of the rolls recorded after frame [f], frame by frame in roll
    order. *)
Definition laterPins (frames : list FrameData.t) (f : nat) : list Z :=
  concat (map (λ fr, map FrameRoll.pins (FrameData.rolls fr)) (drop (S f) frames)).

(** The strike bonus as the specification describes it: the sum of the next
    two rolls found after frame [f]; a roll not recorded yet counts 0. *)
Definition nextTwoRollsSum (frames : list FrameData.t) (f : nat) : Z :=
  sumZ (take 2 (laterPins frames f)).

(** The pins of a frame in roll order. *)
Definition sortedPins (fr : FrameData.t) : list Z :=
  map FrameRoll.pins (js_sort byRollNumber (FrameData.rolls fr)).

(** [rolls.filter((roll) => roll.player_id === player.id)] *)
Definition rollsOf (rolls : list Roll.t) (player : Player.t) : list Roll.t :=
  List.filter (λ roll, String.eqb (Roll.player_id roll) (Player.id player)) rolls.

(** A bonus ball was earned in frame 9: the first roll is a strike or the
    first two rolls make a spare (a missing roll reads 0). *)
Definition bonusEarned (ps : list Z) : bool :=
  (nth 0 ps 0 =? 10) || (nth 0 ps 0 + nth 1 ps 0 =? 10).

(** The frame number of the roll names one of the ten frames. *)
Definition frameInRange (roll : Roll.t) : bool :=
  (1 <=? Roll.frame roll) && (Roll.frame roll <=? 10).

(** Every roll the local scoreboard holds has pins in 0..10. *)
Definition pinsInRange (players : list PlayerWithFrames.t) : bool :=
  forallb (λ p,
    forallb (λ fr,
      forallb (λ r, (0 <=? FrameRoll.pins r) && (FrameRoll.pins r <=? 10))
        (FrameData.rolls fr))
      (PlayerWithFrames.frames p)) players.

(** [x] is below the head of [l], if any, for the comparator [cmp]. *)
Definition belowHead {A : Type} (cmp : A → A → Z) (x : A) (l : list A) : Prop :=
  match l with [] => True | y :: _ => cmp x y <= 0 end.

(** Each element is below everything after it. *)
Fixpoint ordered {A : Type} (cmp : A → A → Z) (l : list A) : Prop :=
  match l with
  | [] => True
  | x :: l' => Forall (λ y, cmp x y <= 0) l' ∧ ordered cmp l'
  end.

(** ** Sample data *)

Definition alice : Player.t := Player.mk "p1" "g" "Alice".

Definition bob : Player.t := Player.mk "p2" "g" "Bob".

(** The example of the specification, for any player and any roll ids:
    frame 1 holds a strike, frame 2 holds 7 and 2. *)
Definition strikeExample (player : Player.t) (i1 i2 i3 : string) : list Roll.t :=
  [ Roll.mk i1 (Player.game_id player) (Player.id player) 1 1 10;
    Roll.mk i2 (Player.game_id player) (Player.id player) 2 1 7;
    Roll.mk i3 (Player.game_id player) (Player.id player) 2 2 2 ].


Definition tenthTurkey : list Roll.t :=
  [ Roll.mk "a" "g" "p1" 10 1 10;
    Roll.mk "b" "g" "p1" 10 2 10;
    Roll.mk "c" "g" "p1" 10 3 10 ].

Definition fivePins : Roll.t := Roll.mk "r1" "g" "p1" 1 1 5.

(** A one-player scoreboard with 6 recorded as the first roll of frame 3. *)
Definition aliceSix : list PlayerWithFrames.t :=
  processRollsIntoPlayers [alice] [Roll.mk "a" "g" "p1" 4 1 6].

(** Frame 9 holding a strike and then 5. *)
Definition aliceStrikeFive : list PlayerWithFrames.t :=
  processRollsIntoPlayers [alice]
    [Roll.mk "a" "g" "p1" 10 1 10; Roll.mk "b" "g" "p1" 10 2 5].

(** Frame 9 of the only player holds a strike as its first roll. *)
Definition aliceTenthStrike : list PlayerWithFrames.t :=
  processRollsIntoPlayers [alice] [Roll.mk "a" "g" "p1" 10 1 10].

(** The same player before that roll has reached the local scoreboard. *)
Definition aliceNoRolls : list PlayerWithFrames.t :=
  processRollsIntoPlayers [alice] [].

(** Two players, no roll recorded yet. *)
Definition aliceAndBob : list PlayerWithFrames.t :=
  processRollsIntoPlayers [alice; bob] [].

(** A store that refuses every delete. *)
Definition offline (gameId playerId : string) (frame : option Z) : option string :=
  Some "network error"%string.

(** A store that accepts every delete. *)
Definition online (gameId playerId : string) (frame : option Z) : option string :=
  None.

(** * Part II, continued: further program parts and reference readings *)

(** The bonus of a spare as a reading of the frames: the pins of the next
    roll found after frame [f], 0 when none is recorded. *)
Definition nextRollPins (frames : list FrameData.t) (f : nat) : Z :=
  nth 0 (laterPins frames f) 0.

(** [{ rollNumber: roll.roll - 1, pins: roll.pins }], the entry pushed for a
    roll record. *)
Definition toFrameRoll (roll : Roll.t) : FrameRoll.t :=
  FrameRoll.mk (Roll.roll roll - 1) (Roll.pins roll).

(** Order by roll number alone. *)
Definition byRoll (a b : Roll.t) : Z := Roll.roll a - Roll.roll b.

(** The roll record belongs to frame index [i] (frame number [i + 1]). *)
Definition inFrame (i : nat) (roll : Roll.t) : bool :=
  Roll.frame roll =? Z.of_nat i + 1.

(** The pins of a frame in the order its rolls are held. *)
Definition framePins (fr : FrameData.t) : list Z :=
  map FrameRoll.pins (FrameData.rolls fr).

(** Every roll record has pins in 0..10. *)
Definition rollPinsInRange (rolls : list Roll.t) : bool :=
  forallb (λ roll, (0 <=? Roll.pins roll) && (Roll.pins roll <=? 10)) rolls.

(** Frame 1 holds 7 and 3, frame 2 holds 4 so far. *)
Definition spareExample : list Roll.t :=
  [ Roll.mk "a" "g" "p1" 1 1 7;
    Roll.mk "b" "g" "p1" 1 2 3;
    Roll.mk "c" "g" "p1" 2 1 4 ].

(** Two records of one player's slot (frame 1, roll 1) with different pins. *)
Definition slotTen : Roll.t := Roll.mk "a" "g" "p1" 1 1 10.
Definition slotZero : Roll.t := Roll.mk "b" "g" "p1" 1 1 0.

(** Frame 2 holding 3 and 4. *)
Definition secondFrame : list Roll.t :=
  [ Roll.mk "c" "g" "p1" 2 1 3; Roll.mk "d" "g" "p1" 2 2 4 ].

(** The rows matched by the delete of [resetFrame(gameId, playerId, frame)]:
    [.eq('game_id', gameId).eq('player_id', playerId).eq('frame', frame)]. *)
Definition resetFrameMatches (gameId playerId : string) (frame : Z)
    (roll : Roll.t) : bool :=
  String.eqb (Roll.game_id roll) gameId
  && String.eqb (Roll.player_id roll) playerId
  && (Roll.frame roll =? frame).

(** The rows matched by the delete of [resetPlayer(gameId, playerId)]. *)
Definition resetPlayerMatches (gameId playerId : string) (roll : Roll.t) : bool :=
  String.eqb (Roll.game_id roll) gameId
  && String.eqb (Roll.player_id roll) playerId.

(** A roll set once the matched rows are deleted. *)
Definition withoutRolls (matches : Roll.t → bool) (rolls : list Roll.t)
  : list Roll.t :=
  List.filter (λ roll, negb (matches roll)) rolls.

(** Every roll of the set belongs to the game, as the fetch and the channel
    filter ([game_id=eq.gameId]) have it. *)
Definition ofGame (gameId : string) (rolls : list Roll.t) : bool :=
  forallb (λ roll, String.eqb (Roll.game_id roll) gameId) rolls.

(** The roll set after a run of change events, oldest first. *)
Definition applyChanges (rollsData : list Roll.t) (events : list RollsChange)
  : list Roll.t :=
  fold_left onRollsChange events rollsData.

(** The id of the roll a change event is about. *)
Definition eventId (payload : RollsChange) : string :=
  match payload with
  | INSERT new => Roll.id new
  | UPDATE new => Roll.id new
  | DELETE old => Roll.id old
  end.

(** Some roll of the set has this id. *)
Definition holdsId (rollsData : list Roll.t) (id : string) : bool :=
  existsb (λ roll, String.eqb (Roll.id roll) id) rollsData.

(** No two different roll records of the set share a slot (player, frame,
    roll). *)
Definition slotsDistinct (rolls : list Roll.t) : Prop :=
  ∀ x y, x ∈ rolls → y ∈ rolls →
    Roll.player_id x = Roll.player_id y →
    Roll.frame x = Roll.frame y → Roll.roll x = Roll.roll y → x = y.

(** A run of change events that never inserts an id the roll set holds at
    that moment (each row's insert is delivered once). *)
Fixpoint cleanRun (rollsData : list Roll.t) (events : list RollsChange) : bool :=
  match events with
  | [] => true
  | payload :: rest =>
      match payload with
      | INSERT new => negb (holdsId rollsData (Roll.id new))
      | _ => true
      end
      && cleanRun (onRollsChange rollsData payload) rest
  end.

(** Delivery orders of the same events that keep the order of the events of
    each roll id: neighbours about different ids may change places. *)
Inductive reordered : list RollsChange → list RollsChange → Prop :=
| reordered_refl events : reordered events events
| reordered_swap before e1 e2 after :
    eventId e1 ≠ eventId e2 →
    reordered (before ++ e1 :: e2 :: after) (before ++ e2 :: e1 :: after)
| reordered_trans events1 events2 events3 :
    reordered events1 events2 → reordered events2 events3 →
    reordered events1 events3.

(** Inserts of ids the roll set holds are the ones [cleanRun] rules out. *)
Definition freshInsert (l : list Roll.t) (e : RollsChange) : bool :=
  match e with
  | INSERT new => negb (holdsId l (Roll.id new))
  | _ => true
  end.

(** ** The players channel ([useRealtimeRolls]) *)

(** A change event of the players table. An insert triggers a refetch of the
    player list; [refetched] is what the store answers ([None] for no data). *)
Inductive PlayersChange :=
| PlayerInserted (refetched : option (list Player.t))
| PlayerUpdated (new : Player.t)
| PlayerDeleted (old : Player.t).

(** The new value of [playersData] after one change event. *)
Definition onPlayersChange (playersData : list Player.t) (payload : PlayersChange)
  : list Player.t :=
  match payload with
  | PlayerInserted (Some players) => players
  | PlayerInserted None => playersData
  | PlayerUpdated new =>
      map (λ player, if String.eqb (Player.id player) (Player.id new)
                     then new else player) playersData
  | PlayerDeleted old =>
      List.filter (λ player, negb (String.eqb (Player.id player) (Player.id old)))
        playersData
  end.

(** What the scorecard shows of a player apart from the name: id, frames and
    total. *)
Definition scoreLine (p : PlayerWithFrames.t) : string * list FrameData.t * Z :=
  (PlayerWithFrames.id p, PlayerWithFrames.frames p, PlayerWithFrames.total p).

(** ** Auto-select of the first open slot (the game page effect) *)

(** [player.frames[f]?.rolls || []] *)
Definition frameRollsAt (player : PlayerWithFrames.t) (f : Z) : list FrameRoll.t :=
  match js_index (PlayerWithFrames.frames player) f with
  | Some frame => FrameData.rolls frame
  | None => []
  end.

(** The inner loop [for (let f = 0; f < 10; f++)] over the frame indexes
    [fs]: the first open slot of the player, if any. *)
Fixpoint firstOpenSlot (player : PlayerWithFrames.t) (fs : list nat)
  : option SelectedCell.t :=
  match fs with
  | [] => None
  | f :: rest =>
      let rolls := frameRollsAt player (Z.of_nat f) in
      if (f <? 9)%nat then
        let isStrike :=
          existsb (λ r, (FrameRoll.rollNumber r =? 0) && (FrameRoll.pins r =? 10))
            rolls in
        if isStrike then firstOpenSlot player rest
        else if (2 <=? length rolls)%nat then firstOpenSlot player rest
        else Some (SelectedCell.mk (PlayerWithFrames.id player) (Z.of_nat f)
                     (Z.of_nat (length rolls)))
      else
        if (3 <=? length rolls)%nat then firstOpenSlot player rest
        else
          let r0 := pinsOrZero (findRoll rolls 0) in
          let r1 := pinsOrZero (findRoll rolls 1) in
          if (length rolls =? 2)%nat && ((r0 + r1 <? 10) && negb (r0 =? 10))
          then firstOpenSlot player rest
          else Some (SelectedCell.mk (PlayerWithFrames.id player) (Z.of_nat f)
                       (Z.of_nat (length rolls)))
  end.

(** The outer loop [for (const player of players)]. *)
Fixpoint firstOpenSlotOf (players : list PlayerWithFrames.t)
  : option SelectedCell.t :=
  match players with
  | [] => None
  | player :: rest =>
      match firstOpenSlot player (seq 0 10) with
      | Some cell => Some cell
      | None => firstOpenSlotOf rest
      end
  end.

(** The effect: it runs only with players and without a selection, and sets
    the selection when it finds an open slot. *)
Definition autoSelect (players : list PlayerWithFrames.t)
    (selectedCell : option SelectedCell.t) : option SelectedCell.t :=
  match selectedCell with
  | Some _ => selectedCell
  | None =>
      if (0 <? length players)%nat then
        match firstOpenSlotOf players with
        | Some cell => Some cell
        | None => selectedCell
        end
      else selectedCell
  end.

(** ** Keyboard input (the game page key handler) *)

Definition isDigit (c : Ascii.ascii) : bool :=
  ((48 <=? Ascii.N_of_ascii c) && (Ascii.N_of_ascii c <=? 57))%N.

Definition digitValue (c : Ascii.ascii) : Z := Z.of_N (Ascii.N_of_ascii c) - 48.

(** The value of the longest prefix of decimal digits. *)
Fixpoint parseDigits (s : string) (acc : Z) : Z :=
  match s with
  | String c rest =>
      if isDigit c then parseDigits rest (10 * acc + digitValue c) else acc
  | EmptyString => acc
  end.

(** Tab, line feed, vertical tab, form feed, carriage return, space. *)
Definition isWhiteSpace (c : Ascii.ascii) : bool :=
  let n := Ascii.N_of_ascii c in
  ((9 <=? n) && (n <=? 13) || (n =? 32))%N.

Fixpoint skipWhiteSpace (s : string) : string :=
  match s with
  | String c rest => if isWhiteSpace c then skipWhiteSpace rest else s
  | EmptyString => s
  end.

Definition startsWithDigit (s : string) : bool :=
  match s with
  | String c _ => isDigit c
  | EmptyString => false
  end.

(** [parseInt(s, 10)] on strings of 8-bit characters: leading white space,
    an optional sign (45 is the minus sign, 43 the plus sign), then the
    longest prefix of digits; [None] for [NaN]. *)
Definition parseInt10 (s : string) : option Z :=
  match skipWhiteSpace s with
  | String c rest =>
      if (Ascii.N_of_ascii c =? 45)%N then
        if startsWithDigit rest then Some (- parseDigits rest 0) else None
      else if (Ascii.N_of_ascii c =? 43)%N then
        if startsWithDigit rest then Some (parseDigits rest 0) else None
      else if isDigit c then Some (parseDigits (String c rest) 0) else None
  | EmptyString => None
  end.

(** [c.toLowerCase()] on the letters A-Z; the handler only compares the
    result with ["x"]. *)
Definition lowerAscii (c : Ascii.ascii) : Ascii.ascii :=
  let n := Ascii.N_of_ascii c in
  if ((65 <=? n) && (n <=? 90))%N then Ascii.ascii_of_N (n + 32) else c.

Fixpoint toLowerCase (s : string) : string :=
  match s with
  | String c rest => String (lowerAscii c) (toLowerCase rest)
  | EmptyString => EmptyString
  end.

(** The pins a key stands for, [None] where the handler leaves [pins] at
    [null] or [parseInt] gives [NaN]. *)
Definition keyPins (key : string) (maxPins : Z) : option Z :=
  if String.leb "0" key && String.leb key "9" then parseInt10 key
  else if String.eqb (toLowerCase key) "x" then Some 10
  else if String.eqb key "/" then Some (if maxPins <? 10 then maxPins else 10)
  else if String.eqb key "-" then Some 0
  else None.

(** [handleKeyDown]: the pins handed to [handleRollInput], if any. *)
Definition handleKeyDown (players : list PlayerWithFrames.t)
    (selectedCell : option SelectedCell.t) (key : string) : option Z :=
  match selectedCell with
  | None => None
  | Some _ =>
      let maxPins := getMaxPinsForSelection selectedCell players in
      match keyPins key maxPins with
      | Some pins => if pins <=? maxPins then Some pins else None
      | None => None
      end
  end.

(** ** The pin keypad *)

(** A button of the keypad: the pins its click sends and whether it is
    disabled. *)
Record KeypadButton := mkButton {
  sends : Z;
  disabled : bool
}.

(** The buttons [PinKeypad] renders: 1-9, the gutter button, the 10/strike
    button, and the spare button when the ceiling is below 10. *)
Definition keypadButtons (maxPins : Z) (isStrikePossible : bool)
  : list KeypadButton :=
  map (λ pin, mkButton pin (pin >? maxPins)) [1; 2; 3; 4; 5; 6; 7; 8; 9]
  ++ [mkButton 0 false]
  ++ [mkButton 10 ((10 >? maxPins) && negb isStrikePossible)]
  ++ (if maxPins <? 10 then [mkButton maxPins false] else []).

(** The keypad as the game page renders it for a selection:
    [maxPins={getMaxPinsForSelection()}],
    [isStrikePossible={selectedCell.rollNumber === 0}]. *)
Definition pageKeypad (players : list PlayerWithFrames.t)
    (cell : SelectedCell.t) : list KeypadButton :=
  keypadButtons (getMaxPinsForSelection (Some cell) players)
    (SelectedCell.rollNumber cell =? 0).

(** A turn in frames 0-8: a strike, or two balls the first of which is not a
    strike. *)
Definition validTurn (turn : list Z) : bool :=
  match turn with
  | [first] => first =? 10
  | [first; _] => negb (first =? 10)
  | _ => false
  end.

(** The first ball of a player's tenth frame as the roll records have it:
    the pins of the first record in arrival order with frame number 10 and
    roll number 1, 0 when there is none. *)
Definition recordedTenthFirstBall (rolls : list Roll.t) (player : Player.t) : Z :=
  match List.find (λ roll, Roll.roll roll =? 1)
          (List.filter (inFrame 9) (rollsOf rolls player)) with
  | Some roll => Roll.pins roll
  | None => 0
  end.

(** ** The earlier rolls hook ([useRollsSubscription]) *)

(** Its state update for one change event: an update maps over the rolls and
    replaces those with the id; it never adds one. *)
Definition subscriptionOnChange (prev : list Roll.t) (payload : RollsChange)
  : list Roll.t :=
  match payload with
  | INSERT new => prev ++ [new]
  | UPDATE new =>
      map (λ roll, if String.eqb (Roll.id roll) (Roll.id new) then new else roll)
        prev
  | DELETE old =>
      List.filter (λ roll, negb (String.eqb (Roll.id roll) (Roll.id old))) prev
  end.

(** ** Writing a roll ([src/lib/bowling.ts] and [handleRollInput]) *)

Module InsertRollParams.
Record t := mk {
  game_id : string;
  player_id : string;
  frame : Z;
  roll : Z;
  pins : Z
}.
End InsertRollParams.

(** The parameters [handleRollInput] passes to [insertRoll]: frame and roll
    converted from 0-indexed to 1-indexed. *)
Definition rollParams (gameId : string) (cell : SelectedCell.t) (pins : Z)
  : InsertRollParams.t :=
  InsertRollParams.mk gameId (SelectedCell.playerId cell)
    (SelectedCell.frameIndex cell + 1) (SelectedCell.rollNumber cell + 1) pins.

(** The row matches
    [.eq('game_id', ..).eq('player_id', ..).eq('frame', ..).eq('roll', ..)]. *)
Definition inSlot (params : InsertRollParams.t) (row : Roll.t) : bool :=
  String.eqb (Roll.game_id row) (InsertRollParams.game_id params)
  && String.eqb (Roll.player_id row) (InsertRollParams.player_id params)
  && (Roll.frame row =? InsertRollParams.frame params)
  && (Roll.roll row =? InsertRollParams.roll params).

(** [.update({ pins })] applied to a row. *)
Definition withPins (pins : Z) (row : Roll.t) : Roll.t :=
  Roll.mk (Roll.id row) (Roll.game_id row) (Roll.player_id row)
    (Roll.frame row) (Roll.roll row) pins.

(** The row [.insert({ game_id, player_id, frame, roll, pins })] creates, with
    the id the store generates for it. *)
Definition newRow (newId : string) (params : InsertRollParams.t) : Roll.t :=
  Roll.mk newId (InsertRollParams.game_id params)
    (InsertRollParams.player_id params) (InsertRollParams.frame params)
    (InsertRollParams.roll params) (InsertRollParams.pins params).

(** [insertRoll(params)] over the rolls table taken as the list of its rows,
    for a store that answers every query: the check selects the rows of the
    slot ([maybeSingle]: no row, one row, or an error for several); one row is
    updated by id ([single]: an error unless exactly one row comes back); no
    row leads to an insert with the generated id [newId]. The result is the
    returned row and the table afterwards. *)
Definition insertRoll (newId : string) (params : InsertRollParams.t)
    (table : list Roll.t) : Outcome (Roll.t * list Roll.t) :=
  match List.filter (inSlot params) table with
  | [] =>
      Resolved (newRow newId params, table ++ [newRow newId params])
  | [existingRolls] =>
      match List.filter
              (λ row, String.eqb (Roll.id row) (Roll.id existingRolls)) table with
      | [row] =>
          Resolved
            (withPins (InsertRollParams.pins params) row,
             map (λ row, if String.eqb (Roll.id row) (Roll.id existingRolls)
                         then withPins (InsertRollParams.pins params) row
                         else row) table)
      | _ => Rejected "Failed to update roll: no single row"
      end
  | _ => Rejected "Failed to check existing roll: several rows"
  end.

(** The change event the table's feed emits for a successful [insertRoll]. *)
Definition writeEvent (params : InsertRollParams.t) (table : list Roll.t)
    (row : Roll.t) : RollsChange :=
  match List.filter (inSlot params) table with
  | [] => INSERT row
  | _ => UPDATE row
  end.


(** The update branch of [insertRoll] as a function on the rows of the
    table: the row whose id is that of the row found gets the new pins. *)
Definition setPins (params : InsertRollParams.t) (existingRolls : Roll.t)
    (row : Roll.t) : Roll.t :=
  if String.eqb (Roll.id row) (Roll.id existingRolls)
  then withPins (InsertRollParams.pins params) row else row.


(** ** The roll set in slot order *)

(** The roll record is in the slot (frame number, roll number). *)
Definition atSlot (frame roll : Z) (r : Roll.t) : bool :=
  (Roll.frame r =? frame) && (Roll.roll r =? roll).

(** [x] comes no later than [y]: an earlier frame, or the same frame and no
    later roll. *)
Definition slotLeb (x y : Roll.t) : bool :=
  (Roll.frame x <? Roll.frame y)
  || ((Roll.frame x =? Roll.frame y) && (Roll.roll x <=? Roll.roll y)).

(** Frame by frame, and within a frame roll by roll. *)
Fixpoint inSlotOrder (l : list Roll.t) : bool :=
  match l with
  | [] => true
  | x :: l' => forallb (slotLeb x) l' && inSlotOrder l'
  end.

(** [arranged] holds the roll records [records] frame by frame and roll by
    roll, the records of one slot in their order of arrival. *)
Definition arrangedBySlot (records arranged : list Roll.t) : Prop :=
  inSlotOrder arranged = true
  ∧ ∀ frame roll,
      List.filter (atSlot frame roll) arranged
      = List.filter (atSlot frame roll) records.

(** The roll record belongs to one of the frames after frame index [f]:
    its frame number is in [f + 2 .. 10]. *)
Definition afterFrame (f : nat) (r : Roll.t) : bool :=
  (Z.of_nat f + 1 <? Roll.frame r) && (Roll.frame r <=? 10).

(** ** The page after a roll input *)

(** The selection once a roll input has been handled: [handleRollInput] sets
    the selection through [advanceTurn]; the render that follows runs the
    auto-select effect ([selectedCell] is one of its dependencies) over the
    scoreboard [players] as it is then, which does not hold the roll just
    written: the write is still awaited and its change event has not
    arrived. *)
Definition selectionAfterRoll (players : list PlayerWithFrames.t)
    (selectedCell : option SelectedCell.t) (pins : Z) : option SelectedCell.t :=
  autoSelect players (handleRollInput players selectedCell pins).

(** Sample games. Roll ids are the player id, a dash and a letter. *)
Definition letter (k : nat) : string :=
  String (Ascii.ascii_of_nat (97 + k)) EmptyString.

(** A strike in each of the frames 1-9. *)
Definition nineStrikes (player : Player.t) : list Roll.t :=
  map (λ k, Roll.mk (Player.id player ++ "-" ++ letter k)
              (Player.game_id player) (Player.id player) (Z.of_nat (S k)) 1 10)
    (seq 0 9).

(** The balls [pinsList] of frame 10, in order. *)
Definition tenthBalls (player : Player.t) (pinsList : list Z) : list Roll.t :=
  imap (λ k pins, Roll.mk (Player.id player ++ "-" ++ letter (9 + k))
                    (Player.game_id player) (Player.id player) 10
                    (Z.of_nat (S k)) pins)
    pinsList.

(** Two players, every frame complete except the last one of the last
    player, which holds two strikes: the last ball of the game is due. *)
Definition lastBallBoard : list PlayerWithFrames.t :=
  processRollsIntoPlayers [alice; bob]
    (nineStrikes alice ++ tenthBalls alice [10; 10; 10]
     ++ nineStrikes bob ++ tenthBalls bob [10; 10]).

(** The same game once that ball, a strike, is on the scoreboard. *)
Definition finishedBoard : list PlayerWithFrames.t :=
  processRollsIntoPlayers [alice; bob]
    (nineStrikes alice ++ tenthBalls alice [10; 10; 10]
     ++ nineStrikes bob ++ tenthBalls bob [10; 10; 10]).

(** An open ending: the last frame of the last player holds 4, the second
    ball is due. *)
Definition openLastBallBoard : list PlayerWithFrames.t :=
  processRollsIntoPlayers [alice; bob]
    (nineStrikes alice ++ tenthBalls alice [4; 3]
     ++ nineStrikes bob ++ tenthBalls bob [4]).

(** * Part III: theorems *)

(** ** Facts about the scoring pass *)

Lemma takeRolls_full rs total : takeRolls rs total 2 = (total, 2).
Proof. induction rs as [|x rs IH]; simpl; auto. Qed.

Lemma takeRolls_one rs total :
  takeRolls rs total 1 =
  match rs with [] => (total, 1) | x :: _ => (total + FrameRoll.pins x, 2) end.
Proof. destruct rs; reflexivity. Qed.

Lemma takeRolls_zero rs total :
  takeRolls rs total 0 =
  match rs with
  | [] => (total, 0)
  | [x] => (total + FrameRoll.pins x, 1)
  | x :: y :: _ => (total + FrameRoll.pins x + FrameRoll.pins y, 2)
  end.
Proof. destruct rs as [|x [|y rs]]; reflexivity. Qed.

(** [takeRolls] adds the first [2 - rollsFound] pins and counts them. *)
Lemma takeRolls_spec rs total (found : nat) :
  (found ≤ 2)%nat →
  takeRolls rs total (Z.of_nat found) =
  (total + sumZ (take (2 - found) (map FrameRoll.pins rs)),
   Z.of_nat (found + Nat.min (length rs) (2 - found))).
Proof.
  intros Hf.
  destruct found as [|[|[|found]]]; try lia.
  - change (Z.of_nat 0) with 0. rewrite takeRolls_zero.
    destruct rs as [|x [|y rs]]; simpl; f_equal; lia.
  - change (Z.of_nat 1) with 1. rewrite takeRolls_one.
    destruct rs as [|x rs]; simpl; f_equal; lia.
  - change (Z.of_nat 2) with 2. rewrite takeRolls_full.
    simpl. f_equal; [lia|]. rewrite Nat.min_0_r. reflexivity.
Qed.

Lemma sumZ_app l1 l2 : sumZ (l1 ++ l2) = sumZ l1 + sumZ l2.
Proof. induction l1 as [|x l1 IH]; simpl; lia. Qed.

Lemma js_sort_length {A} (cmp : A → A → Z) (l : list A) :
  length (js_sort cmp l) = length l.
Proof.
  assert (Hins : ∀ x l', length (sort_insert cmp x l') = S (length l')).
  { intros x l'. induction l' as [|y l' IH]; simpl; [reflexivity|].
    destruct (cmp x y <=? 0); simpl; auto. }
  induction l as [|x l IH]; [reflexivity|].
  change (js_sort cmp (x :: l)) with (sort_insert cmp x (js_sort cmp l)).
  rewrite Hins, IH. reflexivity.
Qed.

(** The outer loop over the frames [frs] found at the indices [idxs]. *)
Lemma getNextTwoRolls_loop_spec frames idxs frs total (found : nat) :
  Forall2 (λ i fr, frames !! i = Some fr) idxs frs →
  (found ≤ 2)%nat →
  getNextTwoRolls_loop frames idxs total (Z.of_nat found) =
  total + sumZ (take (2 - found) (concat (map sortedPins frs))).
Proof.
  intros HF. revert total found.
  induction HF as [|i fr idxs frs Hi HF IH]; intros total found Hf.
  - simpl. rewrite take_nil. simpl. lia.
  - simpl. destruct (Z.of_nat found <? 2) eqn:Hlt.
    + rewrite Hi.
      assert (Hsp := takeRolls_spec (js_sort byRollNumber (FrameData.rolls fr))
                       total found Hf).
      destruct (0 <? length (FrameData.rolls fr))%nat eqn:Hlen.
      * rewrite Hsp. rewrite IH by lia.
        rewrite take_app. rewrite sumZ_app.
        unfold sortedPins at 2 3. rewrite length_map.
        replace (2 - (found + Nat.min (length (js_sort byRollNumber (FrameData.rolls fr)))
                        (2 - found)))%nat
          with (2 - found - length (js_sort byRollNumber (FrameData.rolls fr)))%nat
          by lia.
        unfold sortedPins. lia.
      * apply Nat.ltb_ge in Hlen.
        assert (Hnil : FrameData.rolls fr = []).
        { destruct (FrameData.rolls fr); [reflexivity|simpl in Hlen; lia]. }
        rewrite IH by lia. unfold sortedPins at 2. rewrite Hnil. reflexivity.
    + apply Z.ltb_ge in Hlt. replace (2 - found)%nat with 0%nat by lia.
      simpl. lia.
Qed.

(** *** One step of the pass touches one slot *)

Lemma scoreFrame_length st i :
  length (scoreFrame st i).1 = length st.1.
Proof.
  destruct st as [frames rt]. unfold scoreFrame.
  destruct (frames !! i) as [fr|]; [|reflexivity].
  destruct (length (js_sort byRollNumber (FrameData.rolls fr)) =? 0)%nat;
    simpl; rewrite !length_insert; reflexivity.
Qed.

Lemma scoreFrame_other st i j :
  i ≠ j → (scoreFrame st i).1 !! j = st.1 !! j.
Proof.
  intros Hij. destruct st as [frames rt]. unfold scoreFrame.
  destruct (frames !! i) as [fr|]; [|reflexivity].
  destruct (length (js_sort byRollNumber (FrameData.rolls fr)) =? 0)%nat;
    simpl; rewrite !list_lookup_insert_ne by assumption; reflexivity.
Qed.

(** What the visited slot holds afterwards. *)
Lemma scoreFrame_lookup st i fr :
  st.1 !! i = Some fr →
  ∃ fr',
    (scoreFrame st i).1 !! i = Some fr'
    ∧ FrameData.frameNumber fr' = FrameData.frameNumber fr
    ∧ FrameData.rolls fr' = js_sort byRollNumber (FrameData.rolls fr)
    ∧ FrameData.frameTotal fr' =
        (if (length (FrameData.rolls fr) =? 0)%nat then 0
         else frameScore
                (<[i := FrameData.mk (FrameData.frameNumber fr)
                          (js_sort byRollNumber (FrameData.rolls fr))
                          (FrameData.frameTotal fr)
                          (FrameData.runningTotal fr)]> st.1)
                i (js_sort byRollNumber (FrameData.rolls fr)))
    ∧ FrameData.runningTotal fr' = st.2 + FrameData.frameTotal fr'
    ∧ (scoreFrame st i).2 = st.2 + FrameData.frameTotal fr'.
Proof.
  destruct st as [frames rt]. simpl. intros Hfr.
  assert (Hlt : (i < length frames)%nat) by (eapply lookup_lt_Some; eauto).
  unfold scoreFrame. rewrite Hfr. rewrite js_sort_length.
  destruct (length (FrameData.rolls fr) =? 0)%nat; simpl.
  - eexists. rewrite list_lookup_insert_eq by (rewrite length_insert; lia).
    split; [reflexivity|]. simpl. repeat split; lia.
  - eexists. rewrite list_lookup_insert_eq by (rewrite length_insert; lia).
    split; [reflexivity|]. simpl. repeat split; lia.
Qed.

Lemma scoreFrame_fold_length idxs st :
  length (fold_left scoreFrame idxs st).1 = length st.1.
Proof.
  revert st. induction idxs as [|i idxs IH]; intros st; simpl; [reflexivity|].
  rewrite IH. apply scoreFrame_length.
Qed.

Lemma scoreFrame_fold_other idxs st j :
  j ∉ idxs → (fold_left scoreFrame idxs st).1 !! j = st.1 !! j.
Proof.
  revert st. induction idxs as [|i idxs IH]; intros st Hj; simpl; [reflexivity|].
  apply not_elem_of_cons in Hj as [Hne Hj].
  rewrite IH by assumption. apply scoreFrame_other. congruence.
Qed.

(** The slot [i] of the result is written when the pass visits [i], in a
    state [pre] that still holds the input at every index from [i] on. *)
Lemma scoreFrames_lookup frames i :
  (i < length frames)%nat →
  ∃ pre rt,
    length pre = length frames
    ∧ (∀ j, (i ≤ j)%nat → pre !! j = frames !! j)
    ∧ (scoreFrames frames).1 !! i = (scoreFrame (pre, rt) i).1 !! i.
Proof.
  intros Hi. unfold scoreFrames.
  assert (Hseq : seq 0 (length frames) =
                 seq 0 i ++ i :: seq (S i) (length frames - S i)).
  { transitivity (seq 0 (i + S (length frames - S i))); [f_equal; lia|].
    apply seq_app. }
  rewrite Hseq, fold_left_app. simpl.
  destruct (fold_left scoreFrame (seq 0 i) (frames, 0)) as [pre rt] eqn:Hpre.
  exists pre, rt.
  assert (Hpre1 : pre = (fold_left scoreFrame (seq 0 i) (frames, 0)).1)
    by (rewrite Hpre; reflexivity).
  split; [|split].
  - rewrite Hpre1. apply scoreFrame_fold_length.
  - intros j Hj. rewrite Hpre1. apply scoreFrame_fold_other.
    rewrite elem_of_seq. lia.
  - apply scoreFrame_fold_other. rewrite elem_of_seq. lia.
Qed.

(** The pass sorts each frame's rolls and keeps the frame numbers. *)
Lemma scoreFrames_rolls frames :
  map FrameData.rolls (scoreFrames frames).1 =
  map (λ fr, js_sort byRollNumber (FrameData.rolls fr)) frames.
Proof.
  apply list_eq. intros i. rewrite !list_lookup_fmap.
  destruct (decide (i < length frames)%nat) as [Hi|Hi].
  - destruct (scoreFrames_lookup frames i Hi) as (pre & rt & Hlen & Hsame & ->).
    destruct (lookup_lt_is_Some_2 frames i Hi) as [fr Hfr].
    destruct (scoreFrame_lookup (pre, rt) i fr) as (fr' & -> & _ & Hr & _).
    { simpl. rewrite Hsame by lia. assumption. }
    rewrite Hfr. simpl. congruence.
  - rewrite !lookup_ge_None_2; [reflexivity|lia|].
    unfold scoreFrames. rewrite scoreFrame_fold_length. simpl. lia.
Qed.

Lemma scoreFrames_frameNumber frames :
  map FrameData.frameNumber (scoreFrames frames).1 =
  map FrameData.frameNumber frames.
Proof.
  apply list_eq. intros i. rewrite !list_lookup_fmap.
  destruct (decide (i < length frames)%nat) as [Hi|Hi].
  - destruct (scoreFrames_lookup frames i Hi) as (pre & rt & Hlen & Hsame & ->).
    destruct (lookup_lt_is_Some_2 frames i Hi) as [fr Hfr].
    destruct (scoreFrame_lookup (pre, rt) i fr) as (fr' & -> & Hn & _).
    { simpl. rewrite Hsame by lia. assumption. }
    rewrite Hfr. simpl. congruence.
  - rewrite !lookup_ge_None_2; [reflexivity|lia|].
    unfold scoreFrames. rewrite scoreFrame_fold_length. simpl. lia.
Qed.

Lemma scoreFrames_length frames :
  length (scoreFrames frames).1 = length frames.
Proof. unfold scoreFrames. apply scoreFrame_fold_length. Qed.

(** *** Grouping keeps ten frames *)

Lemma pushRoll_length frames roll : length (pushRoll frames roll) = length frames.
Proof.
  unfold pushRoll. destruct (js_index frames (Roll.frame roll - 1)); [|reflexivity].
  apply length_insert.
Qed.

Lemma groupRolls_length playerRolls : length (groupRolls playerRolls) = 10%nat.
Proof.
  unfold groupRolls.
  assert (H : ∀ l frames, length (fold_left pushRoll l frames) = length frames).
  { induction l as [|x l IH]; intros frames; simpl; [reflexivity|].
    rewrite IH. apply pushRoll_length. }
  rewrite H. reflexivity.
Qed.

Lemma processPlayer_frames rolls player :
  PlayerWithFrames.frames (processPlayer rolls player) =
  (scoreFrames (groupRolls (rollsOf rolls player))).1.
Proof.
  unfold processPlayer, rollsOf.
  destruct (scoreFrames _) as [frames rt]. reflexivity.
Qed.

Lemma processPlayer_total rolls player :
  PlayerWithFrames.total (processPlayer rolls player) =
  (scoreFrames (groupRolls (rollsOf rolls player))).2.
Proof.
  unfold processPlayer, rollsOf.
  destruct (scoreFrames _) as [frames rt]. reflexivity.
Qed.

(** The frames a lookahead visits, read off the array it is given. *)
Lemma following_frames (frames frames0 : list FrameData.t) (f : nat) :
  length frames = 10%nat → length frames0 = 10%nat →
  (∀ j, (f < j)%nat → frames !! j = frames0 !! j) →
  Forall2 (λ i fr, frames !! i = Some fr)
    (followingIndices frames f) (drop (S f) frames0).
Proof.
  intros Hlen Hlen0 Hsame. unfold followingIndices. rewrite Hlen. simpl Nat.min.
  apply Forall2_same_length_lookup. split.
  - rewrite length_seq, length_drop. lia.
  - intros i j fr Hj Hfr. apply lookup_seq in Hj as [-> Hi].
    rewrite lookup_drop in Hfr. rewrite Hsame by lia. exact Hfr.
Qed.

Lemma laterPins_scored frames f :
  laterPins (scoreFrames frames).1 f = concat (map sortedPins (drop (S f) frames)).
Proof.
  unfold laterPins. f_equal.
  rewrite <- (map_map FrameData.rolls (map FrameRoll.pins)).
  rewrite <- skipn_map, scoreFrames_rolls, skipn_map, map_map. reflexivity.
Qed.

(** ** The tenth frame *)

Lemma pinsOrZero_Some r : pinsOrZero (Some r) = FrameRoll.pins r.
Proof. simpl. destruct (Z.eqb_spec (FrameRoll.pins r) 0); congruence. Qed.

Lemma frameScore_tenth frames sortedRolls :
  frameScore frames 9 sortedRolls =
  let ps := map FrameRoll.pins sortedRolls in
  if bonusEarned ps then sumZ (take 3 ps) else sumZ (take 2 ps).
Proof.
  unfold frameScore, bonusEarned. simpl Nat.eqb. cbv iota.
  destruct sortedRolls as [|a [|b [|c l]]]; simpl lookup;
    rewrite ?pinsOrZero_Some; simpl;
    repeat match goal with |- context [?x =? ?y] => destruct (Z.eqb_spec x y) end;
    simpl; lia.
Qed.

Lemma tenth_frame_lookup rolls player fr :
  PlayerWithFrames.frames (processPlayer rolls player) !! 9%nat = Some fr →
  FrameData.frameTotal fr =
    if bonusEarned (map FrameRoll.pins (FrameData.rolls fr))
    then sumZ (take 3 (map FrameRoll.pins (FrameData.rolls fr)))
    else sumZ (take 2 (map FrameRoll.pins (FrameData.rolls fr))).
Proof.
  intros Hfr. rewrite processPlayer_frames in Hfr.
  set (G := groupRolls (rollsOf rolls player)) in *.
  assert (HG : length G = 10%nat) by apply groupRolls_length.
  destruct (scoreFrames_lookup G 9) as (pre & rt & Hlen & Hsame & Hat); [lia|].
  destruct (lookup_lt_is_Some_2 G 9) as [g Hg]; [lia|].
  destruct (scoreFrame_lookup (pre, rt) 9 g) as (fr' & Hfr' & _ & Hr & Ht & _).
  { simpl. rewrite Hsame by lia. exact Hg. }
  rewrite Hat, Hfr' in Hfr. injection Hfr as ->.
  rewrite Ht, Hr. destruct (length (FrameData.rolls g) =? 0)%nat eqn:Hlen0.
  - apply Nat.eqb_eq in Hlen0.
    destruct (FrameData.rolls g); [reflexivity|discriminate].
  - apply frameScore_tenth.
Qed.




(** ** Sorting and filtering

    For a comparator that is a total preorder, keeping the elements that
    satisfy [keep] commutes with the stable sort. *)

Section SortFilter.
Context {A : Type} (cmp : A → A → Z) (keep : A → bool).
Hypothesis cmp_trans : ∀ x y z, cmp x y <= 0 → cmp y z <= 0 → cmp x z <= 0.
Hypothesis cmp_total : ∀ x y, cmp x y <= 0 ∨ cmp y x <= 0.

Lemma sort_insert_below x l : belowHead cmp x l → sort_insert cmp x l = x :: l.
Proof.
  destruct l as [|y l]; simpl; [reflexivity|]. intros H.
  destruct (Z.leb_spec (cmp x y) 0); [reflexivity|lia].
Qed.

Lemma sort_insert_Forall (P : A → Prop) x l :
  P x → Forall P l → Forall P (sort_insert cmp x l).
Proof.
  intros Hx. induction 1 as [|y l Hy Hl IH]; simpl.
  - repeat constructor; assumption.
  - destruct (cmp x y <=? 0); repeat constructor; assumption.
Qed.

Lemma sort_insert_ordered x l : ordered cmp l → ordered cmp (sort_insert cmp x l).
Proof.
  induction l as [|y l IH]; simpl.
  - intros _. split; constructor.
  - intros [Hy Hl]. destruct (Z.leb_spec (cmp x y) 0) as [Hle|Hgt]; simpl.
    + split; [|split; assumption]. constructor; [assumption|].
      eapply Forall_impl; [exact Hy|]. intros z Hz. simpl in Hz. eauto.
    + split; [|auto]. apply sort_insert_Forall; [|assumption].
      destruct (cmp_total x y); lia.
Qed.

Lemma js_sort_ordered l : ordered cmp (js_sort cmp l).
Proof.
  induction l as [|x l IH]; [exact I|].
  change (js_sort cmp (x :: l)) with (sort_insert cmp x (js_sort cmp l)).
  apply sort_insert_ordered, IH.
Qed.

Lemma belowHead_filter x l :
  Forall (λ y, cmp x y <= 0) l → belowHead cmp x (List.filter keep l).
Proof.
  induction 1 as [|y l Hy Hl IH]; simpl; [exact I|].
  destruct (keep y); simpl; assumption.
Qed.

Lemma filter_sort_insert x l :
  ordered cmp l →
  List.filter keep (sort_insert cmp x l) =
  if keep x then sort_insert cmp x (List.filter keep l) else List.filter keep l.
Proof.
  induction l as [|y l IH]; simpl.
  - intros _. destruct (keep x); reflexivity.
  - intros [Hy Hl]. destruct (Z.leb_spec (cmp x y) 0) as [Hle|Hgt]; simpl.
    + destruct (keep x) eqn:Hx; [|reflexivity].
      symmetry. apply sort_insert_below.
      apply (belowHead_filter x (y :: l)). constructor; [assumption|].
      eapply Forall_impl; [exact Hy|]. intros z Hz. simpl in Hz. eauto.
    + rewrite (IH Hl). destruct (keep y) eqn:Hky, (keep x) eqn:Hkx;
        simpl; try reflexivity.
      destruct (Z.leb_spec (cmp x y) 0); [lia|reflexivity].
Qed.

Lemma filter_js_sort l :
  List.filter keep (js_sort cmp l) = js_sort cmp (List.filter keep l).
Proof.
  induction l as [|x l IH]; [reflexivity|].
  change (js_sort cmp (x :: l)) with (sort_insert cmp x (js_sort cmp l)).
  rewrite filter_sort_insert by apply js_sort_ordered.
  simpl. destruct (keep x); rewrite IH; reflexivity.
Qed.
End SortFilter.

Lemma byFrameThenRoll_trans x y z :
  byFrameThenRoll x y <= 0 → byFrameThenRoll y z <= 0 → byFrameThenRoll x z <= 0.
Proof.
  unfold byFrameThenRoll.
  destruct (Z.eqb_spec (Roll.frame x) (Roll.frame y)),
           (Z.eqb_spec (Roll.frame y) (Roll.frame z)),
           (Z.eqb_spec (Roll.frame x) (Roll.frame z)); simpl; lia.
Qed.

Lemma byFrameThenRoll_total x y :
  byFrameThenRoll x y <= 0 ∨ byFrameThenRoll y x <= 0.
Proof.
  unfold byFrameThenRoll.
  destruct (Z.eqb_spec (Roll.frame x) (Roll.frame y)),
           (Z.eqb_spec (Roll.frame y) (Roll.frame x)); simpl; lia.
Qed.

(** ** Malformed roll records *)

Lemma pushRoll_out_of_range frames roll :
  length frames = 10%nat → frameInRange roll = false →
  pushRoll frames roll = frames.
Proof.
  intros Hlen Hr. unfold pushRoll, js_index.
  destruct (Z.ltb_spec (Roll.frame roll - 1) 0); [reflexivity|].
  rewrite lookup_ge_None_2; [reflexivity|].
  unfold frameInRange in Hr. apply andb_false_iff in Hr.
  rewrite Hlen. destruct Hr as [Hr|Hr]; [apply Z.leb_gt in Hr|apply Z.leb_gt in Hr]; lia.
Qed.

Lemma pushRoll_fold_in_range l frames :
  length frames = 10%nat →
  fold_left pushRoll l frames = fold_left pushRoll (List.filter frameInRange l) frames.
Proof.
  revert frames. induction l as [|x l IH]; intros frames Hlen; [reflexivity|].
  simpl. destruct (frameInRange x) eqn:Hx; simpl.
  - apply IH. rewrite pushRoll_length. exact Hlen.
  - rewrite pushRoll_out_of_range by assumption. apply IH, Hlen.
Qed.

Lemma groupRolls_in_range playerRolls :
  groupRolls playerRolls = groupRolls (List.filter frameInRange playerRolls).
Proof.
  unfold groupRolls. rewrite pushRoll_fold_in_range by reflexivity.
  rewrite (filter_js_sort byFrameThenRoll frameInRange
             byFrameThenRoll_trans byFrameThenRoll_total).
  reflexivity.
Qed.

Lemma rollsOf_filter keep rolls player :
  rollsOf (List.filter keep rolls) player = List.filter keep (rollsOf rolls player).
Proof.
  unfold rollsOf. induction rolls as [|x l IH]; [reflexivity|].
  simpl. destruct (keep x) eqn:Hk; simpl;
    destruct (String.eqb _ _); simpl; rewrite ?Hk, IH; reflexivity.
Qed.

Lemma groupRolls_frameNumber playerRolls :
  map FrameData.frameNumber (groupRolls playerRolls) =
  map FrameData.frameNumber emptyFrames.
Proof.
  unfold groupRolls. generalize (js_sort byFrameThenRoll playerRolls) as l.
  generalize emptyFrames as frames.
  intros frames l. revert frames.
  induction l as [|x l IH]; intros frames; [reflexivity|].
  simpl. rewrite IH. unfold pushRoll, js_index.
  destruct (Roll.frame x - 1 <? 0); [reflexivity|].
  destruct (frames !! Z.to_nat (Roll.frame x - 1)) as [fr|] eqn:Hfr; [|reflexivity].
  change (map FrameData.frameNumber) with (fmap (M:=list) FrameData.frameNumber).
  rewrite list_fmap_insert. simpl. apply list_insert_id.
  rewrite list_lookup_fmap, Hfr. reflexivity.
Qed.

(** C10. The frame builder is total: for every player and every roll list
    it returns ten frames numbered 0 to 9 in order, and a roll whose frame
    number is outside 1-10 is ignored: the frames, the frame totals and the
    player's total are those of the roll list without such rolls. *)
Theorem builder_total_on_malformed_rolls :
  ∀ (players : list Player.t) (rolls : list Roll.t) (player : Player.t),
    map FrameData.frameNumber (PlayerWithFrames.frames (processPlayer rolls player))
      = [0; 1; 2; 3; 4; 5; 6; 7; 8; 9]
    ∧ processPlayer rolls player
      = processPlayer (List.filter frameInRange rolls) player
    ∧ processRollsIntoPlayers players rolls
      = processRollsIntoPlayers players (List.filter frameInRange rolls).
Proof.
  intros players rolls player.
  assert (Hp : ∀ p, processPlayer rolls p
                    = processPlayer (List.filter frameInRange rolls) p).
  { intros p. unfold processPlayer. fold (rollsOf rolls p).
    fold (rollsOf (List.filter frameInRange rolls) p).
    rewrite rollsOf_filter, <- groupRolls_in_range. reflexivity. }
  split; [|split].
  - rewrite processPlayer_frames, scoreFrames_frameNumber, groupRolls_frameNumber.
    reflexivity.
  - apply Hp.
  - unfold processRollsIntoPlayers. apply map_ext. exact Hp.
Qed.

(** ** Roll reconciliation *)

(** C3. A second delivery of the same insert is appended again: with the roll
    "r1" (frame 1, roll 1, 5 pins) already held, the insert of "r1" leaves two
    copies, frame 0 then holds 5 and 5 and scores 10, and the player's total
    goes from 5 to 10. An insert always makes the roll set one longer, whether
    or not its id is held. *)
Theorem duplicate_insert_changes_scoreboard :
  In fivePins [fivePins]
  ∧ onRollsChange [fivePins] (INSERT fivePins) = [fivePins; fivePins]
  ∧ map PlayerWithFrames.total (processRollsIntoPlayers [alice] [fivePins]) = [5]
  ∧ map PlayerWithFrames.total (reconcile [alice] [fivePins] (INSERT fivePins)).2 = [10]
  ∧ (reconcile [alice] [fivePins] (INSERT fivePins)).2
      ≠ processRollsIntoPlayers [alice] [fivePins]
  ∧ (∀ rollsData new,
       length (onRollsChange rollsData (INSERT new)) = S (length rollsData)).
Proof.
  split; [left; reflexivity|]. split; [reflexivity|].
  split; [reflexivity|]. split; [reflexivity|]. split.
  - intros H. apply (f_equal (map PlayerWithFrames.total)) in H.
    vm_compute in H. discriminate.
  - intros rollsData new. simpl. rewrite length_app. simpl. lia.
Qed.

(** The sibling branch merges by id: an update whose id is already held
    replaces the entry and keeps the number of rolls. *)
Lemma update_known_id_keeps_length rollsData updatedRoll :
  findIndex (λ roll, sameRollId roll updatedRoll) rollsData >= 0 →
  length (onRollsChange rollsData (UPDATE updatedRoll)) = length rollsData.
Proof.
  intros H. unfold onRollsChange.
  destruct (Z.geb_spec (findIndex (λ roll, sameRollId roll updatedRoll) rollsData) 0);
    [apply length_insert|lia].
Qed.

(** ** Legal pins: soundness and range *)

Lemma find_some_Forall {A} (P : A → Prop) (f : A → bool) l x :
  Forall P l → List.find f l = Some x → P x.
Proof.
  intros HP Hf. apply find_some in Hf as [Hin _].
  rewrite Forall_forall in HP. apply HP. apply list_elem_of_In. exact Hin.
Qed.

Lemma js_index_Forall {A} (P : A → Prop) (l : list A) i x :
  Forall P l → js_index l i = Some x → P x.
Proof.
  unfold js_index. intros HP Hi. destruct (i <? 0); [discriminate|].
  eapply Forall_lookup_1; eauto.
Qed.

Lemma pinsInRange_Forall players :
  pinsInRange players = true →
  Forall (λ p,
    Forall (λ fr,
      Forall (λ r, 0 <= FrameRoll.pins r <= 10) (FrameData.rolls fr))
      (PlayerWithFrames.frames p)) players.
Proof.
  unfold pinsInRange. rewrite forallb_forall, Forall_forall.
  intros H p Hp. apply list_elem_of_In, H in Hp.
  rewrite forallb_forall in Hp. rewrite Forall_forall.
  intros fr Hfr. apply list_elem_of_In, Hp in Hfr.
  rewrite forallb_forall in Hfr. rewrite Forall_forall.
  intros r Hr. apply list_elem_of_In, Hfr in Hr. lia.
Qed.

Lemma getMaxPins_range selectedCell players :
  pinsInRange players = true →
  0 <= getMaxPinsForSelection selectedCell players <= 10.
Proof.
  intros Hall%pinsInRange_Forall. unfold getMaxPinsForSelection.
  destruct selectedCell as [cell|]; [|lia].
  destruct (findPlayer players (SelectedCell.playerId cell)) as [player|] eqn:Hp; [|lia].
  pose proof (find_some_Forall _ _ _ _ Hall Hp) as Hfr. simpl in Hfr.
  assert (Hrolls : ∀ n r,
    findRoll (match js_index (PlayerWithFrames.frames player)
                      (SelectedCell.frameIndex cell) with
              | Some fr => FrameData.rolls fr | None => [] end) n = Some r →
    0 <= FrameRoll.pins r <= 10).
  { intros n r Hr.
    destruct (js_index _ _) as [fr|] eqn:Hi; [|discriminate].
    pose proof (js_index_Forall _ _ _ _ Hfr Hi) as Hrs. simpl in Hrs.
    exact (find_some_Forall _ _ _ _ Hrs Hr). }
  destruct (SelectedCell.rollNumber cell =? 0); [lia|].
  destruct ((SelectedCell.frameIndex cell <? 9) && (SelectedCell.rollNumber cell =? 1)).
  - destruct (js_index _ _) as [fr|] eqn:Hi; [|lia].
    destruct (length (FrameData.rolls fr) =? 0)%nat; [lia|].
    destruct (findRoll (FrameData.rolls fr) 0) as [r1|] eqn:Hr1; [|lia].
    specialize (Hrolls 0 r1 Hr1). lia.
  - destruct (SelectedCell.frameIndex cell =? 9); [|lia].
    destruct (SelectedCell.rollNumber cell =? 1).
    + destruct (findRoll _ 0) as [r1|] eqn:Hr1; [|lia].
      specialize (Hrolls 0 r1 Hr1). destruct (FrameRoll.pins r1 =? 10); lia.
    + destruct (SelectedCell.rollNumber cell =? 2); [|lia].
      destruct (findRoll _ 1) as [r2|] eqn:Hr2; [|lia].
      specialize (Hrolls 1 r2 Hr2).
      destruct (FrameRoll.pins r2 =? 10); [lia|].
      destruct (findRoll _ 0) as [r1|]; simpl;
        repeat match goal with |- context [if ?b then _ else _] => destruct b end;
        lia.
Qed.

(** C4. The legal-pins calculator is sound and total. In a frame 0-8 whose
    recorded first roll is below 10, the ceiling [m] for roll index 1 has
    [m + roll0 <= 10]; a second roll within the ceiling keeps the pair at or
    below 10 and reaches 10 exactly when it equals the ceiling. For every
    selection over rolls with pins in 0..10 the calculator returns a value
    in 0..10. *)
Theorem legal_pins_sound_and_total :
  (∀ (players : list PlayerWithFrames.t) (cell : SelectedCell.t)
     (player : PlayerWithFrames.t) (fr : FrameData.t) (roll0 : FrameRoll.t),
      findPlayer players (SelectedCell.playerId cell) = Some player →
      0 <= SelectedCell.frameIndex cell < 9 →
      SelectedCell.rollNumber cell = 1 →
      js_index (PlayerWithFrames.frames player) (SelectedCell.frameIndex cell)
        = Some fr →
      findRoll (FrameData.rolls fr) 0 = Some roll0 →
      FrameRoll.pins roll0 < 10 →
      let m := getMaxPinsForSelection (Some cell) players in
      m + FrameRoll.pins roll0 <= 10
      ∧ ∀ second : Z, second <= m →
          FrameRoll.pins roll0 + second <= 10
          ∧ (FrameRoll.pins roll0 + second = 10 ↔ second = m))
  ∧ (∀ (selectedCell : option SelectedCell.t) (players : list PlayerWithFrames.t),
      pinsInRange players = true →
      0 <= getMaxPinsForSelection selectedCell players <= 10).
Proof.
  split; [|intros; apply getMaxPins_range; assumption].
  intros players cell player fr roll0 Hp Hf Hr Hfr H0 Hlt m.
  assert (Hm : m = 10 - FrameRoll.pins roll0).
  { subst m. unfold getMaxPinsForSelection. rewrite Hp, Hr, Hfr, H0.
    simpl Z.eqb. cbv iota.
    replace (SelectedCell.frameIndex cell <? 9) with true
      by (symmetry; apply Z.ltb_lt; lia).
    simpl andb. cbv iota.
    assert (Hne : (length (FrameData.rolls fr) =? 0)%nat = false).
    { apply Nat.eqb_neq. unfold findRoll in H0.
      destruct (FrameData.rolls fr); [discriminate|simpl; lia]. }
    rewrite Hne. reflexivity. }
  rewrite Hm. split; [lia|]. intros second Hs. split; [lia|]. lia.
Qed.

Lemma legal_pins_sound_and_total_witness :
  getMaxPinsForSelection (Some (SelectedCell.mk "p1" 3 1)) aliceSix + 6 <= 10
  ∧ 0 <= getMaxPinsForSelection (Some (SelectedCell.mk "p1" 3 1)) aliceSix <= 10.
Proof.
  split.
  - refine (proj1 (proj1 legal_pins_sound_and_total aliceSix
                     (SelectedCell.mk "p1" 3 1) _ _ (FrameRoll.mk 0 6) _ _ _ _ _ _));
      first [reflexivity | simpl; lia].
  - apply (proj2 legal_pins_sound_and_total). reflexivity.
Defined.

(** C5. The third ball of the tenth frame: with [roll0] and [roll1] recorded
    in frame 9, pins in 0..10, the ceiling for roll index 2 is 10 when
    [roll1 = 10]; 10 when [roll0 <> 10] and [roll0 + roll1 = 10];
    [10 - roll1] when [roll0 = 10] and [roll1 < 10]; and 10 in every other
    case. *)
Theorem tenth_frame_third_ball_ceiling
    (players : list PlayerWithFrames.t) (cell : SelectedCell.t)
    (player : PlayerWithFrames.t) (fr : FrameData.t) (roll0 roll1 : FrameRoll.t) :
  findPlayer players (SelectedCell.playerId cell) = Some player →
  SelectedCell.frameIndex cell = 9 →
  SelectedCell.rollNumber cell = 2 →
  js_index (PlayerWithFrames.frames player) 9 = Some fr →
  findRoll (FrameData.rolls fr) 0 = Some roll0 →
  findRoll (FrameData.rolls fr) 1 = Some roll1 →
  0 <= FrameRoll.pins roll0 <= 10 →
  0 <= FrameRoll.pins roll1 <= 10 →
  let m := getMaxPinsForSelection (Some cell) players in
  let p0 := FrameRoll.pins roll0 in
  let p1 := FrameRoll.pins roll1 in
  (p1 = 10 → m = 10)
  ∧ (p0 ≠ 10 → p0 + p1 = 10 → m = 10)
  ∧ (p0 = 10 → p1 < 10 → m = 10 - p1)
  ∧ (p1 ≠ 10 → ¬ (p0 ≠ 10 ∧ p0 + p1 = 10) → ¬ (p0 = 10 ∧ p1 < 10) → m = 10).
Proof.
  intros Hp Hf Hr Hfr H0 H1 Hr0 Hr1 m p0 p1.
  assert (Hm : m = if p1 =? 10 then 10
                   else if (p0 + p1 =? 10) && negb (p0 =? 10) then 10
                   else if (p0 =? 10) && (p1 <? 10) then 10 - p1 else 10).
  { subst m. unfold getMaxPinsForSelection. rewrite Hp, Hf, Hr, Hfr, H0, H1.
    reflexivity. }
  rewrite Hm.
  destruct (Z.eqb_spec p1 10), (Z.eqb_spec (p0 + p1) 10), (Z.eqb_spec p0 10),
    (Z.ltb_spec p1 10); simpl; repeat split; intros; try lia; tauto.
Qed.

Lemma tenth_frame_third_ball_ceiling_witness :
  getMaxPinsForSelection (Some (SelectedCell.mk "p1" 9 2)) aliceStrikeFive = 10 - 5.
Proof.
  refine (proj1 (proj2 (proj2 (tenth_frame_third_ball_ceiling aliceStrikeFive
            (SelectedCell.mk "p1" 9 2) _ _ (FrameRoll.mk 0 10) (FrameRoll.mk 1 5)
            _ _ _ _ _ _ _ _))) _ _);
    first [reflexivity | simpl; lia].
Defined.

(** ** Turn sequencer: facts about [findIndex] and [selectPlayer] *)

Lemma findIndex_bounds {A} (f : A → bool) (l : list A) :
  findIndex f l = -1 ∨ 0 <= findIndex f l < Z.of_nat (length l).
Proof.
  induction l as [|x l IH]; simpl; [left; reflexivity|].
  destruct (f x); [right; lia|].
  destruct (Z.eqb_spec (findIndex f l) (-1)); [left; reflexivity|right; lia].
Qed.

(** With distinct ids, the player at position [k] is found at [k]. *)
Lemma findIndex_nodup players (k : nat) p :
  NoDup (map PlayerWithFrames.id players) →
  players !! k = Some p →
  findIndex (hasId (PlayerWithFrames.id p)) players = Z.of_nat k.
Proof.
  revert k. induction players as [|x l IH]; intros k Hnd Hk; [discriminate|].
  apply NoDup_cons in Hnd as [Hx Hnd]. simpl. unfold hasId at 1.
  destruct k as [|k]; simpl in Hk.
  - injection Hk as ->. rewrite String.eqb_refl. reflexivity.
  - destruct (String.eqb_spec (PlayerWithFrames.id x) (PlayerWithFrames.id p)) as [He|_].
    + exfalso. apply Hx. rewrite He. apply list_elem_of_fmap_2.
      eapply list_elem_of_lookup_2. exact Hk.
    + rewrite (IH k Hnd Hk).
      destruct (Z.eqb_spec (Z.of_nat k) (-1)); lia.
Qed.

Lemma findIndex_same_ids ps1 ps2 playerId :
  map PlayerWithFrames.id ps1 = map PlayerWithFrames.id ps2 →
  findIndex (hasId playerId) ps1 = findIndex (hasId playerId) ps2.
Proof.
  revert ps2. induction ps1 as [|x l IH]; intros [|y l2] H; try discriminate;
    [reflexivity|].
  simpl in H. injection H as Hxy Hl. simpl. rewrite (IH l2 Hl).
  unfold hasId at 1 4. rewrite Hxy. reflexivity.
Qed.

Lemma selectPlayer_same_ids ps1 ps2 i f r :
  map PlayerWithFrames.id ps1 = map PlayerWithFrames.id ps2 →
  selectPlayer ps1 i f r = selectPlayer ps2 i f r.
Proof.
  intros H. unfold selectPlayer, js_index. destruct (i <? 0); [reflexivity|].
  assert (Hi : PlayerWithFrames.id <$> (ps1 !! Z.to_nat i)
               = PlayerWithFrames.id <$> (ps2 !! Z.to_nat i)).
  { rewrite <- !list_lookup_fmap.
    change (map PlayerWithFrames.id ps1 !! Z.to_nat i
            = map PlayerWithFrames.id ps2 !! Z.to_nat i).
    rewrite H. reflexivity. }
  destruct (ps1 !! Z.to_nat i), (ps2 !! Z.to_nat i); simpl in Hi;
    try discriminate; [injection Hi as ->|]; reflexivity.
Qed.

Lemma selectPlayer_lookup players (k : nat) p f r :
  players !! k = Some p →
  selectPlayer players (Z.of_nat k) f r =
  Some (SelectedCell.mk (PlayerWithFrames.id p) f r).
Proof.
  intros Hk. unfold selectPlayer, js_index.
  destruct (Z.ltb_spec (Z.of_nat k) 0); [lia|].
  rewrite Nat2Z.id, Hk. reflexivity.
Qed.

Lemma same_ids_length ps1 ps2 :
  map PlayerWithFrames.id ps1 = map PlayerWithFrames.id ps2 →
  length ps1 = length ps2.
Proof. intros H. apply (f_equal length) in H. rewrite !length_map in H. exact H. Qed.

Lemma findIndex_found {A} (f : A → bool) (l : list A) :
  0 <= findIndex f l → findIndex f l < Z.of_nat (length l)
                       ∧ (findIndex f l =? -1) = false.
Proof.
  intros H. destruct (findIndex_bounds f l) as [Hb|Hb]; [lia|].
  split; [lia|]. apply Z.eqb_neq. lia.
Qed.

Lemma selectPlayer_fields players i f r next :
  selectPlayer players i f r = Some next →
  SelectedCell.frameIndex next = f ∧ SelectedCell.rollNumber next = r.
Proof.
  unfold selectPlayer. destruct (js_index players i); [|discriminate].
  intros H. injection H as <-. split; reflexivity.
Qed.

Lemma js_index_lt {A} (l : list A) i :
  0 <= i < Z.of_nat (length l) → ∃ x, js_index l i = Some x.
Proof.
  intros Hi. unfold js_index. destruct (Z.ltb_spec i 0); [lia|].
  apply lookup_lt_is_Some_2. lia.
Qed.

(** ** The transition and the local scoreboard *)

(** C8, as stated, fails: the same committed roll (player "p1", frame 9, roll
    index 1, 5 pins) with the same player list moves to roll index 2 when the
    local scoreboard holds a strike as first roll of frame 9, and ends the
    game when it holds no roll there. *)
Lemma transition_depends_on_cached_roll :
  map PlayerWithFrames.id aliceTenthStrike = map PlayerWithFrames.id aliceNoRolls
  ∧ advanceTurn aliceTenthStrike "p1" 9 1 5 (Some (SelectedCell.mk "p1" 9 1))
    = Some (SelectedCell.mk "p1" 9 2)
  ∧ advanceTurn aliceNoRolls "p1" 9 1 5 (Some (SelectedCell.mk "p1" 9 1))
    = None.
Proof. repeat split. Qed.

(** C8 (amended). With the same player list, the next selection is the same
    in any two states of the local scoreboard for every committed roll in
    frames 0-8 and for roll indexes other than 1 in the tenth frame; for roll
    index 1 of the tenth frame it is the same whenever the two states hold
    the same first roll of that player's tenth frame, which the transition
    reads from the local scoreboard. *)
Theorem transition_same_but_tenth_frame_second_ball
    (ps1 ps2 : list PlayerWithFrames.t) (playerId : string)
    (frameIndex rollNumber pins : Z) (sel : option SelectedCell.t) :
  map PlayerWithFrames.id ps1 = map PlayerWithFrames.id ps2 →
  frameIndex < 9 ∨ rollNumber ≠ 1
  ∨ cachedRoll0 ps1 (findIndex (hasId playerId) ps1)
    = cachedRoll0 ps2 (findIndex (hasId playerId) ps2) →
  advanceTurn ps1 playerId frameIndex rollNumber pins sel
  = advanceTurn ps2 playerId frameIndex rollNumber pins sel.
Proof.
  intros Hids Hcase. unfold advanceTurn.
  rewrite (findIndex_same_ids ps1 ps2 playerId Hids) in *.
  rewrite (same_ids_length ps1 ps2 Hids).
  assert (Hsel := λ i f r, selectPlayer_same_ids ps1 ps2 i f r Hids).
  destruct (findIndex (hasId playerId) ps2 =? -1); [reflexivity|].
  destruct (Z.ltb_spec frameIndex 9) as [Hlt|Hge].
  - rewrite !Hsel. reflexivity.
  - destruct (Z.eqb_spec rollNumber 0); [apply Hsel|].
    destruct (Z.eqb_spec rollNumber 1) as [H1|H1].
    + destruct Hcase as [Hc|[Hc|Hc]]; [lia|contradiction|].
      rewrite Hc.
      destruct ((cachedRoll0 ps2 (findIndex (hasId playerId) ps2) =? 10)
                || (cachedRoll0 ps2 (findIndex (hasId playerId) ps2) + pins =? 10));
        rewrite ?Hsel; reflexivity.
    + destruct (rollNumber =? 2); rewrite ?Hsel; reflexivity.
Qed.

Lemma transition_same_but_tenth_frame_second_ball_witness :
  advanceTurn aliceTenthStrike "p1" 3 1 5 None
  = advanceTurn aliceNoRolls "p1" 3 1 5 None.
Proof.
  apply transition_same_but_tenth_frame_second_ball;
    [reflexivity|left; lia].
Defined.

(** ** The sequencer in the tenth frame *)

(** One call of [advanceTurn] in the tenth frame, for a committed roll of a
    player of the list: roll index 2 of frame 9 ends the turn (next player at
    roll index 0 of frame 9, or no selection after the last player); from
    roll indexes 0-2 of frame 9 the next selection stays in frame 9 with a
    roll index in 0-2; from any frame 0-9 and roll index 0-2 the next frame
    index is at most 9; when the last player's turn in frame 9 ends the call
    leaves no selection; and without a selection a roll input changes
    nothing. What the page selects afterwards is settled below, with the
    auto-select effect. *)
Lemma advanceTurn_tenth_frame
    (players : list PlayerWithFrames.t) (playerId : string) (pins : Z)
    (sel : option SelectedCell.t) :
  let pIndex := findIndex (hasId playerId) players in
  let last := Z.of_nat (length players) - 1 in
  0 <= pIndex →
  (pIndex < last →
     ∃ nextPlayer, js_index players (pIndex + 1) = Some nextPlayer
       ∧ advanceTurn players playerId 9 2 pins sel
         = Some (SelectedCell.mk (PlayerWithFrames.id nextPlayer) 9 0))
  ∧ (∀ rollNumber next, 0 <= rollNumber <= 2 →
       advanceTurn players playerId 9 rollNumber pins sel = Some next →
       SelectedCell.frameIndex next = 9
       ∧ 0 <= SelectedCell.rollNumber next <= 2)
  ∧ (∀ frameIndex rollNumber next, 0 <= frameIndex <= 9 → 0 <= rollNumber <= 2 →
       advanceTurn players playerId frameIndex rollNumber pins sel = Some next →
       frameIndex <= SelectedCell.frameIndex next <= 9
       ∧ 0 <= SelectedCell.rollNumber next <= 2)
  ∧ (pIndex = last →
       advanceTurn players playerId 9 2 pins sel = None
       ∧ (cachedRoll0 players pIndex ≠ 10 →
          cachedRoll0 players pIndex + pins ≠ 10 →
          advanceTurn players playerId 9 1 pins sel = None))
  ∧ (∀ pins', handleRollInput players None pins' = None).
Proof.
  intros pIndex last Hfound.
  destruct (findIndex_found _ _ Hfound) as [Hlt Hne]. fold pIndex in Hlt, Hne.
  assert (Hrem : pIndex < last → Z.rem (pIndex + 1) (Z.of_nat (length players))
                                 = pIndex + 1)
    by (intros; apply Z.rem_small; subst last; lia).
  assert (Hwrap : pIndex = last → Z.rem (pIndex + 1) (Z.of_nat (length players)) = 0).
  { intros ->. subst last.
    replace (Z.of_nat (length players) - 1 + 1) with (Z.of_nat (length players)) by lia.
    apply Z.rem_same. lia. }
  split; [|split; [|split; [|split; [|reflexivity]]]].
  - intros Hnl. destruct (js_index_lt players (pIndex + 1)) as [np Hnp];
      [subst last; lia|].
    exists np. split; [exact Hnp|].
    unfold advanceTurn. fold pIndex. rewrite Hne. simpl.
    rewrite (Hrem Hnl). fold last.
    replace (pIndex =? last) with false by (symmetry; apply Z.eqb_neq; lia).
    rewrite andb_false_r. unfold selectPlayer. rewrite Hnp. reflexivity.
  - intros rollNumber next Hr. unfold advanceTurn. fold pIndex. rewrite Hne.
    change (9 <? 9) with false. cbv iota.
    destruct (Z.eqb_spec rollNumber 0); [|destruct (Z.eqb_spec rollNumber 1);
      [|destruct (Z.eqb_spec rollNumber 2); [|lia]]];
      repeat (cbv beta iota zeta;
              match goal with
              | |- context [if ?b then _ else _] => destruct b
              end);
      cbv beta iota zeta;
      try discriminate; intros H; apply selectPlayer_fields in H; lia.
  - intros frameIndex rollNumber next Hf Hr. unfold advanceTurn. fold pIndex.
    rewrite Hne.
    destruct (Z.ltb_spec frameIndex 9) as [Hf9|Hf9].
    + destruct ((rollNumber =? 0) && (pins =? 10) || (rollNumber + 1 >? 1)) eqn:Hend.
      * destruct ((_ =? 0) && (pIndex =? _));
          intros Hsel; apply selectPlayer_fields in Hsel; lia.
      * apply orb_false_iff in Hend as [_ Hend].
        rewrite Z.gtb_ltb in Hend. apply Z.ltb_ge in Hend.
        intros Hsel; apply selectPlayer_fields in Hsel; lia.
    + destruct (Z.eqb_spec rollNumber 0); [|destruct (Z.eqb_spec rollNumber 1);
        [|destruct (Z.eqb_spec rollNumber 2); [|lia]]];
        repeat (cbv beta iota zeta;
                match goal with
                | |- context [if ?b then _ else _] => destruct b
                end);
        cbv beta iota zeta;
        try discriminate; intros Hsel; apply selectPlayer_fields in Hsel; lia.
  - intros Hl. unfold advanceTurn. fold pIndex. rewrite Hne. simpl.
    rewrite (Hwrap Hl). fold last.
    replace (pIndex =? last) with true by (symmetry; apply Z.eqb_eq; lia).
    simpl. split; [reflexivity|]. intros H0 Hs.
    replace (cachedRoll0 players pIndex =? 10) with false
      by (symmetry; apply Z.eqb_neq; lia).
    replace (cachedRoll0 players pIndex + pins =? 10) with false
      by (symmetry; apply Z.eqb_neq; lia).
    reflexivity.
Qed.

(** ** Turn cycling in frames 0-8 *)

Section TurnCycle.
Variable players : list PlayerWithFrames.t.
Variable first : PlayerWithFrames.t.
Variable f : Z.
Hypothesis distinct_ids : NoDup (map PlayerWithFrames.id players).
Hypothesis first_player : players !! 0%nat = Some first.
Hypothesis standard_frame : 0 <= f <= 8.

Lemma found_at (k : nat) p :
  players !! k = Some p →
  findIndex (hasId (PlayerWithFrames.id p)) players = Z.of_nat k
  ∧ (Z.of_nat k =? -1) = false
  ∧ (k < length players)%nat.
Proof.
  intros Hk. split; [apply findIndex_nodup; assumption|].
  split; [apply Z.eqb_neq; lia|]. eapply lookup_lt_Some; eauto.
Qed.

(** First ball, not a strike: same player, roll index 1. *)
Lemma first_ball_step (k : nat) p pins sel :
  players !! k = Some p → pins ≠ 10 →
  advanceTurn players (PlayerWithFrames.id p) f 0 pins sel
  = Some (SelectedCell.mk (PlayerWithFrames.id p) f 1).
Proof.
  intros Hk Hp. destruct (found_at k p Hk) as (Hi & Hne & Hlt).
  unfold advanceTurn. rewrite Hi, Hne.
  replace (f <? 9) with true by (symmetry; apply Z.ltb_lt; lia).
  replace (pins =? 10) with false by (symmetry; apply Z.eqb_neq; lia).
  simpl. apply selectPlayer_lookup, Hk.
Qed.

(** Second ball: the turn passes to the next player, same frame. *)
Lemma second_ball_step (k : nat) p q pins sel :
  players !! k = Some p → players !! S k = Some q →
  advanceTurn players (PlayerWithFrames.id p) f 1 pins sel
  = Some (SelectedCell.mk (PlayerWithFrames.id q) f 0).
Proof.
  intros Hk Hq. destruct (found_at k p Hk) as (Hi & Hne & Hlt).
  apply lookup_lt_Some in Hq as Hlt'.
  unfold advanceTurn. rewrite Hi, Hne.
  replace (f <? 9) with true by (symmetry; apply Z.ltb_lt; lia).
  rewrite orb_true_r. cbv beta iota zeta.
  rewrite Z.rem_small by lia.
  replace (Z.of_nat k + 1 =? 0) with false by (symmetry; apply Z.eqb_neq; lia).
  simpl andb. cbv iota.
  replace (Z.of_nat k + 1) with (Z.of_nat (S k)) by lia.
  apply selectPlayer_lookup, Hq.
Qed.

(** Second ball of the last player: back to the first player, next frame. *)
Lemma second_ball_wrap (k : nat) p pins sel :
  players !! k = Some p → S k = length players →
  advanceTurn players (PlayerWithFrames.id p) f 1 pins sel
  = Some (SelectedCell.mk (PlayerWithFrames.id first) (f + 1) 0).
Proof.
  intros Hk Hlast. destruct (found_at k p Hk) as (Hi & Hne & Hlt).
  unfold advanceTurn. rewrite Hi, Hne.
  replace (f <? 9) with true by (symmetry; apply Z.ltb_lt; lia).
  rewrite orb_true_r. cbv beta iota zeta.
  replace (Z.of_nat k + 1) with (Z.of_nat (length players)) by lia.
  rewrite Z.rem_same by lia.
  replace (Z.of_nat k =? Z.of_nat (length players) - 1) with true
    by (symmetry; apply Z.eqb_eq; lia).
  simpl. apply (selectPlayer_lookup players 0 first), first_player.
Qed.

(** After the first [k] players have bowled both balls it is player [k]'s
    turn, or the first player's in the next frame once all have bowled. *)
Lemma after_full_turns (pinsList : list Z) (k : nat) :
  length pinsList = (2 * length players)%nat →
  (∀ j, pinsList !! (2 * j)%nat ≠ Some 10) →
  (k ≤ length players)%nat →
  commitRolls players (Some (SelectedCell.mk (PlayerWithFrames.id first) f 0))
    (take (2 * k) pinsList)
  = if (k =? length players)%nat
    then Some (SelectedCell.mk (PlayerWithFrames.id first) (f + 1) 0)
    else (λ p, SelectedCell.mk (PlayerWithFrames.id p) f 0) <$> players !! k.
Proof.
  intros Hlen Hns. induction k as [|k IH]; intros Hk.
  - apply lookup_lt_Some in first_player as Hpos.
    destruct (Nat.eqb_spec 0 (length players)); [lia|].
    rewrite first_player. reflexivity.
  - destruct (lookup_lt_is_Some_2 players k) as [p Hp]; [lia|].
    destruct (lookup_lt_is_Some_2 pinsList (2 * k)) as [a Ha]; [lia|].
    destruct (lookup_lt_is_Some_2 pinsList (S (2 * k))) as [b Hb]; [lia|].
    replace (2 * S k)%nat with (S (S (2 * k))) by lia.
    rewrite (take_S_r _ _ b Hb), (take_S_r _ _ a Ha).
    unfold commitRolls in *. rewrite !fold_left_app. rewrite IH by lia.
    destruct (Nat.eqb_spec k (length players)); [lia|].
    destruct (Nat.eqb_spec (S k) (length players)) as [Hl|Hl].
    + rewrite Hp. simpl.
      rewrite (first_ball_step k p a _ Hp) by (intros ->; exact (Hns k Ha)).
      apply (second_ball_wrap k p b _ Hp Hl).
    + destruct (lookup_lt_is_Some_2 players (S k)) as [q Hq]; [lia|].
      rewrite Hp, Hq. simpl.
      rewrite (first_ball_step k p a _ Hp) by (intros ->; exact (Hns k Ha)).
      apply (second_ball_step k p q b _ Hp Hq).
Qed.

End TurnCycle.

(** C7. Turn cycling. With N >= 1 players of distinct ids, in a frame f of
    0-8, starting at (player 0, f, roll 0) and committing 2N rolls none of
    which is a strike (no first ball of a turn is 10): before player k's
    first ball the selection is (player k, f, 0), after it (player k, f, 1),
    so each turn ends with the second ball and passes to the next player at
    roll index 0 in the same frame; the 2N rolls together lead to
    (player 0, f+1, 0); and no shorter run of them does. *)
Theorem full_frame_takes_two_rolls_per_player
    (players : list PlayerWithFrames.t) (first : PlayerWithFrames.t) (f : Z)
    (pinsList : list Z) :
  NoDup (map PlayerWithFrames.id players) →
  players !! 0%nat = Some first →
  0 <= f <= 8 →
  length pinsList = (2 * length players)%nat →
  (∀ j, pinsList !! (2 * j)%nat ≠ Some 10) →
  let start := Some (SelectedCell.mk (PlayerWithFrames.id first) f 0) in
  let wrapped := Some (SelectedCell.mk (PlayerWithFrames.id first) (f + 1) 0) in
  (∀ (k : nat) p, players !! k = Some p →
     commitRolls players start (take (2 * k) pinsList)
       = Some (SelectedCell.mk (PlayerWithFrames.id p) f 0)
     ∧ commitRolls players start (take (2 * k + 1) pinsList)
       = Some (SelectedCell.mk (PlayerWithFrames.id p) f 1))
  ∧ commitRolls players start pinsList = wrapped
  ∧ (∀ m, (m < 2 * length players)%nat →
       commitRolls players start (take m pinsList) ≠ wrapped).
Proof.
  intros Hnd Hfirst Hf Hlen Hns start wrapped.
  assert (Heven : ∀ (k : nat) p, players !! k = Some p →
            commitRolls players start (take (2 * k) pinsList)
            = Some (SelectedCell.mk (PlayerWithFrames.id p) f 0)).
  { intros k p Hp. apply lookup_lt_Some in Hp as Hlt. subst start.
    rewrite (after_full_turns players first f Hnd Hfirst Hf pinsList k Hlen Hns)
      by lia.
    destruct (Nat.eqb_spec k (length players)); [lia|]. rewrite Hp. reflexivity. }
  assert (Hodd : ∀ (k : nat) p, players !! k = Some p →
            commitRolls players start (take (2 * k + 1) pinsList)
            = Some (SelectedCell.mk (PlayerWithFrames.id p) f 1)).
  { intros k p Hp. apply lookup_lt_Some in Hp as Hlt.
    destruct (lookup_lt_is_Some_2 pinsList (2 * k)) as [a Ha]; [lia|].
    replace (2 * k + 1)%nat with (S (2 * k)) by lia.
    rewrite (take_S_r _ _ a Ha). unfold commitRolls. rewrite fold_left_app.
    fold (commitRolls players start (take (2 * k) pinsList)).
    rewrite (Heven k p Hp). simpl.
    apply (first_ball_step players f Hnd Hf k p a _ Hp).
    intros ->. exact (Hns k Ha). }
  split; [|split].
  - intros k p Hp. split; [apply Heven|apply Hodd]; exact Hp.
  - pose proof (after_full_turns players first f Hnd Hfirst Hf pinsList
                  (length players) Hlen Hns (le_n _)) as Hall.
    rewrite Nat.eqb_refl in Hall. rewrite <- Hlen, firstn_all in Hall. exact Hall.
  - intros m Hm Heq.
    destruct (Nat.Even_or_Odd m) as [[k ->]|[k ->]];
      (destruct (lookup_lt_is_Some_2 players k) as [p Hp]; [lia|]).
    + rewrite (Heven k p Hp) in Heq. subst wrapped.
      injection Heq as _ Hff. lia.
    + rewrite (Hodd k p Hp) in Heq. discriminate.
Qed.

Lemma full_frame_takes_two_rolls_per_player_witness :
  commitRolls aliceAndBob (Some (SelectedCell.mk "p1" 0 0)) [3; 4; 5; 5]
  = Some (SelectedCell.mk "p1" (0 + 1) 0).
Proof.
  refine (proj1 (proj2 (full_frame_takes_two_rolls_per_player aliceAndBob
            (PlayerWithFrames.mk alice _ _) 0 [3; 4; 5; 5] _ _ _ _ _))).
  - apply NoDup_ListNoDup. repeat constructor; simpl; intuition discriminate.
  - reflexivity.
  - lia.
  - reflexivity.
  - intros j H. apply list_elem_of_lookup_2, list_elem_of_In in H.
    simpl in H. intuition discriminate.
Defined.

(** ** Reset actions and the selection *)

(** C9, as stated, fails: when the scoped delete is refused, both reset
    actions leave the selection where it was and raise an alert. *)
Lemma failed_reset_keeps_selection :
  let page := mkPage (Some (SelectedCell.mk "p1" 3 1)) [] 0 in
  selectedCell (handleResetFrame offline "g" "p1" 3 page)
    = Some (SelectedCell.mk "p1" 3 1)
  ∧ selectedCell (handleResetPlayer offline "g" "p1" page)
    = Some (SelectedCell.mk "p1" 3 1)
  ∧ alerts (handleResetFrame offline "g" "p1" 3 page)
    = ["Failed to reset frame: Failed to reset frame: network error"%string].
Proof. repeat split. Qed.

(** C9 (amended). A reset-frame or reset-player action whose scoped delete
    succeeds clears the selection; when the delete fails with an error the
    selection is left as it was and the failure is reported in an alert. *)
Theorem reset_clears_selection_on_success
    (deleteRolls : string → string → option Z → option string)
    (gameId playerId : string) (frameNumber : Z) (page : Page) :
  (deleteRolls gameId playerId (Some (frameNumber + 1)) = None →
     selectedCell (handleResetFrame deleteRolls gameId playerId frameNumber page)
     = None)
  ∧ (deleteRolls gameId playerId None = None →
     selectedCell (handleResetPlayer deleteRolls gameId playerId page) = None)
  ∧ (∀ message, deleteRolls gameId playerId (Some (frameNumber + 1)) = Some message →
     selectedCell (handleResetFrame deleteRolls gameId playerId frameNumber page)
     = selectedCell page
     ∧ length (alerts (handleResetFrame deleteRolls gameId playerId frameNumber page))
       = S (length (alerts page)))
  ∧ (∀ message, deleteRolls gameId playerId None = Some message →
     selectedCell (handleResetPlayer deleteRolls gameId playerId page)
     = selectedCell page
     ∧ length (alerts (handleResetPlayer deleteRolls gameId playerId page))
       = S (length (alerts page))).
Proof.
  unfold handleResetFrame, handleResetPlayer, resetFrame, resetPlayer.
  repeat split; intros; 
    match goal with H : deleteRolls _ _ _ = _ |- _ => rewrite H end;
    simpl; rewrite ?length_app; simpl; try reflexivity; lia.
Qed.

Lemma reset_clears_selection_on_success_witness :
  selectedCell (handleResetFrame online "g" "p1" 3
                  (mkPage (Some (SelectedCell.mk "p1" 3 1)) [] 0)) = None.
Proof.
  apply (proj1 (reset_clears_selection_on_success online "g" "p1" 3
                  (mkPage (Some (SelectedCell.mk "p1" 3 1)) [] 0))).
  reflexivity.
Defined.

(** * Part IV: further properties of the code *)

(** ** The scoring pass, slot by slot *)

(** The frame written at slot [i] and the total it adds. *)
Lemma scoreFrame_insert st i fr :
  st.1 !! i = Some fr →
  let sorted := js_sort byRollNumber (FrameData.rolls fr) in
  let total :=
    if (length (FrameData.rolls fr) =? 0)%nat then 0
    else frameScore
           (<[i := FrameData.mk (FrameData.frameNumber fr) sorted
                     (FrameData.frameTotal fr) (FrameData.runningTotal fr)]> st.1)
           i sorted in
  scoreFrame st i =
  (<[i := FrameData.mk (FrameData.frameNumber fr) sorted total (st.2 + total)]> st.1,
   st.2 + total).
Proof.
  destruct st as [frames rt]. simpl. intros Hfr.
  unfold scoreFrame. rewrite Hfr, js_sort_length.
  destruct (length (FrameData.rolls fr) =? 0)%nat.
  - rewrite list_insert_insert_eq. f_equal; [|lia]. do 2 f_equal. lia.
  - rewrite list_insert_insert_eq. reflexivity.
Qed.

(** The state of the pass after the first [k] slots. *)
Lemma scored_prefix_invariant frames (k : nat) :
  (k ≤ length frames)%nat →
  let st := fold_left scoreFrame (seq 0 k) (frames, 0) in
  length st.1 = length frames
  ∧ st.2 = sumZ (map FrameData.frameTotal (take k st.1))
  ∧ (∀ j fr, (j < k)%nat → st.1 !! j = Some fr →
       FrameData.runningTotal fr
       = sumZ (map FrameData.frameTotal (take (S j) st.1))).
Proof.
  induction k as [|k IH]; intros Hk.
  - simpl. split; [reflexivity|]. split; [reflexivity|]. intros j fr Hj. lia.
  - cbv zeta in *. rewrite seq_S, fold_left_app. simpl.
    destruct IH as (Hlen & Hrt & Hrun); [lia|].
    set (st := fold_left scoreFrame (seq 0 k) (frames, 0)) in *.
    destruct (lookup_lt_is_Some_2 st.1 k) as [fr Hfr]; [lia|].
    rewrite (scoreFrame_insert st k fr Hfr). cbv zeta.
    set (total := if (length (FrameData.rolls fr) =? 0)%nat then 0 else _).
    set (new := FrameData.mk _ _ total _). simpl.
    assert (Htake : take (S k) (<[k:=new]> st.1) = take k st.1 ++ [new]).
    { rewrite (take_S_r _ _ new)
        by (apply list_lookup_insert_eq; lia).
      rewrite take_insert_ge by lia. reflexivity. }
    split; [rewrite length_insert; exact Hlen|]. split.
    + rewrite Htake, map_app, sumZ_app. simpl. rewrite <- Hrt.
      subst new. simpl. lia.
    + intros j fr' Hj Hfr'.
      destruct (decide (j = k)) as [->|Hne].
      * rewrite list_lookup_insert_eq in Hfr' by lia. injection Hfr' as <-.
        rewrite Htake, map_app, sumZ_app. simpl. rewrite <- Hrt.
        subst new. simpl. lia.
      * rewrite list_lookup_insert_ne in Hfr' by congruence.
        rewrite take_insert_ge by lia. apply Hrun; [lia|exact Hfr'].
Qed.

(** X1. Running totals accumulate the frame totals left to right: the running
    total of frame [i] is the sum of the frame totals of frames 0..i, and the
    player's total is the sum of the ten frame totals. *)
Theorem running_totals_accumulate (rolls : list Roll.t) (player : Player.t) :
  let out := processPlayer rolls player in
  (∀ (i : nat) fr, PlayerWithFrames.frames out !! i = Some fr →
     FrameData.runningTotal fr
     = sumZ (map FrameData.frameTotal (take (S i) (PlayerWithFrames.frames out))))
  ∧ PlayerWithFrames.total out
    = sumZ (map FrameData.frameTotal (PlayerWithFrames.frames out)).
Proof.
  intros out. subst out. rewrite processPlayer_frames, processPlayer_total.
  set (G := groupRolls (rollsOf rolls player)).
  destruct (scored_prefix_invariant G (length G) (le_n _)) as (Hlen & Hrt & Hrun).
  fold (scoreFrames G) in Hlen, Hrt, Hrun. split.
  - intros i fr Hfr. apply Hrun; [|exact Hfr].
    apply lookup_lt_Some in Hfr. lia.
  - rewrite Hrt. rewrite <- Hlen, firstn_all. reflexivity.
Qed.

Lemma running_totals_accumulate_witness :
  let out := processPlayer (strikeExample alice "a" "b" "c") alice in
  ∃ fr, PlayerWithFrames.frames out !! 1%nat = Some fr
        ∧ FrameData.runningTotal fr
          = sumZ (map FrameData.frameTotal (take 2 (PlayerWithFrames.frames out))).
Proof.
  eexists. split; [reflexivity|].
  apply (proj1 (running_totals_accumulate (strikeExample alice "a" "b" "c") alice)).
  reflexivity.
Defined.

(** ** Spare and open frames *)

(** The spare lookahead over the frames [frs] found at the indices [idxs]. *)
Lemma getNextRoll_loop_spec frames idxs frs :
  Forall2 (λ i fr, frames !! i = Some fr) idxs frs →
  getNextRoll_loop frames idxs = nth 0 (concat (map sortedPins frs)) 0.
Proof.
  induction 1 as [|i fr idxs frs Hi HF IH]; [reflexivity|].
  simpl. rewrite Hi. unfold sortedPins at 1.
  destruct (FrameData.rolls fr) as [|x l] eqn:Hr; [exact IH|].
  assert (Hlen := js_sort_length byRollNumber (x :: l)).
  destruct (js_sort byRollNumber (x :: l)) as [|y l'] eqn:Hs; [discriminate|].
  simpl. destruct (Z.eqb_spec (FrameRoll.pins y) 0); congruence.
Qed.

Lemma nth_pinsOrZero (l : list FrameRoll.t) (k : nat) :
  pinsOrZero (l !! k) = nth k (map FrameRoll.pins l) 0.
Proof.
  revert k. induction l as [|x l IH]; intros [|k]; simpl; try reflexivity.
  - destruct (Z.eqb_spec (FrameRoll.pins x) 0); congruence.
  - apply IH.
Qed.

(** How a frame 0-8 of the result was scored, read off the result. *)
Lemma standard_frame_lookup rolls player (f : nat) fr :
  (f < 9)%nat →
  PlayerWithFrames.frames (processPlayer rolls player) !! f = Some fr →
  let frames := PlayerWithFrames.frames (processPlayer rolls player) in
  let ps := framePins fr in
  FrameData.frameTotal fr =
    if (length ps =? 0)%nat then 0
    else if nth 0 ps 0 =? 10 then 10 + nextTwoRollsSum frames f
    else if nth 0 ps 0 + nth 1 ps 0 =? 10 then 10 + nextRollPins frames f
    else nth 0 ps 0 + nth 1 ps 0.
Proof.
  intros Hf Hfr frames ps. subst frames ps. unfold framePins.
  rewrite processPlayer_frames in *.
  set (G := groupRolls (rollsOf rolls player)) in *.
  assert (HG : length G = 10%nat) by apply groupRolls_length.
  destruct (scoreFrames_lookup G f) as (pre & rt & Hlen & Hsame & Hat); [lia|].
  destruct (lookup_lt_is_Some_2 G f) as [g Hg]; [lia|].
  destruct (scoreFrame_lookup (pre, rt) f g) as (fr' & Hfr' & _ & Hr & Ht & _).
  { simpl. rewrite Hsame by lia. exact Hg. }
  rewrite Hat, Hfr' in Hfr. injection Hfr as ->.
  rewrite Ht, Hr, length_map, js_sort_length.
  destruct (length (FrameData.rolls g) =? 0)%nat; [reflexivity|].
  unfold frameScore.
  replace (f =? 9)%nat with false by (symmetry; apply Nat.eqb_neq; lia).
  rewrite !nth_pinsOrZero.
  assert (HF : Forall2 (λ i fr, <[f:=FrameData.mk (FrameData.frameNumber g)
                 (js_sort byRollNumber (FrameData.rolls g))
                 (FrameData.frameTotal g) (FrameData.runningTotal g)]> pre !! i = Some fr)
                 (followingIndices (<[f:=FrameData.mk (FrameData.frameNumber g)
                    (js_sort byRollNumber (FrameData.rolls g))
                    (FrameData.frameTotal g) (FrameData.runningTotal g)]> pre) f)
                 (drop (S f) G)).
  { apply following_frames; [rewrite length_insert; lia|exact HG|].
    intros j Hj. rewrite list_lookup_insert_ne by lia. apply Hsame. lia. }
  change ((pre, rt).1) with pre.
  unfold getNextTwoRolls, getNextRoll, nextTwoRollsSum, nextRollPins.
  rewrite laterPins_scored.
  rewrite (getNextRoll_loop_spec _ _ _ HF).
  assert (H2 := getNextTwoRolls_loop_spec _ _ _ 0 0%nat HF ltac:(lia)).
  change (Z.of_nat 0) with 0 in H2. rewrite H2.
  reflexivity.
Qed.



(** ** More on the stable sort *)

Section SortMore.
Context {A : Type} (cmp : A → A → Z).

Lemma sort_insert_perm x l : sort_insert cmp x l ≡ₚ x :: l.
Proof.
  induction l as [|y l IH]; simpl; [reflexivity|].
  destruct (cmp x y <=? 0); [reflexivity|].
  rewrite IH. apply Permutation_swap.
Qed.

Lemma js_sort_perm l : js_sort cmp l ≡ₚ l.
Proof.
  induction l as [|x l IH]; [reflexivity|].
  change (js_sort cmp (x :: l)) with (sort_insert cmp x (js_sort cmp l)).
  rewrite sort_insert_perm, IH. reflexivity.
Qed.

Lemma ordered_head_below x l : ordered cmp (x :: l) → belowHead cmp x l.
Proof.
  intros [Hx _]. destruct l as [|y l]; [exact I|].
  simpl. apply Forall_cons in Hx as [Hy _]. exact Hy.
Qed.

(** Sorting a list that is already in order changes nothing. *)
Lemma js_sort_ordered_id l : ordered cmp l → js_sort cmp l = l.
Proof.
  induction l as [|x l IH]; [reflexivity|]. intros Ho.
  change (js_sort cmp (x :: l)) with (sort_insert cmp x (js_sort cmp l)).
  rewrite IH by apply Ho. apply sort_insert_below, ordered_head_below, Ho.
Qed.

(** Two comparators that agree in sign on the elements of a list sort it
    alike. *)
Lemma sort_insert_agree (cmp' : A → A → Z) x l :
  (∀ y, y ∈ l → (cmp x y <=? 0) = (cmp' x y <=? 0)) →
  sort_insert cmp x l = sort_insert cmp' x l.
Proof.
  induction l as [|y l IH]; intros H; simpl; [reflexivity|].
  rewrite (H y) by left. destruct (cmp' x y <=? 0); [reflexivity|].
  f_equal. apply IH. intros z Hz. apply H. right. exact Hz.
Qed.

Lemma js_sort_agree (cmp' : A → A → Z) l :
  (∀ x y, x ∈ l → y ∈ l → (cmp x y <=? 0) = (cmp' x y <=? 0)) →
  js_sort cmp l = js_sort cmp' l.
Proof.
  induction l as [|x l IH]; intros H; [reflexivity|].
  change (js_sort cmp (x :: l)) with (sort_insert cmp x (js_sort cmp l)).
  change (js_sort cmp' (x :: l)) with (sort_insert cmp' x (js_sort cmp' l)).
  rewrite <- IH by (intros y z Hy Hz; apply H; right; assumption).
  apply sort_insert_agree. intros y Hy. apply H; [left|right].
  rewrite <- (js_sort_perm l). exact Hy.
Qed.

(** Two lists in order with the same elements are the same list, when no two
    different elements tie. *)
Lemma ordered_perm_unique l1 l2 :
  (∀ x y, x ∈ l1 → y ∈ l1 → cmp x y <= 0 → cmp y x <= 0 → x = y) →
  ordered cmp l1 → ordered cmp l2 → l1 ≡ₚ l2 → l1 = l2.
Proof.
  revert l2. induction l1 as [|x l1 IH]; intros l2 Hanti Ho1 Ho2 Hp.
  - apply Permutation_nil_l in Hp. congruence.
  - destruct l2 as [|y l2]; [apply Permutation_nil_r in Hp; discriminate|].
    assert (Hxy : x = y).
    { assert (Hx : x ∈ y :: l2) by (rewrite <- Hp; left).
      assert (Hy : y ∈ x :: l1) by (rewrite Hp; left).
      apply elem_of_cons in Hx as [Hx|Hx]; [exact Hx|].
      apply elem_of_cons in Hy as [Hy|Hy]; [congruence|].
      destruct Ho1 as [H1 _], Ho2 as [H2 _].
      rewrite Forall_forall in H1, H2.
      apply Hanti; [left|right; exact Hy|apply H1, Hy|apply H2, Hx]. }
    subst y. f_equal. apply IH.
    + intros a b Ha Hb. apply Hanti; right; assumption.
    + apply Ho1.
    + apply Ho2.
    + eapply Permutation_cons_inv. exact Hp.
Qed.
End SortMore.

(** The sort commutes with a map that preserves the comparison. *)
Lemma js_sort_map {A B} (cmpA : A → A → Z) (cmpB : B → B → Z) (g : A → B) l :
  (∀ x y, cmpB (g x) (g y) = cmpA x y) →
  js_sort cmpB (map g l) = map g (js_sort cmpA l).
Proof.
  intros Hg. induction l as [|x l IH]; [reflexivity|].
  change (js_sort cmpA (x :: l)) with (sort_insert cmpA x (js_sort cmpA l)).
  change (js_sort cmpB (map g (x :: l)))
    with (sort_insert cmpB (g x) (js_sort cmpB (map g l))).
  rewrite IH. generalize (js_sort cmpA l) as m.
  induction m as [|y m IHm]; simpl; [reflexivity|].
  rewrite Hg. destruct (cmpA x y <=? 0); simpl; [reflexivity|].
  f_equal. exact IHm.
Qed.

Lemma byRoll_trans x y z : byRoll x y <= 0 → byRoll y z <= 0 → byRoll x z <= 0.
Proof. unfold byRoll. lia. Qed.

Lemma byRoll_total x y : byRoll x y <= 0 ∨ byRoll y x <= 0.
Proof. unfold byRoll. lia. Qed.

(** ** What each frame holds *)

Lemma emptyFrames_lookup (i : nat) :
  (i < 10)%nat → emptyFrames !! i = Some (FrameData.mk (Z.of_nat i) [] 0 0).
Proof.
  intros Hi. unfold emptyFrames.
  change (map ?f ?l) with (f <$> l).
  rewrite list_lookup_fmap, lookup_seq_lt by lia. reflexivity.
Qed.

(** Pushing the rolls of [L] extends slot [i] by the rolls of frame [i]. *)
Lemma pushRoll_fold_lookup L F (i : nat) fr :
  F !! i = Some fr →
  fold_left pushRoll L F !! i
  = Some (FrameData.mk (FrameData.frameNumber fr)
            (FrameData.rolls fr ++ map toFrameRoll (List.filter (inFrame i) L))
            (FrameData.frameTotal fr) (FrameData.runningTotal fr)).
Proof.
  revert F fr. induction L as [|x L IH]; intros F fr HF.
  - simpl. rewrite app_nil_r, HF. destruct fr; reflexivity.
  - simpl fold_left. simpl List.filter. unfold inFrame at 1.
    destruct (Z.eqb_spec (Roll.frame x) (Z.of_nat i + 1)) as [He|Hne].
    + erewrite IH.
      2:{ unfold pushRoll, js_index.
          replace (Roll.frame x - 1) with (Z.of_nat i) by lia.
          destruct (Z.ltb_spec (Z.of_nat i) 0); [lia|].
          rewrite Nat2Z.id, HF. apply list_lookup_insert_eq.
          eapply lookup_lt_Some; eauto. }
      simpl. rewrite <- app_assoc. reflexivity.
    + apply IH. unfold pushRoll, js_index.
      destruct (Z.ltb_spec (Roll.frame x - 1) 0); [exact HF|].
      destruct (F !! Z.to_nat (Roll.frame x - 1)); [|exact HF].
      rewrite list_lookup_insert_ne by lia. exact HF.
Qed.

Lemma same_frame_sort (i : nat) l :
  js_sort byFrameThenRoll (List.filter (inFrame i) l)
  = js_sort byRoll (List.filter (inFrame i) l).
Proof.
  apply js_sort_agree. intros x y Hx Hy.
  apply list_elem_of_In, filter_In in Hx as [_ Hx].
  apply list_elem_of_In, filter_In in Hy as [_ Hy].
  unfold inFrame in Hx, Hy. apply Z.eqb_eq in Hx, Hy.
  unfold byFrameThenRoll, byRoll.
  replace (Roll.frame x =? Roll.frame y) with true
    by (symmetry; apply Z.eqb_eq; lia).
  reflexivity.
Qed.

Lemma groupRolls_lookup playerRolls (i : nat) :
  (i < 10)%nat →
  groupRolls playerRolls !! i
  = Some (FrameData.mk (Z.of_nat i)
            (map toFrameRoll (js_sort byRoll (List.filter (inFrame i) playerRolls)))
            0 0).
Proof.
  intros Hi. unfold groupRolls.
  rewrite (pushRoll_fold_lookup _ _ i _ (emptyFrames_lookup i Hi)). simpl.
  rewrite (filter_js_sort byFrameThenRoll (inFrame i)
             byFrameThenRoll_trans byFrameThenRoll_total).
  rewrite same_frame_sort. reflexivity.
Qed.

Lemma frame_rolls_lookup rolls player (i : nat) fr :
  PlayerWithFrames.frames (processPlayer rolls player) !! i = Some fr →
  FrameData.frameNumber fr = Z.of_nat i
  ∧ FrameData.rolls fr
    = map toFrameRoll
        (js_sort byRoll (List.filter (inFrame i) (rollsOf rolls player))).
Proof.
  intros Hfr. rewrite processPlayer_frames in Hfr.
  set (G := groupRolls (rollsOf rolls player)) in *.
  assert (HG : length G = 10%nat) by apply groupRolls_length.
  assert (Hi : (i < 10)%nat).
  { apply lookup_lt_Some in Hfr. rewrite scoreFrames_length in Hfr. lia. }
  destruct (scoreFrames_lookup G i) as (pre & rt & Hlen & Hsame & Hat); [lia|].
  pose proof (groupRolls_lookup (rollsOf rolls player) i Hi) as Hg. fold G in Hg.
  destruct (scoreFrame_lookup (pre, rt) i _ ltac:(simpl; rewrite Hsame by lia; exact Hg))
    as (fr' & Hfr' & Hn & Hr & _).
  rewrite Hat, Hfr' in Hfr. injection Hfr as ->.
  split; [exact Hn|]. rewrite Hr. simpl.
  rewrite (js_sort_map byRoll byRollNumber toFrameRoll)
    by (intros x y; unfold byRollNumber, byRoll; simpl; lia).
  f_equal. apply js_sort_ordered_id.
  apply (js_sort_ordered byRoll byRoll_trans byRoll_total).
Qed.

(** X3. What each frame holds: frame [i] of a player's result is numbered [i]
    and holds exactly that player's roll records with frame number [i + 1],
    as [(roll - 1, pins)], in roll-number order, records with the same roll
    number in their order of arrival; rolls of other players and of other
    frames never enter it. *)
Theorem frame_holds_its_rolls (rolls : list Roll.t) (player : Player.t)
    (i : nat) (fr : FrameData.t) :
  PlayerWithFrames.frames (processPlayer rolls player) !! i = Some fr →
  FrameData.frameNumber fr = Z.of_nat i
  ∧ FrameData.rolls fr
    = map toFrameRoll
        (js_sort byRoll (List.filter (inFrame i) (rollsOf rolls player)))
  ∧ FrameData.rolls fr
    ≡ₚ map toFrameRoll (List.filter (inFrame i) (rollsOf rolls player)).
Proof.
  intros Hfr. destruct (frame_rolls_lookup rolls player i fr Hfr) as [Hn Hr].
  split; [exact Hn|]. split; [exact Hr|].
  rewrite Hr. apply Permutation_map, js_sort_perm.
Qed.

Lemma frame_holds_its_rolls_witness :
  ∃ fr, PlayerWithFrames.frames (processPlayer spareExample alice) !! 0%nat = Some fr
        ∧ FrameData.rolls fr
          = map toFrameRoll
              (js_sort byRoll (List.filter (inFrame 0) (rollsOf spareExample alice))).
Proof.
  eexists. split; [reflexivity|].
  apply (proj1 (proj2 (frame_holds_its_rolls spareExample alice 0 _ eq_refl))).
Defined.

(** ** Delivery order *)

Lemma filter_perm {A} (keep : A → bool) (l1 l2 : list A) :
  l1 ≡ₚ l2 → List.filter keep l1 ≡ₚ List.filter keep l2.
Proof.
  induction 1 as [|x l1 l2 Hp IH|x y l|l1 l2 l3 H1 IH1 H2 IH2]; simpl.
  - reflexivity.
  - destruct (keep x); [apply Permutation_skip|]; exact IH.
  - destruct (keep x), (keep y); try reflexivity. apply Permutation_swap.
  - etransitivity; eassumption.
Qed.

Lemma groupRolls_perm (l1 l2 : list Roll.t) :
  l1 ≡ₚ l2 →
  (∀ x y, x ∈ l1 → y ∈ l1 →
     Roll.frame x = Roll.frame y → Roll.roll x = Roll.roll y → x = y) →
  groupRolls l1 = groupRolls l2.
Proof.
  intros Hp Hslot. unfold groupRolls. f_equal.
  apply (ordered_perm_unique byFrameThenRoll).
  - intros x y Hx Hy Hxy Hyx.
    rewrite js_sort_perm in Hx, Hy. apply Hslot; try assumption;
      unfold byFrameThenRoll in Hxy, Hyx;
      destruct (Z.eqb_spec (Roll.frame x) (Roll.frame y)),
               (Z.eqb_spec (Roll.frame y) (Roll.frame x));
      simpl in Hxy, Hyx; lia.
  - apply js_sort_ordered; [apply byFrameThenRoll_trans|apply byFrameThenRoll_total].
  - apply js_sort_ordered; [apply byFrameThenRoll_trans|apply byFrameThenRoll_total].
  - rewrite !js_sort_perm. exact Hp.
Qed.

Lemma scoreboard_perm (players : list Player.t) (rolls rolls' : list Roll.t) :
  rolls ≡ₚ rolls' → slotsDistinct rolls →
  processRollsIntoPlayers players rolls = processRollsIntoPlayers players rolls'.
Proof.
  intros Hp Hslot. unfold processRollsIntoPlayers.
  apply map_ext. intros p. unfold processPlayer.
  fold (rollsOf rolls p). fold (rollsOf rolls' p).
  rewrite (groupRolls_perm (rollsOf rolls p) (rollsOf rolls' p)); [reflexivity| |].
  - apply filter_perm, Hp.
  - intros x y Hx Hy Hf Hr.
    apply list_elem_of_In, filter_In in Hx as [Hx Hpx].
    apply list_elem_of_In, filter_In in Hy as [Hy Hpy].
    apply String.eqb_eq in Hpx, Hpy.
    apply Hslot; try (apply list_elem_of_In; assumption); congruence.
Qed.

(** X4. Delivery order does not matter when no two different roll records
    share a slot (player, frame, roll): the scoreboard built from a roll list
    and from any reordering of it is the same. With two different records in
    one slot the order does matter: with a 10 and a 0 both recorded as frame
    1, roll 1 and then 3 and 4 in frame 2, the player's total is 24 when the
    10 arrives first (a strike) and 20 when the 0 arrives first (a spare). *)
Theorem delivery_order_irrelevant :
  (∀ (players : list Player.t) (rolls rolls' : list Roll.t),
     rolls ≡ₚ rolls' →
     (∀ x y, x ∈ rolls → y ∈ rolls →
        Roll.player_id x = Roll.player_id y →
        Roll.frame x = Roll.frame y → Roll.roll x = Roll.roll y → x = y) →
     processRollsIntoPlayers players rolls = processRollsIntoPlayers players rolls')
  ∧ (slotTen :: slotZero :: secondFrame ≡ₚ slotZero :: slotTen :: secondFrame
     ∧ map PlayerWithFrames.total
         (processRollsIntoPlayers [alice] (slotTen :: slotZero :: secondFrame)) = [24]
     ∧ map PlayerWithFrames.total
         (processRollsIntoPlayers [alice] (slotZero :: slotTen :: secondFrame)) = [20]).
Proof.
  split.
  - intros players rolls rolls' Hp Hslot.
    apply scoreboard_perm; assumption.
  - split; [apply Permutation_swap|]. split; reflexivity.
Qed.

Lemma delivery_order_irrelevant_witness :
  processRollsIntoPlayers [alice] spareExample
  = processRollsIntoPlayers [alice] (rev spareExample).
Proof.
  apply (proj1 delivery_order_irrelevant).
  - apply Permutation_rev.
  - intros x y Hx Hy _ Hf Hr.
    apply list_elem_of_In in Hx, Hy. simpl in Hx, Hy.
    destruct Hx as [<-|[<-|[<-|[]]]], Hy as [<-|[<-|[<-|[]]]];
      first [reflexivity | discriminate].
Defined.

(** ** Score bounds *)

Lemma rollPinsInRange_Forall rolls :
  rollPinsInRange rolls = true →
  Forall (λ roll, 0 <= Roll.pins roll <= 10) rolls.
Proof.
  unfold rollPinsInRange. rewrite forallb_forall, Forall_forall.
  intros H x Hx. apply list_elem_of_In, H in Hx. lia.
Qed.

Lemma framePins_range rolls player (i : nat) fr :
  rollPinsInRange rolls = true →
  PlayerWithFrames.frames (processPlayer rolls player) !! i = Some fr →
  Forall (λ p, 0 <= p <= 10) (framePins fr).
Proof.
  intros Hall%rollPinsInRange_Forall Hfr.
  destruct (frame_rolls_lookup rolls player i fr Hfr) as [_ Hr].
  unfold framePins. rewrite Hr, map_map. simpl.
  apply Forall_map.
  rewrite Forall_forall in Hall. apply Forall_forall. intros x Hx.
  rewrite js_sort_perm in Hx.
  apply list_elem_of_In, filter_In in Hx as [Hx _].
  unfold rollsOf in Hx. apply filter_In in Hx as [Hx _].
  apply Hall, list_elem_of_In, Hx.
Qed.

Lemma nth_range (ps : list Z) (k : nat) :
  Forall (λ p, 0 <= p <= 10) ps → 0 <= nth k ps 0 <= 10.
Proof.
  intros H. revert k. induction H as [|p ps Hp H IH]; intros [|k]; simpl; try lia.
  apply IH.
Qed.

Lemma sumZ_take_range (ps : list Z) (n : nat) :
  Forall (λ p, 0 <= p <= 10) ps → 0 <= sumZ (take n ps) <= 10 * Z.of_nat n.
Proof.
  intros H. revert n. induction H as [|p ps Hp H IH]; intros [|n]; simpl; try lia.
  specialize (IH n). lia.
Qed.

Lemma laterPins_range rolls player (f : nat) :
  rollPinsInRange rolls = true →
  Forall (λ p, 0 <= p <= 10)
    (laterPins (PlayerWithFrames.frames (processPlayer rolls player)) f).
Proof.
  intros Hall. unfold laterPins. apply Forall_concat, Forall_map.
  apply Forall_forall. intros fr Hfr.
  apply list_elem_of_lookup in Hfr as [i Hi].
  rewrite lookup_drop in Hi.
  apply (framePins_range rolls player (S f + i) fr Hall Hi).
Qed.

Lemma frameTotal_range rolls player (i : nat) fr :
  rollPinsInRange rolls = true →
  PlayerWithFrames.frames (processPlayer rolls player) !! i = Some fr →
  0 <= FrameData.frameTotal fr <= 30.
Proof.
  intros Hall Hfr.
  pose proof (framePins_range rolls player i fr Hall Hfr) as Hps.
  pose proof (nth_range _ 0 Hps) as H0. pose proof (nth_range _ 1 Hps) as H1.
  assert (Hi : (i < 10)%nat).
  { apply lookup_lt_Some in Hfr.
    rewrite processPlayer_frames, scoreFrames_length, groupRolls_length in Hfr. lia. }
  destruct (decide (i = 9%nat)) as [->|Hne].
  - rewrite (tenth_frame_lookup rolls player fr Hfr). fold (framePins fr).
    pose proof (sumZ_take_range _ 3 Hps). pose proof (sumZ_take_range _ 2 Hps).
    destruct (bonusEarned (framePins fr)); lia.
  - rewrite (standard_frame_lookup rolls player i fr ltac:(lia) Hfr). cbv zeta.
    pose proof (laterPins_range rolls player i Hall) as Hl.
    pose proof (sumZ_take_range _ 2 Hl) as H2. pose proof (nth_range _ 0 Hl) as Hn.
    unfold nextTwoRollsSum, nextRollPins.
    repeat match goal with |- context [if ?b then _ else _] => destruct b end; lia.
Qed.

Lemma sumZ_bounded (l : list Z) (hi : Z) :
  Forall (λ t, 0 <= t <= hi) l → 0 <= sumZ l <= hi * Z.of_nat (length l).
Proof.
  induction 1 as [|t l Ht H IH]; simpl length; simpl sumZ; [lia|]. nia.
Qed.

(** X5. Score bounds: when every roll record has pins in 0..10, whatever
    its frame and roll numbers, every frame total is between 0 and 30, every
    running total between 0 and 300, running totals never decrease from one
    frame to the next, and the player's total is between 0 and 300. *)
Theorem scores_within_bounds (rolls : list Roll.t) (player : Player.t) :
  rollPinsInRange rolls = true →
  let out := processPlayer rolls player in
  (∀ (i : nat) fr, PlayerWithFrames.frames out !! i = Some fr →
     0 <= FrameData.frameTotal fr <= 30
     ∧ 0 <= FrameData.runningTotal fr <= 300)
  ∧ (∀ (i : nat) fr fr', PlayerWithFrames.frames out !! i = Some fr →
       PlayerWithFrames.frames out !! S i = Some fr' →
       FrameData.runningTotal fr <= FrameData.runningTotal fr')
  ∧ 0 <= PlayerWithFrames.total out <= 300.
Proof.
  intros Hall out. subst out.
  set (frames := PlayerWithFrames.frames (processPlayer rolls player)).
  assert (Hlen : length frames = 10%nat).
  { subst frames. rewrite processPlayer_frames, scoreFrames_length.
    apply groupRolls_length. }
  assert (Htot : Forall (λ t, 0 <= t <= 30) (map FrameData.frameTotal frames)).
  { apply Forall_map, Forall_forall. intros fr Hfr.
    apply list_elem_of_lookup in Hfr as [i Hi].
    apply (frameTotal_range rolls player i fr Hall Hi). }
  assert (Hrun : ∀ (i : nat) fr, frames !! i = Some fr →
            FrameData.runningTotal fr
            = sumZ (map FrameData.frameTotal (take (S i) frames))).
  { intros i fr Hfr. subst frames. rewrite processPlayer_frames in *.
    set (G := groupRolls (rollsOf rolls player)) in *.
    destruct (scored_prefix_invariant G (length G) (le_n _)) as (_ & _ & Hr).
    fold (scoreFrames G) in Hr. apply Hr; [|exact Hfr].
    apply lookup_lt_Some in Hfr. rewrite scoreFrames_length in Hfr. lia. }
  split; [|split].
  - intros i fr Hfr. split; [apply (frameTotal_range rolls player i fr Hall Hfr)|].
    rewrite (Hrun i fr Hfr). rewrite <- firstn_map.
    pose proof (sumZ_bounded (take (S i) (map FrameData.frameTotal frames)) 30
                  (Forall_take _ _ _ Htot)) as Hb.
    rewrite length_take, length_map, Hlen in Hb. lia.
  - intros i fr fr' Hfr Hfr'. rewrite (Hrun i fr Hfr), (Hrun (S i) fr' Hfr').
    rewrite (take_S_r _ _ fr' Hfr'), map_app, sumZ_app. simpl.
    pose proof (frameTotal_range rolls player (S i) fr' Hall Hfr'). lia.
  - assert (Ht : PlayerWithFrames.total (processPlayer rolls player)
                 = sumZ (map FrameData.frameTotal frames)).
    { subst frames. rewrite processPlayer_frames, processPlayer_total.
      set (G := groupRolls (rollsOf rolls player)).
      destruct (scored_prefix_invariant G (length G) (le_n _)) as (Hl & Hrt & _).
      fold (scoreFrames G) in Hl, Hrt. rewrite Hrt, <- Hl, firstn_all. reflexivity. }
    rewrite Ht. pose proof (sumZ_bounded _ 30 Htot) as Hb.
    rewrite length_map, Hlen in Hb. lia.
Qed.

Lemma scores_within_bounds_witness :
  0 <= PlayerWithFrames.total (processPlayer tenthTurkey alice) <= 300.
Proof.
  apply (scores_within_bounds tenthTurkey alice). reflexivity.
Defined.

(** ** Reset scoping *)

Lemma rollsOf_without_other matches rolls (q : Player.t) :
  (∀ roll, matches roll = true → Roll.player_id roll ≠ Player.id q) →
  rollsOf (withoutRolls matches rolls) q = rollsOf rolls q.
Proof.
  intros Hm. unfold rollsOf, withoutRolls.
  induction rolls as [|x l IH]; [reflexivity|]. simpl.
  destruct (matches x) eqn:Hx; simpl.
  - destruct (String.eqb_spec (Roll.player_id x) (Player.id q)) as [He|_];
      [exfalso; exact (Hm x Hx He)|exact IH].
  - destruct (String.eqb (Roll.player_id x) (Player.id q)); [f_equal|]; exact IH.
Qed.

Lemma inFrame_without_frame gameId (p : Player.t) (i j : nat) rolls :
  ofGame gameId rolls = true →
  List.filter (inFrame j)
    (rollsOf (withoutRolls (resetFrameMatches gameId (Player.id p) (Z.of_nat i + 1))
                rolls) p)
  = if decide (j = i) then []
    else List.filter (inFrame j) (rollsOf rolls p).
Proof.
  unfold ofGame, rollsOf, withoutRolls, resetFrameMatches, inFrame.
  induction rolls as [|x l IH]; intros Hg; simpl in *.
  - destruct (decide (j = i)); reflexivity.
  - apply andb_true_iff in Hg as [Hx Hg]. rewrite Hx. simpl.
    specialize (IH Hg).
    destruct (String.eqb (Roll.player_id x) (Player.id p)) eqn:Hp; simpl.
    + destruct (Z.eqb_spec (Roll.frame x) (Z.of_nat i + 1)) as [Hf|Hf]; simpl.
      * rewrite IH. destruct (decide (j = i)) as [->|Hne]; [reflexivity|].
        destruct (Z.eqb_spec (Roll.frame x) (Z.of_nat j + 1)); [lia|reflexivity].
      * rewrite Hp. simpl.
        destruct (Z.eqb_spec (Roll.frame x) (Z.of_nat j + 1)) as [Hj|Hj];
          rewrite IH; destruct (decide (j = i)) as [->|Hne];
          try reflexivity; lia.
    + rewrite Hp. exact IH.
Qed.

(** X6. Reset scoping. Deleting the rows that [resetFrame] matches (game,
    player, frame number [i + 1]) leaves the frames and total of every other
    player unchanged; for the reset player, in a roll set of that game, frame
    [i] is then empty and scores 0 and every other frame holds the same rolls
    as before. *)
Theorem reset_frame_scoping (rolls : list Roll.t) (gameId : string)
    (p : Player.t) (i : nat) :
  let rolls' :=
    withoutRolls (resetFrameMatches gameId (Player.id p) (Z.of_nat i + 1)) rolls in
  (∀ q, Player.id q ≠ Player.id p → processPlayer rolls' q = processPlayer rolls q)
  ∧ (ofGame gameId rolls = true →
     ∀ (j : nat) fr',
       PlayerWithFrames.frames (processPlayer rolls' p) !! j = Some fr' →
       (j = i → FrameData.rolls fr' = [] ∧ FrameData.frameTotal fr' = 0)
       ∧ (j ≠ i →
          ∃ fr, PlayerWithFrames.frames (processPlayer rolls p) !! j = Some fr
                ∧ FrameData.rolls fr' = FrameData.rolls fr)).
Proof.
  intros rolls'. split.
  - intros q Hq. unfold processPlayer. fold (rollsOf rolls' q). fold (rollsOf rolls q).
    subst rolls'. rewrite rollsOf_without_other; [reflexivity|].
    intros roll Hm. unfold resetFrameMatches in Hm.
    apply andb_true_iff in Hm as [Hm _]. apply andb_true_iff in Hm as [_ Hm].
    apply String.eqb_eq in Hm. congruence.
  - intros Hg j fr' Hfr'.
    destruct (frame_rolls_lookup rolls' p j fr' Hfr') as [_ Hr'].
    subst rolls'. rewrite (inFrame_without_frame gameId p i j rolls Hg) in Hr'.
    assert (Hj : (j < 10)%nat).
    { apply lookup_lt_Some in Hfr'.
      rewrite processPlayer_frames, scoreFrames_length, groupRolls_length in Hfr'.
      lia. }
    split.
    + intros ->. destruct (decide (i = i)); [|congruence]. simpl in Hr'.
      split; [exact Hr'|].
      destruct (decide (i = 9%nat)) as [->|Hne].
      * rewrite (tenth_frame_lookup _ p fr' Hfr'), Hr'. reflexivity.
      * rewrite (standard_frame_lookup _ p i fr' ltac:(lia) Hfr'). cbv zeta.
        unfold framePins. rewrite Hr'. reflexivity.
    + intros Hne. destruct (decide (j = i)); [contradiction|].
      destruct (lookup_lt_is_Some_2 (PlayerWithFrames.frames (processPlayer rolls p)) j)
        as [fr Hfr].
      { rewrite processPlayer_frames, scoreFrames_length, groupRolls_length. lia. }
      exists fr. split; [exact Hfr|].
      destruct (frame_rolls_lookup rolls p j fr Hfr) as [_ Hr]. congruence.
Qed.

Lemma reset_frame_scoping_witness :
  let rolls' := withoutRolls (resetFrameMatches "g" "p1" (Z.of_nat 0 + 1)) spareExample in
  processPlayer rolls' bob = processPlayer spareExample bob
  ∧ ∀ fr', PlayerWithFrames.frames (processPlayer rolls' alice) !! 0%nat = Some fr' →
           FrameData.rolls fr' = [] ∧ FrameData.frameTotal fr' = 0.
Proof.
  split.
  - apply (proj1 (reset_frame_scoping spareExample "g" alice 0)). discriminate.
  - intros fr' Hfr'.
    apply (proj2 (reset_frame_scoping spareExample "g" alice 0) eq_refl 0%nat fr' Hfr').
    reflexivity.
Defined.

(** ** The change-feed handler, event by event *)

Lemma sameRollId_refl r : sameRollId r r = true.
Proof. apply String.eqb_refl. Qed.

(** An update walks the roll set: it replaces the first roll with its id, or
    is appended when there is none. *)
Lemma update_cons x l r :
  onRollsChange (x :: l) (UPDATE r)
  = if sameRollId x r then r :: l else x :: onRollsChange l (UPDATE r).
Proof.
  unfold onRollsChange. simpl findIndex.
  destruct (sameRollId x r); [reflexivity|].
  destruct (findIndex_bounds (λ roll, sameRollId roll r) l) as [Hb|Hb].
  - rewrite Hb. reflexivity.
  - destruct (Z.eqb_spec (findIndex (λ roll, sameRollId roll r) l) (-1)); [lia|].
    destruct (Z.geb_spec (findIndex (λ roll, sameRollId roll r) l + 1) 0); [|lia].
    destruct (Z.geb_spec (findIndex (λ roll, sameRollId roll r) l) 0); [|lia].
    replace (Z.to_nat (findIndex (λ roll, sameRollId roll r) l + 1))
      with (S (Z.to_nat (findIndex (λ roll, sameRollId roll r) l))) by lia.
    reflexivity.
Qed.

Lemma update_nil r : onRollsChange [] (UPDATE r) = [r].
Proof. reflexivity. Qed.

Lemma delete_cons x l d :
  onRollsChange (x :: l) (DELETE d)
  = if sameRollId x d then onRollsChange l (DELETE d)
    else x :: onRollsChange l (DELETE d).
Proof. simpl. destruct (sameRollId x d); reflexivity. Qed.

Lemma insert_cons x l r :
  onRollsChange (x :: l) (INSERT r) = x :: onRollsChange l (INSERT r).
Proof. reflexivity. Qed.

Lemma holdsId_false_Forall l id :
  holdsId l id = false ↔ Forall (λ roll, String.eqb (Roll.id roll) id = false) l.
Proof.
  unfold holdsId. induction l as [|x l IH]; simpl.
  - split; [constructor|reflexivity].
  - rewrite orb_false_iff, Forall_cons, IH. reflexivity.
Qed.

Lemma update_unknown l r :
  holdsId l (Roll.id r) = false → onRollsChange l (UPDATE r) = l ++ [r].
Proof.
  induction l as [|x l IH]; intros H; [reflexivity|].
  simpl in H. apply orb_false_iff in H as [Hx H].
  rewrite update_cons. unfold sameRollId at 1. rewrite Hx, IH by exact H.
  reflexivity.
Qed.

Lemma update_ids_known l r :
  holdsId l (Roll.id r) = true →
  map Roll.id (onRollsChange l (UPDATE r)) = map Roll.id l.
Proof.
  induction l as [|x l IH]; intros H; [discriminate|].
  rewrite update_cons. unfold sameRollId at 1.
  simpl in H. destruct (String.eqb_spec (Roll.id x) (Roll.id r)) as [He|Hne];
    cbv iota; rewrite !map_cons.
  - congruence.
  - simpl in H. rewrite IH by exact H. reflexivity.
Qed.

(** X7. Updates merge by id and may be delivered twice: an update whose id is
    not held is appended; an update whose id is held keeps the ids of the
    roll set, position by position; after an update the roll is in the set;
    and applying the same update a second time changes nothing. *)
Theorem update_is_idempotent (rollsData : list Roll.t) (updatedRoll : Roll.t) :
  let once := onRollsChange rollsData (UPDATE updatedRoll) in
  onRollsChange once (UPDATE updatedRoll) = once
  ∧ updatedRoll ∈ once
  ∧ (holdsId rollsData (Roll.id updatedRoll) = false → once = rollsData ++ [updatedRoll])
  ∧ (holdsId rollsData (Roll.id updatedRoll) = true →
     map Roll.id once = map Roll.id rollsData).
Proof.
  intros once. subst once. split; [|split; [|split]].
  - induction rollsData as [|x l IH].
    + rewrite update_nil, update_cons, sameRollId_refl. reflexivity.
    + rewrite update_cons. destruct (sameRollId x updatedRoll) eqn:Hx.
      * rewrite update_cons, sameRollId_refl. reflexivity.
      * rewrite update_cons, Hx, IH. reflexivity.
  - induction rollsData as [|x l IH].
    + rewrite update_nil. left.
    + rewrite update_cons. destruct (sameRollId x updatedRoll); [left|right; exact IH].
  - apply update_unknown.
  - apply update_ids_known.
Qed.

Lemma update_is_idempotent_witness :
  onRollsChange [fivePins] (UPDATE (Roll.mk "r2" "g" "p1" 1 2 4))
  = [fivePins] ++ [Roll.mk "r2" "g" "p1" 1 2 4].
Proof.
  apply (proj1 (proj2 (proj2
           (update_is_idempotent [fivePins] (Roll.mk "r2" "g" "p1" 1 2 4))))).
  reflexivity.
Defined.

Lemma delete_unknown l d :
  holdsId l (Roll.id d) = false → onRollsChange l (DELETE d) = l.
Proof.
  induction l as [|x l IH]; intros H; [reflexivity|].
  simpl in H. apply orb_false_iff in H as [Hx H].
  rewrite delete_cons. unfold sameRollId. rewrite Hx, IH by exact H. reflexivity.
Qed.

Lemma delete_app l1 l2 d :
  onRollsChange (l1 ++ l2) (DELETE d)
  = onRollsChange l1 (DELETE d) ++ onRollsChange l2 (DELETE d).
Proof. simpl. apply List.filter_app. Qed.

Lemma delete_copies (n : nat) r :
  onRollsChange (repeat r n) (DELETE r) = [].
Proof.
  induction n as [|n IH]; [reflexivity|].
  simpl repeat. rewrite delete_cons, sameRollId_refl. exact IH.
Qed.

Lemma inserts_append l r (n : nat) :
  applyChanges l (repeat (INSERT r) n) = l ++ repeat r n.
Proof.
  unfold applyChanges. revert l. induction n as [|n IH]; intros l; simpl.
  - rewrite app_nil_r. reflexivity.
  - rewrite IH. rewrite <- app_assoc. reflexivity.
Qed.

(** X8. Deletes remove by id: after a delete no roll with that id is left and
    the other rolls keep their order; a delete of an id that is not held
    changes nothing; and a roll inserted any number of times into a set that
    did not hold its id is gone entirely after one delete, which restores the
    set. *)
Theorem delete_removes_every_copy (rollsData : list Roll.t) (deletedRoll : Roll.t) :
  holdsId (onRollsChange rollsData (DELETE deletedRoll)) (Roll.id deletedRoll) = false
  ∧ onRollsChange rollsData (DELETE deletedRoll)
    = List.filter (λ roll, negb (String.eqb (Roll.id roll) (Roll.id deletedRoll)))
        rollsData
  ∧ (holdsId rollsData (Roll.id deletedRoll) = false →
     onRollsChange rollsData (DELETE deletedRoll) = rollsData
     ∧ ∀ n : nat,
         applyChanges rollsData (repeat (INSERT deletedRoll) n ++ [DELETE deletedRoll])
         = rollsData).
Proof.
  split; [|split; [reflexivity|]].
  - apply holdsId_false_Forall, Forall_forall. intros x Hx.
    simpl in Hx. apply list_elem_of_In, filter_In in Hx as [_ Hx].
    unfold sameRollId in Hx. apply negb_true_iff in Hx. exact Hx.
  - intros Hno. split; [apply delete_unknown, Hno|].
    intros n. unfold applyChanges. rewrite fold_left_app.
    fold (applyChanges rollsData (repeat (INSERT deletedRoll) n)).
    rewrite inserts_append. cbn [fold_left].
    rewrite delete_app, delete_copies, app_nil_r. apply delete_unknown, Hno.
Qed.

Lemma delete_removes_every_copy_witness :
  applyChanges [fivePins]
    (repeat (INSERT (Roll.mk "r2" "g" "p1" 1 2 4)) 2
     ++ [DELETE (Roll.mk "r2" "g" "p1" 1 2 4)])
  = [fivePins].
Proof.
  apply (proj2 (proj2 (delete_removes_every_copy [fivePins]
                         (Roll.mk "r2" "g" "p1" 1 2 4))) eq_refl).
Defined.

(** ** Distinct ids *)

Lemma holdsId_elem l id :
  holdsId l id = true ↔ id ∈ map Roll.id l.
Proof.
  unfold holdsId. induction l as [|x l IH]; simpl.
  - split; [discriminate|intros H; inversion H].
  - rewrite orb_true_iff, elem_of_cons, IH.
    split; (intros [H|H]; [left|right; exact H]).
    + apply String.eqb_eq in H. congruence.
    + apply String.eqb_eq. congruence.
Qed.

Lemma holdsId_not_elem l id :
  holdsId l id = false ↔ id ∉ map Roll.id l.
Proof.
  rewrite <- holdsId_elem. destruct (holdsId l id); split; congruence.
Qed.

Lemma delete_ids_NoDup l d :
  NoDup (map Roll.id l) → NoDup (map Roll.id (onRollsChange l (DELETE d))).
Proof.
  induction l as [|x l IH]; intros Hnd; [exact Hnd|].
  simpl map in Hnd. apply NoDup_cons in Hnd as [Hx Hnd].
  rewrite delete_cons. destruct (sameRollId x d); [apply IH, Hnd|].
  simpl map. apply NoDup_cons. split; [|apply IH, Hnd].
  intros Hin. apply Hx.
  change (map Roll.id ?l) with (Roll.id <$> l) in *.
  apply list_elem_of_fmap in Hin as (y & Hy & Hin). apply list_elem_of_fmap.
  exists y. split; [exact Hy|].
  simpl in Hin. apply list_elem_of_In, filter_In in Hin as [Hin _].
  apply list_elem_of_In, Hin.
Qed.

(** X9. Ids stay distinct: when no two rolls of the set share an id, an
    update, a delete, and an insert of an id that is not held all leave a set
    in which no two rolls share an id; an insert of an id that is held leaves
    two rolls with that id. *)
Theorem ids_stay_distinct (rollsData : list Roll.t) (roll : Roll.t) :
  NoDup (map Roll.id rollsData) →
  NoDup (map Roll.id (onRollsChange rollsData (UPDATE roll)))
  ∧ NoDup (map Roll.id (onRollsChange rollsData (DELETE roll)))
  ∧ (holdsId rollsData (Roll.id roll) = false →
     NoDup (map Roll.id (onRollsChange rollsData (INSERT roll))))
  ∧ (holdsId rollsData (Roll.id roll) = true →
     ¬ NoDup (map Roll.id (onRollsChange rollsData (INSERT roll)))).
Proof.
  intros Hnd.
  assert (Hfresh : holdsId rollsData (Roll.id roll) = false →
                   NoDup (map Roll.id (rollsData ++ [roll]))).
  { intros Hno. rewrite map_app. apply NoDup_app. split; [exact Hnd|]. split.
    - intros id Hid Hin. simpl in Hin. apply list_elem_of_singleton in Hin as ->.
      apply holdsId_not_elem in Hno. contradiction.
    - simpl. apply NoDup_singleton. }
  split; [|split; [|split]].
  - destruct (holdsId rollsData (Roll.id roll)) eqn:Hh.
    + rewrite update_ids_known by exact Hh. exact Hnd.
    + rewrite update_unknown by exact Hh. apply Hfresh. reflexivity.
  - apply delete_ids_NoDup, Hnd.
  - exact Hfresh.
  - intros Hh Hnd'. simpl in Hnd'. rewrite map_app in Hnd'.
    apply NoDup_app in Hnd' as (_ & Hdis & _).
    apply holdsId_elem in Hh. apply (Hdis _ Hh). simpl. left.
Qed.

Lemma ids_stay_distinct_witness :
  NoDup (map Roll.id (onRollsChange [fivePins] (UPDATE fivePins))).
Proof.
  apply (ids_stay_distinct [fivePins] fivePins).
  apply NoDup_singleton.
Defined.

(** ** A reset seen through the change feed *)

Lemma deletes_fold l ds :
  applyChanges l (map DELETE ds)
  = List.filter (λ roll, negb (existsb (sameRollId roll) ds)) l.
Proof.
  unfold applyChanges. revert l. induction ds as [|d ds IH]; intros l.
  - simpl. induction l as [|x l IHl]; [reflexivity|]. simpl. f_equal. exact IHl.
  - cbn [map fold_left]. rewrite IH. simpl onRollsChange.
    induction l as [|x l IHl]; [reflexivity|]. simpl.
    destruct (sameRollId x d); simpl; [exact IHl|].
    destruct (existsb (sameRollId x) ds); simpl; [|f_equal]; exact IHl.
Qed.

Lemma same_id_same_roll l x y :
  NoDup (map Roll.id l) → x ∈ l → y ∈ l → Roll.id x = Roll.id y → x = y.
Proof.
  induction l as [|z l IH]; intros Hnd Hx Hy He; [inversion Hx|].
  simpl in Hnd. apply NoDup_cons in Hnd as [Hz Hnd].
  change (map Roll.id l) with (Roll.id <$> l) in Hz.
  apply elem_of_cons in Hx as [->|Hx]; apply elem_of_cons in Hy as [->|Hy].
  - reflexivity.
  - exfalso. apply Hz. rewrite He. apply list_elem_of_fmap_2, Hy.
  - exfalso. apply Hz. rewrite <- He. apply list_elem_of_fmap_2, Hx.
  - apply IH; assumption.
Qed.

Lemma existsb_perm {A} (f : A → bool) l1 l2 :
  l1 ≡ₚ l2 → existsb f l1 = existsb f l2.
Proof.
  induction 1 as [|x l1 l2 Hp IH|x y l|l1 l2 l3 H1 IH1 H2 IH2]; simpl.
  - reflexivity.
  - rewrite IH. reflexivity.
  - destruct (f x), (f y); reflexivity.
  - congruence.
Qed.

(** X10. A reset seen through the change feed: when no two rolls of the local
    set share an id, the delete events of the rows matched by a reset,
    delivered in any order, leave exactly the local set without the matched
    rows, hence the scoreboard of that set. *)
Theorem reset_deletes_converge (players : list Player.t) (rollsData : list Roll.t)
    (matches : Roll.t → bool) (events : list RollsChange) :
  NoDup (map Roll.id rollsData) →
  events ≡ₚ map DELETE (List.filter matches rollsData) →
  applyChanges rollsData events = withoutRolls matches rollsData
  ∧ processRollsIntoPlayers players (applyChanges rollsData events)
    = processRollsIntoPlayers players (withoutRolls matches rollsData).
Proof.
  intros Hnd Hp.
  assert (Heq : applyChanges rollsData events = withoutRolls matches rollsData).
  { apply Permutation_map_inv in Hp as (ds & -> & Hds).
    rewrite deletes_fold. unfold withoutRolls.
    apply filter_ext_in. intros x Hx. f_equal.
    rewrite <- (existsb_perm _ _ _ Hds).
    destruct (matches x) eqn:Hm.
    - apply existsb_exists. exists x. split; [|apply sameRollId_refl].
      apply filter_In. split; assumption.
    - apply not_true_is_false. intros He.
      apply existsb_exists in He as (y & Hy & Hxy).
      apply filter_In in Hy as [Hy Hmy].
      assert (x = y).
      { apply (same_id_same_roll rollsData); try (apply list_elem_of_In; assumption);
          [exact Hnd|apply String.eqb_eq, Hxy]. }
      congruence. }
  split; [exact Heq|]. rewrite Heq. reflexivity.
Qed.

Lemma reset_deletes_converge_witness :
  applyChanges spareExample
    (rev (map DELETE (List.filter (resetFrameMatches "g" "p1" 1) spareExample)))
  = withoutRolls (resetFrameMatches "g" "p1" 1) spareExample.
Proof.
  apply (reset_deletes_converge [alice] spareExample).
  - apply NoDup_ListNoDup. repeat constructor; simpl; intuition discriminate.
  - symmetry. apply Permutation_rev.
Defined.

(** ** Events about different rolls commute *)

Arguments onRollsChange : simpl never.

Lemma sameRollId_ne a b : Roll.id a ≠ Roll.id b → sameRollId a b = false.
Proof. intros H. apply String.eqb_neq, H. Qed.

Lemma sameRollId_trans_ne x a b :
  Roll.id a ≠ Roll.id b → sameRollId x a = true → sameRollId x b = false.
Proof.
  unfold sameRollId. intros Hab Hxa. apply String.eqb_eq in Hxa.
  apply String.eqb_neq. congruence.
Qed.

Lemma insert_update_commute l a b :
  Roll.id a ≠ Roll.id b →
  onRollsChange (l ++ [a]) (UPDATE b) ≡ₚ onRollsChange l (UPDATE b) ++ [a].
Proof.
  intros Hab. induction l as [|x l IH].
  - simpl app. rewrite update_cons, sameRollId_ne, update_nil by exact Hab.
    apply Permutation_swap.
  - simpl app. rewrite !update_cons. destruct (sameRollId x b); [reflexivity|].
    simpl app. apply Permutation_skip, IH.
Qed.

Lemma insert_delete_commute l a b :
  Roll.id a ≠ Roll.id b →
  onRollsChange (l ++ [a]) (DELETE b) = onRollsChange l (DELETE b) ++ [a].
Proof.
  intros Hab. rewrite delete_app. f_equal.
  rewrite delete_cons, sameRollId_ne by exact Hab. reflexivity.
Qed.

Lemma update_update_commute l a b :
  Roll.id a ≠ Roll.id b →
  onRollsChange (onRollsChange l (UPDATE a)) (UPDATE b)
  ≡ₚ onRollsChange (onRollsChange l (UPDATE b)) (UPDATE a).
Proof.
  intros Hab. induction l as [|x l IH].
  - rewrite !update_nil, !update_cons, !update_nil.
    rewrite (sameRollId_ne a b), (sameRollId_ne b a) by congruence.
    apply Permutation_swap.
  - rewrite !(update_cons x l).
    destruct (sameRollId x a) eqn:Hxa, (sameRollId x b) eqn:Hxb.
    + rewrite (sameRollId_trans_ne x a b Hab Hxa) in Hxb. discriminate.
    + rewrite !update_cons, Hxa, (sameRollId_ne a b) by exact Hab. reflexivity.
    + rewrite !update_cons, Hxb, (sameRollId_ne b a) by congruence. reflexivity.
    + rewrite !update_cons, Hxa, Hxb. apply Permutation_skip, IH.
Qed.

Lemma update_delete_commute l a b :
  Roll.id a ≠ Roll.id b →
  onRollsChange (onRollsChange l (UPDATE a)) (DELETE b)
  = onRollsChange (onRollsChange l (DELETE b)) (UPDATE a).
Proof.
  intros Hab. induction l as [|x l IH].
  - rewrite update_nil, delete_cons, sameRollId_ne by exact Hab. reflexivity.
  - rewrite update_cons, (delete_cons x l).
    destruct (sameRollId x a) eqn:Hxa.
    + rewrite (sameRollId_trans_ne x a b Hab Hxa).
      rewrite delete_cons, sameRollId_ne, update_cons, Hxa by exact Hab.
      reflexivity.
    + rewrite delete_cons. destruct (sameRollId x b); [exact IH|].
      rewrite update_cons, Hxa, IH. reflexivity.
Qed.

Lemma delete_delete_commute l a b :
  onRollsChange (onRollsChange l (DELETE a)) (DELETE b)
  = onRollsChange (onRollsChange l (DELETE b)) (DELETE a).
Proof.
  induction l as [|x l IH]; [reflexivity|].
  rewrite !(delete_cons x l).
  destruct (sameRollId x a) eqn:Hxa, (sameRollId x b) eqn:Hxb;
    rewrite ?delete_cons, ?Hxa, ?Hxb, ?IH; reflexivity.
Qed.

Lemma two_events_commute l e1 e2 :
  eventId e1 ≠ eventId e2 →
  onRollsChange (onRollsChange l e1) e2 ≡ₚ onRollsChange (onRollsChange l e2) e1.
Proof.
  destruct e1 as [a|a|a], e2 as [b|b|b]; simpl eventId; intros Hab;
    repeat match goal with
           | |- context [onRollsChange ?m (INSERT ?r)] =>
               change (onRollsChange m (INSERT r)) with (m ++ [r])
           end.
  - rewrite <- !app_assoc. apply Permutation_app_head, Permutation_swap.
  - apply insert_update_commute, Hab.
  - rewrite (insert_delete_commute l a b Hab). reflexivity.
  - symmetry. apply insert_update_commute. congruence.
  - apply update_update_commute, Hab.
  - rewrite update_delete_commute by exact Hab. reflexivity.
  - symmetry. rewrite (insert_delete_commute l b a) by congruence. reflexivity.
  - rewrite <- update_delete_commute by congruence. reflexivity.
  - rewrite delete_delete_commute. reflexivity.
Qed.

(** ** Any delivery order that keeps each roll's events in order *)

Lemma update_perm_delete l r :
  NoDup (map Roll.id l) →
  onRollsChange l (UPDATE r) ≡ₚ r :: onRollsChange l (DELETE r).
Proof.
  induction l as [|x l IH]; intros Hnd; [reflexivity|].
  simpl map in Hnd. apply NoDup_cons in Hnd as [Hx Hnd].
  rewrite update_cons, delete_cons. destruct (sameRollId x r) eqn:Hxr.
  - rewrite delete_unknown; [reflexivity|].
    apply holdsId_not_elem. unfold sameRollId in Hxr.
    apply String.eqb_eq in Hxr. rewrite <- Hxr. exact Hx.
  - rewrite (IH Hnd). apply Permutation_swap.
Qed.

Lemma ids_perm_NoDup (l l' : list Roll.t) :
  l ≡ₚ l' → NoDup (map Roll.id l) → NoDup (map Roll.id l').
Proof.
  intros Hp Hnd.
  assert (Hm : map Roll.id l ≡ₚ map Roll.id l') by apply Permutation_map, Hp.
  rewrite <- Hm. exact Hnd.
Qed.

Lemma event_perm l l' e :
  NoDup (map Roll.id l) → l ≡ₚ l' →
  onRollsChange l e ≡ₚ onRollsChange l' e.
Proof.
  intros Hnd Hp. destruct e as [r|r|r].
  - unfold onRollsChange. apply Permutation_app_tail, Hp.
  - rewrite (update_perm_delete l r Hnd).
    rewrite (update_perm_delete l' r (ids_perm_NoDup l l' Hp Hnd)).
    apply Permutation_skip. unfold onRollsChange. apply filter_perm, Hp.
  - unfold onRollsChange. apply filter_perm, Hp.
Qed.

Lemma step_NoDup l e :
  NoDup (map Roll.id l) → freshInsert l e = true →
  NoDup (map Roll.id (onRollsChange l e)).
Proof.
  intros Hnd Hf.
  assert (Hfresh : ∀ r, holdsId l (Roll.id r) = false →
                        NoDup (map Roll.id (l ++ [r]))).
  { intros r Hno. rewrite map_app. apply NoDup_app. split; [exact Hnd|]. split.
    - intros id Hid Hin. simpl in Hin. apply list_elem_of_singleton in Hin as ->.
      apply holdsId_not_elem in Hno. contradiction.
    - simpl. apply NoDup_singleton. }
  destruct e as [r|r|r].
  - simpl in Hf. apply negb_true_iff in Hf. apply Hfresh, Hf.
  - destruct (holdsId l (Roll.id r)) eqn:Hh.
    + rewrite update_ids_known by exact Hh. exact Hnd.
    + rewrite update_unknown by exact Hh. apply Hfresh, Hh.
  - apply delete_ids_NoDup, Hnd.
Qed.

Lemma holdsId_perm l l' id : l ≡ₚ l' → holdsId l id = holdsId l' id.
Proof. intros Hp. apply existsb_perm, Hp. Qed.

Lemma holdsId_app l1 l2 id :
  holdsId (l1 ++ l2) id = holdsId l1 id || holdsId l2 id.
Proof. apply existsb_app. Qed.

Lemma holdsId_delete_other l d id :
  Roll.id d ≠ id → holdsId (onRollsChange l (DELETE d)) id = holdsId l id.
Proof.
  intros Hne. induction l as [|x l IH]; [reflexivity|].
  rewrite delete_cons. destruct (sameRollId x d) eqn:Hxd; simpl holdsId.
  - rewrite IH. unfold sameRollId in Hxd. apply String.eqb_eq in Hxd.
    replace (String.eqb (Roll.id x) id) with false; [reflexivity|].
    symmetry. apply String.eqb_neq. congruence.
  - unfold holdsId in *. simpl. rewrite IH. reflexivity.
Qed.

Lemma holdsId_step l e id :
  eventId e ≠ id → holdsId (onRollsChange l e) id = holdsId l id.
Proof.
  intros Hne. destruct e as [r|r|r]; simpl in Hne.
  - unfold onRollsChange. rewrite holdsId_app. simpl.
    replace (String.eqb (Roll.id r) id) with false
      by (symmetry; apply String.eqb_neq, Hne).
    rewrite !orb_false_r. reflexivity.
  - destruct (holdsId l (Roll.id r)) eqn:Hh.
    + destruct (holdsId l id) eqn:Hid.
      * apply holdsId_elem. rewrite update_ids_known by exact Hh.
        apply holdsId_elem, Hid.
      * apply holdsId_not_elem. rewrite update_ids_known by exact Hh.
        apply holdsId_not_elem, Hid.
    + rewrite update_unknown by exact Hh. rewrite holdsId_app. simpl.
      replace (String.eqb (Roll.id r) id) with false
        by (symmetry; apply String.eqb_neq, Hne).
      rewrite !orb_false_r. reflexivity.
  - apply holdsId_delete_other, Hne.
Qed.

Lemma freshInsert_perm l l' e : l ≡ₚ l' → freshInsert l e = freshInsert l' e.
Proof.
  intros Hp. destruct e as [r|r|r]; simpl; try reflexivity.
  rewrite (holdsId_perm l l' _ Hp). reflexivity.
Qed.

Lemma cleanRun_cons l e es :
  cleanRun l (e :: es) = freshInsert l e && cleanRun (onRollsChange l e) es.
Proof. destruct e; reflexivity. Qed.

Lemma cleanRun_perm es : ∀ l l',
  NoDup (map Roll.id l) → l ≡ₚ l' → cleanRun l es = cleanRun l' es.
Proof.
  induction es as [|e es IH]; intros l l' Hnd Hp; [reflexivity|].
  rewrite !cleanRun_cons, <- (freshInsert_perm l l' e Hp).
  destruct (freshInsert l e) eqn:Hf; [|reflexivity]. simpl.
  apply IH; [apply step_NoDup; assumption|apply event_perm; assumption].
Qed.

Lemma run_perm es : ∀ l l',
  NoDup (map Roll.id l) → l ≡ₚ l' → cleanRun l es = true →
  applyChanges l es ≡ₚ applyChanges l' es.
Proof.
  induction es as [|e es IH]; intros l l' Hnd Hp Hc; [exact Hp|].
  rewrite cleanRun_cons in Hc. apply andb_true_iff in Hc as [Hf Hc].
  unfold applyChanges. cbn [fold_left].
  apply IH; [apply step_NoDup; assumption|apply event_perm; assumption|exact Hc].
Qed.

Lemma clean_NoDup es : ∀ l,
  NoDup (map Roll.id l) → cleanRun l es = true →
  NoDup (map Roll.id (applyChanges l es)).
Proof.
  induction es as [|e es IH]; intros l Hnd Hc; [exact Hnd|].
  rewrite cleanRun_cons in Hc. apply andb_true_iff in Hc as [Hf Hc].
  unfold applyChanges. cbn [fold_left].
  apply IH; [apply step_NoDup; assumption|exact Hc].
Qed.

Lemma applyChanges_app l es1 es2 :
  applyChanges l (es1 ++ es2) = applyChanges (applyChanges l es1) es2.
Proof. apply fold_left_app. Qed.

Lemma cleanRun_app es1 : ∀ l es2,
  cleanRun l (es1 ++ es2)
  = cleanRun l es1 && cleanRun (applyChanges l es1) es2.
Proof.
  induction es1 as [|e es1 IH]; intros l es2; [reflexivity|].
  simpl app. rewrite !cleanRun_cons, IH, andb_assoc. reflexivity.
Qed.

Lemma freshInsert_step l e e' :
  eventId e' ≠ eventId e →
  freshInsert (onRollsChange l e') e = freshInsert l e.
Proof.
  intros Hne. destruct e as [r|r|r]; simpl; try reflexivity.
  rewrite holdsId_step by exact Hne. reflexivity.
Qed.

Lemma reordered_converge es es' :
  reordered es es' →
  ∀ l, NoDup (map Roll.id l) → cleanRun l es = true →
       cleanRun l es' = true ∧ applyChanges l es ≡ₚ applyChanges l es'.
Proof.
  induction 1 as [es|before e1 e2 after Hne|es1 es2 es3 H12 IH12 H23 IH23];
    intros l Hnd Hc.
  - split; [exact Hc|reflexivity].
  - rewrite cleanRun_app in Hc. apply andb_true_iff in Hc as [Hb Hc].
    rewrite !cleanRun_cons in Hc.
    apply andb_true_iff in Hc as [Hf1 Hc]. apply andb_true_iff in Hc as [Hf2 Hc].
    set (m := applyChanges l before) in *.
    assert (Hm : NoDup (map Roll.id m)) by (apply clean_NoDup; assumption).
    rewrite freshInsert_step in Hf2 by exact Hne.
    assert (Hm1 : NoDup (map Roll.id (onRollsChange m e1)))
      by (apply step_NoDup; assumption).
    assert (Hm12 : NoDup (map Roll.id (onRollsChange (onRollsChange m e1) e2))).
    { apply step_NoDup; [exact Hm1|]. rewrite freshInsert_step by exact Hne.
      exact Hf2. }
    pose proof (two_events_commute m e1 e2 Hne) as Hsw.
    split.
    + rewrite cleanRun_app, Hb. fold m. rewrite !cleanRun_cons, Hf2.
      rewrite freshInsert_step by congruence. rewrite Hf1. simpl.
      rewrite <- (cleanRun_perm after _ _ Hm12 Hsw). exact Hc.
    + rewrite !applyChanges_app. fold m.
      change (applyChanges m (e1 :: e2 :: after))
        with (applyChanges (onRollsChange (onRollsChange m e1) e2) after).
      change (applyChanges m (e2 :: e1 :: after))
        with (applyChanges (onRollsChange (onRollsChange m e2) e1) after).
      apply (run_perm after _ _ Hm12 Hsw Hc).
  - destruct (IH12 l Hnd Hc) as [Hc2 Hp12].
    destruct (IH23 l Hnd Hc2) as [Hc3 Hp23].
    split; [exact Hc3|]. etransitivity; eassumption.
Qed.

(** X11. Convergence of the merge: starting from a roll set with distinct
    ids, for a run of change events that never inserts an id already held,
    every delivery order that keeps the events of each roll id in their order
    leaves the same rolls (as a set with multiplicities) with distinct ids;
    and when no two of them share a slot, the same scoreboard. *)
Theorem reordered_delivery_converges (players : list Player.t)
    (rollsData : list Roll.t) (events events' : list RollsChange) :
  NoDup (map Roll.id rollsData) →
  cleanRun rollsData events = true →
  reordered events events' →
  applyChanges rollsData events ≡ₚ applyChanges rollsData events'
  ∧ NoDup (map Roll.id (applyChanges rollsData events'))
  ∧ (slotsDistinct (applyChanges rollsData events) →
     processRollsIntoPlayers players (applyChanges rollsData events)
     = processRollsIntoPlayers players (applyChanges rollsData events')).
Proof.
  intros Hnd Hc Hre.
  destruct (reordered_converge events events' Hre rollsData Hnd Hc) as [Hc' Hp].
  split; [exact Hp|]. split; [apply clean_NoDup; assumption|].
  intros Hslot. apply scoreboard_perm; assumption.
Qed.

Lemma reordered_delivery_converges_witness :
  applyChanges [fivePins]
    [INSERT (Roll.mk "r2" "g" "p1" 1 2 4); UPDATE (Roll.mk "r1" "g" "p1" 1 1 6)]
  ≡ₚ applyChanges [fivePins]
       [UPDATE (Roll.mk "r1" "g" "p1" 1 1 6); INSERT (Roll.mk "r2" "g" "p1" 1 2 4)].
Proof.
  apply (reordered_delivery_converges [alice] [fivePins]).
  - apply NoDup_singleton.
  - reflexivity.
  - apply (reordered_swap []). discriminate.
Defined.

(** ** Auto-select *)

Lemma firstOpenSlot_spec player fs cell :
  Forall (λ f, (f < 10)%nat) fs →
  firstOpenSlot player fs = Some cell →
  SelectedCell.playerId cell = PlayerWithFrames.id player
  ∧ 0 <= SelectedCell.frameIndex cell <= 9
  ∧ SelectedCell.rollNumber cell
    = Z.of_nat (length (frameRollsAt player (SelectedCell.frameIndex cell)))
  ∧ 0 <= SelectedCell.rollNumber cell <= 2
  ∧ (SelectedCell.frameIndex cell < 9 →
     SelectedCell.rollNumber cell <= 1
     ∧ Forall (λ r, ¬ (FrameRoll.rollNumber r = 0 ∧ FrameRoll.pins r = 10))
         (frameRollsAt player (SelectedCell.frameIndex cell))).
Proof.
  induction 1 as [|f fs Hf Hfs IH]; [discriminate|].
  cbn [firstOpenSlot]. cbv zeta.
  set (rolls := frameRollsAt player (Z.of_nat f)) in *.
  destruct (Nat.ltb_spec f 9) as [H9|H9].
  - destruct (existsb _ rolls) eqn:Hstrike; [exact IH|].
    destruct (2 <=? length rolls)%nat eqn:H2; [exact IH|].
    apply Nat.leb_gt in H2.
    intros Hc. injection Hc as <-. simpl. fold rolls.
    repeat split; try lia.
    apply Forall_forall. intros r Hr [H0 H10].
    assert (Hex : existsb (λ r, (FrameRoll.rollNumber r =? 0) && (FrameRoll.pins r =? 10))
                    rolls = true).
    { apply existsb_exists. exists r. split; [apply list_elem_of_In, Hr|].
      rewrite H0, H10. reflexivity. }
    congruence.
  - destruct (3 <=? length rolls)%nat eqn:H3; [exact IH|].
    apply Nat.leb_gt in H3.
    destruct ((length rolls =? 2)%nat && _); [exact IH|].
    intros Hc. injection Hc as <-. simpl. fold rolls. repeat split; lia.
Qed.

(** X12. The auto-select effect keeps an existing selection, and without one
    it only ever selects a slot of the scorecard: a player of the list, a
    frame index in 0..9, and as roll index the number of rolls that frame
    holds, which is at most 2, and in frames 0-8 at most 1 with no strike
    recorded as roll 0 of that frame. *)
Theorem auto_select_stays_on_the_card (players : list PlayerWithFrames.t) :
  (∀ cell, autoSelect players (Some cell) = Some cell)
  ∧ (∀ cell, autoSelect players None = Some cell →
       ∃ player, player ∈ players
         ∧ SelectedCell.playerId cell = PlayerWithFrames.id player
         ∧ 0 <= SelectedCell.frameIndex cell <= 9
         ∧ SelectedCell.rollNumber cell
           = Z.of_nat (length (frameRollsAt player (SelectedCell.frameIndex cell)))
         ∧ 0 <= SelectedCell.rollNumber cell <= 2
         ∧ (SelectedCell.frameIndex cell < 9 →
            SelectedCell.rollNumber cell <= 1
            ∧ Forall (λ r, ¬ (FrameRoll.rollNumber r = 0 ∧ FrameRoll.pins r = 10))
                (frameRollsAt player (SelectedCell.frameIndex cell)))).
Proof.
  split; [reflexivity|]. intros cell. unfold autoSelect.
  destruct (0 <? length players)%nat; [|discriminate].
  destruct (firstOpenSlotOf players) as [c|] eqn:Hc; [|discriminate].
  intros [= ->].
  induction players as [|p ps IH]; [discriminate|].
  cbn [firstOpenSlotOf] in Hc.
  destruct (firstOpenSlot p (seq 0 10)) as [c|] eqn:Hp.
  - injection Hc as ->. exists p. split; [left|].
    apply (firstOpenSlot_spec p (seq 0 10)); [|exact Hp].
    apply Forall_forall. intros f Hf. apply elem_of_seq in Hf. lia.
  - destruct (IH Hc) as (q & Hq & Hrest). exists q. split; [right; exact Hq|exact Hrest].
Qed.

Lemma auto_select_stays_on_the_card_witness :
  ∃ player, player ∈ aliceSix
    ∧ SelectedCell.playerId (SelectedCell.mk "p1" 0 0) = PlayerWithFrames.id player
    ∧ 0 <= SelectedCell.frameIndex (SelectedCell.mk "p1" 0 0) <= 9.
Proof.
  destruct (proj2 (auto_select_stays_on_the_card aliceSix)
              (SelectedCell.mk "p1" 0 0) eq_refl) as (p & Hp & Hid & Hf & _).
  exists p. split; [exact Hp|]. split; [exact Hid|exact Hf].
Defined.

(** ** Input never exceeds the ceiling *)

Lemma getMaxPins_first_roll players cell :
  SelectedCell.rollNumber cell = 0 →
  getMaxPinsForSelection (Some cell) players = 10.
Proof.
  intros H0. unfold getMaxPinsForSelection.
  destruct (findPlayer players (SelectedCell.playerId cell)); [|reflexivity].
  rewrite H0. reflexivity.
Qed.

Lemma parseDigits_nonneg s : ∀ acc, 0 <= acc → 0 <= parseDigits s acc.
Proof.
  induction s as [|c s IH]; intros acc Hacc; simpl; [exact Hacc|].
  destruct (isDigit c) eqn:Hd; [|exact Hacc].
  apply IH. unfold isDigit in Hd. apply andb_true_iff in Hd as [Hlo Hhi].
  apply N.leb_le in Hlo, Hhi. unfold digitValue. lia.
Qed.

Lemma digit_not_space c :
  isDigit c = true →
  isWhiteSpace c = false
  ∧ (Ascii.N_of_ascii c =? 45)%N = false ∧ (Ascii.N_of_ascii c =? 43)%N = false.
Proof.
  unfold isDigit, isWhiteSpace. intros Hd.
  apply andb_true_iff in Hd as [Hlo Hhi]. apply N.leb_le in Hlo, Hhi.
  repeat split.
  - apply orb_false_iff. split.
    + apply andb_false_iff. right. apply N.leb_gt. lia.
    + apply N.eqb_neq. lia.
  - apply N.eqb_neq. lia.
  - apply N.eqb_neq. lia.
Qed.

(** A key between ["0"] and ["9"] starts with a digit. *)
Lemma digit_key key :
  String.leb "0" key && String.leb key "9" = true → startsWithDigit key = true.
Proof.
  intros H. apply andb_true_iff in H as [Hlo Hhi].
  destruct key as [|c rest]; [discriminate|].
  unfold String.leb in Hlo, Hhi. simpl in Hlo, Hhi. unfold isDigit. simpl.
  unfold Ascii.compare in Hlo, Hhi.
  change (Ascii.N_of_ascii (Ascii.Ascii false false false false true true false false))
    with 48%N in Hlo.
  change (Ascii.N_of_ascii (Ascii.Ascii true false false true true true false false))
    with 57%N in Hhi.
  apply andb_true_iff. split; apply N.leb_le.
  - destruct (N.compare_spec 48 (Ascii.N_of_ascii c)); first [lia|discriminate].
  - destruct (N.compare_spec (Ascii.N_of_ascii c) 57); first [lia|discriminate].
Qed.

Lemma parseInt10_digit_key key :
  startsWithDigit key = true →
  ∃ n, parseInt10 key = Some n ∧ 0 <= n.
Proof.
  destruct key as [|c rest]; [discriminate|]. simpl. intros Hd.
  destruct (digit_not_space c Hd) as (Hw & Hm & Hp).
  unfold parseInt10. simpl skipWhiteSpace. rewrite Hw, Hm, Hp, Hd.
  eexists. split; [reflexivity|]. apply parseDigits_nonneg. lia.
Qed.

Lemma keyPins_nonneg key maxPins pins :
  0 <= maxPins → keyPins key maxPins = Some pins → 0 <= pins.
Proof.
  intros Hmax. unfold keyPins.
  destruct (String.leb "0" key && String.leb key "9") eqn:Hd.
  - destruct (parseInt10_digit_key key (digit_key key Hd)) as (n & -> & Hn).
    intros H. injection H as <-. exact Hn.
  - destruct (String.eqb (toLowerCase key) "x"); [intros H; injection H as <-; lia|].
    destruct (String.eqb key "/").
    + intros H. injection H as <-. destruct (maxPins <? 10); lia.
    + destruct (String.eqb key "-"); [|discriminate].
      intros H. injection H as <-. lia.
Qed.

(** X13. Keyboard input never exceeds the ceiling: over a scoreboard whose
    recorded pins are in 0..10, whatever key is pressed, the pins handed to
    the roll input are between 0 and the legal-pins ceiling of the selection,
    hence at most 10; without a selection nothing is handed on; the key "/"
    hands on the ceiling itself when it is below 10, and "x" or "X" only go
    through when the ceiling is 10. *)
Theorem keyboard_respects_ceiling (players : list PlayerWithFrames.t)
    (selectedCell : option SelectedCell.t) (key : string) :
  pinsInRange players = true →
  let maxPins := getMaxPinsForSelection selectedCell players in
  (∀ pins, handleKeyDown players selectedCell key = Some pins →
     0 <= pins <= maxPins ∧ maxPins <= 10)
  ∧ handleKeyDown players None key = None
  ∧ (∀ cell, selectedCell = Some cell → maxPins < 10 →
       handleKeyDown players selectedCell "/" = Some maxPins
       ∧ handleKeyDown players selectedCell "x" = None
       ∧ handleKeyDown players selectedCell "X" = None).
Proof.
  intros Hall maxPins.
  pose proof (getMaxPins_range selectedCell players Hall) as Hr. fold maxPins in Hr.
  split; [|split; [reflexivity|]].
  - intros pins. unfold handleKeyDown.
    destruct selectedCell as [cell|]; [|discriminate]. fold maxPins.
    destruct (keyPins key maxPins) as [p|] eqn:Hk; [|discriminate].
    destruct (Z.leb_spec p maxPins) as [Hle|Hgt]; [|discriminate].
    intros [= <-].
    pose proof (keyPins_nonneg key maxPins p ltac:(lia) Hk). lia.
  - intros cell -> Hlt. unfold handleKeyDown. fold maxPins.
    unfold keyPins. simpl.
    replace (maxPins <? 10) with true by (symmetry; apply Z.ltb_lt; lia).
    rewrite Z.leb_refl.
    replace (10 <=? maxPins) with false by (symmetry; apply Z.leb_gt; lia).
    repeat split.
Qed.

Lemma keyboard_respects_ceiling_witness :
  handleKeyDown aliceSix (Some (SelectedCell.mk "p1" 3 1)) "/"
  = Some (getMaxPinsForSelection (Some (SelectedCell.mk "p1" 3 1)) aliceSix).
Proof.
  refine (proj1 (proj2 (proj2 (keyboard_respects_ceiling aliceSix
            (Some (SelectedCell.mk "p1" 3 1)) "/" eq_refl)) _ eq_refl _)).
  vm_compute. reflexivity.
Defined.

(** X14. The keypad never sends more than the ceiling: over a scoreboard
    whose recorded pins are in 0..10, every button of the keypad the game
    page renders for a selection that is not disabled sends pins between 0
    and the legal-pins ceiling of that selection; the spare button, shown
    when the ceiling is below 10, sends exactly the ceiling. *)
Theorem keypad_respects_ceiling (players : list PlayerWithFrames.t)
    (cell : SelectedCell.t) :
  pinsInRange players = true →
  let maxPins := getMaxPinsForSelection (Some cell) players in
  (∀ button, button ∈ pageKeypad players cell → disabled button = false →
     0 <= sends button <= maxPins)
  ∧ (maxPins < 10 → mkButton maxPins false ∈ pageKeypad players cell).
Proof.
  intros Hall maxPins. subst maxPins.
  pose proof (getMaxPins_range (Some cell) players Hall) as Hr.
  unfold pageKeypad, keypadButtons.
  remember (getMaxPinsForSelection (Some cell) players) as maxPins eqn:Hmax.
  split.
  - intros button Hin Hen.
    rewrite !elem_of_app in Hin. destruct Hin as [Hin|[Hin|[Hin|Hin]]].
    + change (map ?f ?l) with (f <$> l) in Hin.
      apply list_elem_of_fmap in Hin as (pin & -> & Hpin).
      cbn [sends disabled] in *.
      rewrite Z.gtb_ltb in Hen. apply Z.ltb_ge in Hen.
      split; [|exact Hen].
      repeat (apply elem_of_cons in Hpin as [->|Hpin]; [lia|]). inversion Hpin.
    + apply list_elem_of_singleton in Hin as ->. simpl. lia.
    + apply list_elem_of_singleton in Hin as ->. cbn [sends disabled] in *.
      apply andb_false_iff in Hen as [Hen|Hen].
      * rewrite Z.gtb_ltb in Hen. apply Z.ltb_ge in Hen. lia.
      * apply negb_false_iff, Z.eqb_eq in Hen.
        pose proof (getMaxPins_first_roll players cell Hen) as H10.
        rewrite <- Hmax in H10. lia.
    + destruct (maxPins <? 10); [|inversion Hin].
      apply list_elem_of_singleton in Hin as ->. simpl. lia.
  - intros Hlt. rewrite !elem_of_app. do 3 right.
    replace (maxPins <? 10) with true by (symmetry; apply Z.ltb_lt; lia). left.
Qed.

Lemma keypad_respects_ceiling_witness :
  mkButton (getMaxPinsForSelection (Some (SelectedCell.mk "p1" 3 1)) aliceSix) false
  ∈ pageKeypad aliceSix (SelectedCell.mk "p1" 3 1).
Proof.
  refine (proj2 (keypad_respects_ceiling aliceSix (SelectedCell.mk "p1" 3 1) eq_refl) _).
  vm_compute. reflexivity.
Defined.

(** ** The players channel *)

Lemma processPlayer_same_id rolls (p q : Player.t) :
  Player.id p = Player.id q →
  scoreLine (processPlayer rolls p) = scoreLine (processPlayer rolls q).
Proof.
  intros Hid. unfold scoreLine, PlayerWithFrames.id, processPlayer. rewrite Hid.
  destruct (scoreFrames _) as [frames rt]. simpl. rewrite Hid. reflexivity.
Qed.

(** X15. Player events and the scoreboard: an update of a player keeps the
    order of the player ids, and the id, frames and total shown for every
    player stay what they were (only the record of the updated player is
    replaced); a delete removes the players with that id and leaves the
    lines of the others unchanged and in order; an insert whose refetch gives
    no data changes nothing. *)
Theorem player_events_keep_scores (playersData : list Player.t)
    (rolls : list Roll.t) (player : Player.t) :
  map Player.id (onPlayersChange playersData (PlayerUpdated player))
    = map Player.id playersData
  ∧ map scoreLine
      (processRollsIntoPlayers (onPlayersChange playersData (PlayerUpdated player)) rolls)
    = map scoreLine (processRollsIntoPlayers playersData rolls)
  ∧ processRollsIntoPlayers (onPlayersChange playersData (PlayerDeleted player)) rolls
    = List.filter
        (λ p, negb (String.eqb (PlayerWithFrames.id p) (Player.id player)))
        (processRollsIntoPlayers playersData rolls)
  ∧ onPlayersChange playersData (PlayerInserted None) = playersData.
Proof.
  split; [|split; [|split; [|reflexivity]]].
  - simpl. rewrite map_map. apply map_ext. intros p.
    destruct (String.eqb_spec (Player.id p) (Player.id player)); congruence.
  - unfold processRollsIntoPlayers. simpl. rewrite !map_map. apply map_ext.
    intros p. apply processPlayer_same_id.
    destruct (String.eqb_spec (Player.id p) (Player.id player)); congruence.
  - unfold processRollsIntoPlayers. simpl.
    induction playersData as [|p ps IH]; [reflexivity|]. simpl.
    assert (Hid : PlayerWithFrames.id (processPlayer rolls p) = Player.id p).
    { unfold PlayerWithFrames.id, processPlayer.
      destruct (scoreFrames _). reflexivity. }
    rewrite Hid. destruct (String.eqb (Player.id p) (Player.id player)); simpl;
      rewrite IH; reflexivity.
Qed.

(** ** Turns with strikes *)

Section StrikeCycle.
Variable players : list PlayerWithFrames.t.
Variable first : PlayerWithFrames.t.
Variable f : Z.
Hypothesis distinct_ids : NoDup (map PlayerWithFrames.id players).
Hypothesis first_player : players !! 0%nat = Some first.
Hypothesis standard_frame : 0 <= f <= 8.

(** A strike on the first ball passes the turn on. *)
Lemma strike_step (k : nat) p q sel :
  players !! k = Some p → players !! S k = Some q →
  advanceTurn players (PlayerWithFrames.id p) f 0 10 sel
  = Some (SelectedCell.mk (PlayerWithFrames.id q) f 0).
Proof.
  intros Hk Hq.
  destruct (found_at players distinct_ids k p Hk) as (Hi & Hne & Hlt).
  apply lookup_lt_Some in Hq as Hlt'.
  unfold advanceTurn. rewrite Hi, Hne.
  replace (f <? 9) with true by (symmetry; apply Z.ltb_lt; lia).
  simpl orb. cbv beta iota zeta.
  rewrite Z.rem_small by lia.
  replace (Z.of_nat k + 1 =? 0) with false by (symmetry; apply Z.eqb_neq; lia).
  simpl andb. cbv iota.
  replace (Z.of_nat k + 1) with (Z.of_nat (S k)) by lia.
  apply selectPlayer_lookup, Hq.
Qed.

Lemma strike_wrap (k : nat) p sel :
  players !! k = Some p → S k = length players →
  advanceTurn players (PlayerWithFrames.id p) f 0 10 sel
  = Some (SelectedCell.mk (PlayerWithFrames.id first) (f + 1) 0).
Proof.
  intros Hk Hlast.
  destruct (found_at players distinct_ids k p Hk) as (Hi & Hne & Hlt).
  unfold advanceTurn. rewrite Hi, Hne.
  replace (f <? 9) with true by (symmetry; apply Z.ltb_lt; lia).
  simpl orb. cbv beta iota zeta.
  replace (Z.of_nat k + 1) with (Z.of_nat (length players)) by lia.
  rewrite Z.rem_same by lia.
  replace (Z.of_nat k =? Z.of_nat (length players) - 1) with true
    by (symmetry; apply Z.eqb_eq; lia).
  simpl. apply (selectPlayer_lookup players 0 first), first_player.
Qed.

(** One valid turn of player [k]. *)
Lemma turn_step (k : nat) p turn :
  players !! k = Some p → validTurn turn = true →
  commitRolls players (Some (SelectedCell.mk (PlayerWithFrames.id p) f 0)) turn
  = if (S k =? length players)%nat
    then Some (SelectedCell.mk (PlayerWithFrames.id first) (f + 1) 0)
    else (λ q, SelectedCell.mk (PlayerWithFrames.id q) f 0) <$> players !! S k.
Proof.
  intros Hk Hv. apply lookup_lt_Some in Hk as Hlt.
  destruct (Nat.eqb_spec (S k) (length players)) as [Hl|Hl].
  - destruct turn as [|a [|b [|c turn]]]; try discriminate; simpl in Hv.
    + apply Z.eqb_eq in Hv as ->. unfold commitRolls. simpl.
      apply (strike_wrap k p _ Hk Hl).
    + apply negb_true_iff, Z.eqb_neq in Hv. unfold commitRolls. simpl.
      rewrite (first_ball_step players f distinct_ids standard_frame k p a _ Hk Hv).
      simpl.
      apply (second_ball_wrap players first f distinct_ids first_player
               standard_frame k p b _ Hk Hl).
  - destruct (lookup_lt_is_Some_2 players (S k)) as [q Hq]; [lia|]. rewrite Hq.
    destruct turn as [|a [|b [|c turn]]]; try discriminate; simpl in Hv.
    + apply Z.eqb_eq in Hv as ->. unfold commitRolls. simpl.
      apply (strike_step k p q _ Hk Hq).
    + apply negb_true_iff, Z.eqb_neq in Hv. unfold commitRolls. simpl.
      rewrite (first_ball_step players f distinct_ids standard_frame k p a _ Hk Hv).
      simpl.
      apply (second_ball_step players f distinct_ids standard_frame k p q b _ Hk Hq).
Qed.

Lemma after_turns (turns : list (list Z)) (k : nat) :
  length turns = length players →
  forallb validTurn turns = true →
  (k ≤ length players)%nat →
  commitRolls players (Some (SelectedCell.mk (PlayerWithFrames.id first) f 0))
    (concat (take k turns))
  = if (k =? length players)%nat
    then Some (SelectedCell.mk (PlayerWithFrames.id first) (f + 1) 0)
    else (λ p, SelectedCell.mk (PlayerWithFrames.id p) f 0) <$> players !! k.
Proof.
  intros Hlen Hv. induction k as [|k IH]; intros Hk.
  - apply lookup_lt_Some in first_player as Hpos.
    destruct (Nat.eqb_spec 0 (length players)); [lia|].
    rewrite first_player. reflexivity.
  - destruct (lookup_lt_is_Some_2 players k) as [p Hp]; [lia|].
    destruct (lookup_lt_is_Some_2 turns k) as [t Ht]; [lia|].
    rewrite (take_S_r _ _ t Ht), concat_app. simpl concat. rewrite app_nil_r.
    unfold commitRolls in *. rewrite fold_left_app, IH by lia.
    destruct (Nat.eqb_spec k (length players)); [lia|].
    rewrite Hp. simpl fmap.
    apply (turn_step k p t Hp).
    rewrite forallb_forall in Hv. apply Hv, list_elem_of_In.
    eapply list_elem_of_lookup_2. exact Ht.
Qed.

End StrikeCycle.

Lemma validTurn_length turn : validTurn turn = true → (1 ≤ length turn ≤ 2)%nat.
Proof. destruct turn as [|a [|b [|c t]]]; simpl; intros H; try discriminate; lia. Qed.

Lemma concat_length_bounds (turns : list (list Z)) :
  forallb validTurn turns = true →
  (length turns ≤ length (concat turns) ≤ 2 * length turns)%nat.
Proof.
  induction turns as [|t turns IH]; simpl; [lia|]. intros H.
  apply andb_true_iff in H as [Ht H]. rewrite length_app.
  pose proof (validTurn_length t Ht). specialize (IH H). lia.
Qed.

(** X16. A frame with strikes: with N >= 1 players of distinct ids, in a frame
    f of 0-8, starting at (player 0, f, roll 0), let every player bowl one
    turn that is either a strike or two balls whose first is not a strike.
    After the turns of the first k players the selection is (player k, f, 0);
    after all N turns it is (player 0, f+1, 0); this takes between N and 2N
    committed rolls. *)
Theorem full_frame_with_strikes
    (players : list PlayerWithFrames.t) (first : PlayerWithFrames.t) (f : Z)
    (turns : list (list Z)) :
  NoDup (map PlayerWithFrames.id players) →
  players !! 0%nat = Some first →
  0 <= f <= 8 →
  length turns = length players →
  forallb validTurn turns = true →
  let start := Some (SelectedCell.mk (PlayerWithFrames.id first) f 0) in
  (∀ (k : nat) p, players !! k = Some p →
     commitRolls players start (concat (take k turns))
     = Some (SelectedCell.mk (PlayerWithFrames.id p) f 0))
  ∧ commitRolls players start (concat turns)
    = Some (SelectedCell.mk (PlayerWithFrames.id first) (f + 1) 0)
  ∧ (length players ≤ length (concat turns) ≤ 2 * length players)%nat.
Proof.
  intros Hnd Hfirst Hf Hlen Hv start. subst start. split; [|split].
  - intros k p Hp. apply lookup_lt_Some in Hp as Hlt.
    rewrite (after_turns players first f Hnd Hfirst Hf turns k Hlen Hv) by lia.
    destruct (Nat.eqb_spec k (length players)); [lia|]. rewrite Hp. reflexivity.
  - pose proof (after_turns players first f Hnd Hfirst Hf turns (length players)
                  Hlen Hv (le_n _)) as Hall.
    rewrite Nat.eqb_refl, <- Hlen, firstn_all in Hall. exact Hall.
  - rewrite <- Hlen. apply concat_length_bounds, Hv.
Qed.

Lemma full_frame_with_strikes_witness :
  commitRolls aliceAndBob (Some (SelectedCell.mk "p1" 0 0)) (concat [[10]; [3; 7]])
  = Some (SelectedCell.mk "p1" (0 + 1) 0).
Proof.
  refine (proj1 (proj2 (full_frame_with_strikes aliceAndBob
            (PlayerWithFrames.mk alice _ _) 0 [[10]; [3; 7]] _ _ _ _ _))).
  - apply NoDup_ListNoDup. repeat constructor; simpl; intuition discriminate.
  - reflexivity.
  - lia.
  - reflexivity.
  - reflexivity.
Defined.

(** ** The tenth frame, ball by ball *)

Lemma find_head_filter {A} (P : A → bool) (l : list A) :
  List.find P l = head (List.filter P l).
Proof.
  induction l as [|x l IH]; [reflexivity|]. simpl.
  destruct (P x); [reflexivity|exact IH].
Qed.

Lemma ordered_all_tied {A} (cmp : A → A → Z) (l : list A) :
  (∀ x y, x ∈ l → y ∈ l → cmp x y <= 0) → ordered cmp l.
Proof.
  induction l as [|x l IH]; intros H; [exact I|]. split.
  - apply Forall_forall. intros y Hy. apply H; [left|right; exact Hy].
  - apply IH. intros a b Ha Hb. apply H; right; assumption.
Qed.

(** The stable sort keeps, for each roll number, the first arrival first. *)
Lemma find_js_sort_roll (n : Z) l :
  List.find (λ r, Roll.roll r =? n) (js_sort byRoll l)
  = List.find (λ r, Roll.roll r =? n) l.
Proof.
  rewrite !find_head_filter.
  rewrite (filter_js_sort byRoll _ byRoll_trans byRoll_total).
  rewrite js_sort_ordered_id; [reflexivity|].
  apply ordered_all_tied. intros x y Hx Hy.
  apply list_elem_of_In, filter_In in Hx as [_ Hx].
  apply list_elem_of_In, filter_In in Hy as [_ Hy].
  apply Z.eqb_eq in Hx, Hy. unfold byRoll. lia.
Qed.

Lemma findRoll_toFrameRoll l (n : Z) :
  findRoll (map toFrameRoll l) n
  = toFrameRoll <$> List.find (λ r, Roll.roll r =? n + 1) l.
Proof.
  unfold findRoll. induction l as [|x l IH]; [reflexivity|]. simpl.
  destruct (Z.eqb_spec (Roll.roll x - 1) n), (Z.eqb_spec (Roll.roll x) (n + 1));
    try lia; [reflexivity|exact IH].
Qed.

Lemma board_ids players rolls :
  map PlayerWithFrames.id (processRollsIntoPlayers players rolls)
  = map Player.id players.
Proof.
  unfold processRollsIntoPlayers. rewrite map_map. apply map_ext. intros p.
  unfold PlayerWithFrames.id, processPlayer. destruct (scoreFrames _). reflexivity.
Qed.

Lemma board_lookup players rolls (k : nat) p :
  players !! k = Some p →
  processRollsIntoPlayers players rolls !! k = Some (processPlayer rolls p).
Proof.
  intros Hk. unfold processRollsIntoPlayers.
  change (map ?f ?l) with (f <$> l). rewrite list_lookup_fmap, Hk. reflexivity.
Qed.

Lemma cachedRoll0_board players rolls (k : nat) p :
  players !! k = Some p →
  cachedRoll0 (processRollsIntoPlayers players rolls) (Z.of_nat k)
  = recordedTenthFirstBall rolls p.
Proof.
  intros Hk. unfold cachedRoll0, js_index.
  destruct (Z.ltb_spec (Z.of_nat k) 0); [lia|].
  rewrite Nat2Z.id, (board_lookup players rolls k p Hk).
  destruct (Z.ltb_spec 9 0); [lia|]. change (Z.to_nat 9) with 9%nat.
  destruct (lookup_lt_is_Some_2 (PlayerWithFrames.frames (processPlayer rolls p)) 9)
    as [fr Hfr].
  { rewrite processPlayer_frames, scoreFrames_length, groupRolls_length. lia. }
  rewrite Hfr. destruct (frame_rolls_lookup rolls p 9 fr Hfr) as [_ Hr].
  rewrite Hr, findRoll_toFrameRoll. simpl Z.add.
  rewrite find_js_sort_roll. unfold recordedTenthFirstBall.
  destruct (List.find _ _) as [r|]; [|reflexivity].
  simpl. destruct (Z.eqb_spec (Roll.pins r) 0); congruence.
Qed.

(** X17. The tenth frame, ball by ball, over the scoreboard built from the
    roll records, for a player of a list with distinct ids. The first ball
    always leads to roll index 1 of the same player. The second ball leads to
    roll index 2 of the same player exactly when the first ball as recorded
    (the first-arrived record of frame 10, roll 1 of that player, 0 when none
    has arrived) is 10 or makes 10 with the second ball. So while the first
    ball has not arrived, only a second ball of 10 earns the third. *)
Theorem tenth_frame_ball_by_ball (players : list Player.t) (rolls : list Roll.t)
    (k : nat) (p : Player.t) (pins : Z) (sel : option SelectedCell.t) :
  NoDup (map Player.id players) →
  players !! k = Some p →
  let board := processRollsIntoPlayers players rolls in
  let first := recordedTenthFirstBall rolls p in
  advanceTurn board (Player.id p) 9 0 pins sel
    = Some (SelectedCell.mk (Player.id p) 9 1)
  ∧ (advanceTurn board (Player.id p) 9 1 pins sel
       = Some (SelectedCell.mk (Player.id p) 9 2)
     ↔ first = 10 ∨ first + pins = 10)
  ∧ (rollsOf rolls p = [] →
     (advanceTurn board (Player.id p) 9 1 pins sel
        = Some (SelectedCell.mk (Player.id p) 9 2)
      ↔ pins = 10)).
Proof.
  intros Hnd Hk board first.
  assert (Hb : board !! k = Some (processPlayer rolls p))
    by apply board_lookup, Hk.
  assert (Hid : PlayerWithFrames.id (processPlayer rolls p) = Player.id p).
  { unfold PlayerWithFrames.id, processPlayer. destruct (scoreFrames _). reflexivity. }
  assert (Hndb : NoDup (map PlayerWithFrames.id board))
    by (subst board; rewrite board_ids; exact Hnd).
  pose proof (findIndex_nodup board k _ Hndb Hb) as Hi. rewrite Hid in Hi.
  assert (Hne : (Z.of_nat k =? -1) = false) by (apply Z.eqb_neq; lia).
  pose proof (selectPlayer_lookup board k _ 9 1 Hb) as Hs1.
  pose proof (selectPlayer_lookup board k _ 9 2 Hb) as Hs2.
  rewrite Hid in Hs1, Hs2.
  assert (Hc : cachedRoll0 board (Z.of_nat k) = first)
    by apply cachedRoll0_board, Hk.
  assert (Hsecond : advanceTurn board (Player.id p) 9 1 pins sel
                      = Some (SelectedCell.mk (Player.id p) 9 2)
                    ↔ first = 10 ∨ first + pins = 10).
  { unfold advanceTurn. rewrite Hi, Hne, Hc. simpl.
    destruct (Z.eqb_spec first 10) as [H10|H10]; simpl.
    - rewrite Hs2. split; [intros _; left; exact H10|reflexivity].
    - destruct (Z.eqb_spec (first + pins) 10) as [Hs|Hs].
      + rewrite Hs2. split; [intros _; right; exact Hs|reflexivity].
      + split; [|intros [?|?]; contradiction].
        destruct (_ && _); [discriminate|].
        intros H. apply selectPlayer_fields in H as [_ H]. simpl in H. lia. }
  split; [|split; [exact Hsecond|]].
  - unfold advanceTurn. rewrite Hi, Hne. simpl. exact Hs1.
  - intros Hnone. rewrite Hsecond.
    assert (H0 : first = 0).
    { subst first. unfold recordedTenthFirstBall. rewrite Hnone. reflexivity. }
    rewrite H0. lia.
Qed.

Lemma tenth_frame_ball_by_ball_witness :
  advanceTurn (processRollsIntoPlayers [alice] []) (Player.id alice) 9 0 10 None
  = Some (SelectedCell.mk (Player.id alice) 9 1).
Proof.
  apply (proj1 (tenth_frame_ball_by_ball [alice] [] 0 alice 10 None
                  (NoDup_singleton _) eq_refl)).
Defined.

(** ** The earlier hook and the current handler *)

Lemma subscription_update_unknown l r :
  holdsId l (Roll.id r) = false → subscriptionOnChange l (UPDATE r) = l.
Proof.
  induction l as [|x l IH]; intros H; [reflexivity|].
  simpl in H. apply orb_false_iff in H as [Hx H].
  simpl in *. rewrite Hx, IH by exact H. reflexivity.
Qed.

(** With distinct ids, an update of a held id replaces exactly the roll with
    that id. *)
Lemma update_is_map l r :
  NoDup (map Roll.id l) → holdsId l (Roll.id r) = true →
  onRollsChange l (UPDATE r)
  = map (λ roll, if String.eqb (Roll.id roll) (Roll.id r) then r else roll) l.
Proof.
  induction l as [|x l IH]; intros Hnd Hh; [discriminate|].
  simpl map in Hnd. apply NoDup_cons in Hnd as [Hx Hnd].
  rewrite update_cons. unfold sameRollId. simpl map. simpl in Hh.
  destruct (String.eqb_spec (Roll.id x) (Roll.id r)) as [He|Hne].
  - f_equal. symmetry.
    apply (subscription_update_unknown l r).
    apply holdsId_not_elem. rewrite <- He. exact Hx.
  - f_equal. apply IH; assumption.
Qed.

(** X18. The earlier hook and the current handler agree on inserts and on
    deletes; on an update of an id that is held they agree when no two rolls
    share an id; they differ on an update of an id that is not held, which
    the earlier hook drops and the current handler appends. *)
Theorem hooks_agree_on_known_ids (rollsData : list Roll.t) (roll : Roll.t) :
  subscriptionOnChange rollsData (INSERT roll) = onRollsChange rollsData (INSERT roll)
  ∧ subscriptionOnChange rollsData (DELETE roll) = onRollsChange rollsData (DELETE roll)
  ∧ (NoDup (map Roll.id rollsData) → holdsId rollsData (Roll.id roll) = true →
     subscriptionOnChange rollsData (UPDATE roll) = onRollsChange rollsData (UPDATE roll))
  ∧ (holdsId rollsData (Roll.id roll) = false →
     subscriptionOnChange rollsData (UPDATE roll) = rollsData
     ∧ onRollsChange rollsData (UPDATE roll) = rollsData ++ [roll]).
Proof.
  split; [reflexivity|]. split; [reflexivity|]. split.
  - intros Hnd Hh. rewrite update_is_map by assumption. reflexivity.
  - intros Hno. split; [apply subscription_update_unknown, Hno|].
    apply update_unknown, Hno.
Qed.

Lemma hooks_agree_on_known_ids_witness :
  subscriptionOnChange [fivePins] (UPDATE (Roll.mk "r1" "g" "p1" 1 1 7))
  = onRollsChange [fivePins] (UPDATE (Roll.mk "r1" "g" "p1" 1 1 7)).
Proof.
  apply (proj1 (proj2 (proj2 (hooks_agree_on_known_ids [fivePins]
           (Roll.mk "r1" "g" "p1" 1 1 7))))).
  - apply NoDup_singleton.
  - reflexivity.
Defined.

(** ** Writing a roll *)

(** X19. A committed roll lands in its cell: the row written for the
    selection (player, frame index f in 0..9, roll index r) with [pins], once
    it is in the roll set, shows in the scoreboard as the entry (r, pins) of
    frame f of that player, in no other frame of that player, and the lines
    of the players with another id are unchanged. *)
Theorem written_roll_lands_in_its_cell (rolls : list Roll.t) (gameId newId : string)
    (p : Player.t) (f : nat) (r pins : Z) :
  (f < 10)%nat →
  let cell := SelectedCell.mk (Player.id p) (Z.of_nat f) r in
  let row := newRow newId (rollParams gameId cell pins) in
  let rolls' := onRollsChange rolls (INSERT row) in
  (∀ fr, PlayerWithFrames.frames (processPlayer rolls' p) !! f = Some fr →
     FrameRoll.mk r pins ∈ FrameData.rolls fr)
  ∧ (∀ (j : nat) fr fr', j ≠ f →
       PlayerWithFrames.frames (processPlayer rolls' p) !! j = Some fr' →
       PlayerWithFrames.frames (processPlayer rolls p) !! j = Some fr →
       FrameData.rolls fr' = FrameData.rolls fr)
  ∧ (∀ q, Player.id q ≠ Player.id p → processPlayer rolls' q = processPlayer rolls q).
Proof.
  intros Hf cell row rolls'.
  assert (Hrow : rollsOf rolls' p = rollsOf rolls p ++ [row]).
  { subst rolls'. unfold rollsOf, onRollsChange. rewrite List.filter_app. simpl.
    rewrite String.eqb_refl. reflexivity. }
  split; [|split].
  - intros fr Hfr. destruct (frame_rolls_lookup rolls' p f fr Hfr) as [_ Hr].
    rewrite Hr, Hrow, List.filter_app. simpl List.filter.
    assert (Hin : inFrame f row = true) by (unfold inFrame; simpl; apply Z.eqb_eq; lia).
    rewrite Hin.
    replace (FrameRoll.mk r pins) with (toFrameRoll row)
      by (unfold toFrameRoll; simpl; f_equal; lia).
    change (map ?g ?l) with (g <$> l). apply list_elem_of_fmap_2.
    rewrite js_sort_perm. apply elem_of_app. right. left.
  - intros j fr fr' Hj Hfr' Hfr.
    destruct (frame_rolls_lookup rolls' p j fr' Hfr') as [_ Hr'].
    destruct (frame_rolls_lookup rolls p j fr Hfr) as [_ Hr].
    rewrite Hr', Hr, Hrow, List.filter_app. simpl List.filter.
    assert (Hout : inFrame j row = false)
      by (unfold inFrame; simpl; apply Z.eqb_neq; lia).
    rewrite Hout, app_nil_r. reflexivity.
  - intros q Hq. unfold processPlayer. fold (rollsOf rolls' q). fold (rollsOf rolls q).
    assert (Hsame : rollsOf rolls' q = rollsOf rolls q).
    { subst rolls'. unfold rollsOf, onRollsChange. rewrite List.filter_app. simpl.
      replace (String.eqb (Player.id p) (Player.id q)) with false
        by (symmetry; apply String.eqb_neq; congruence).
      apply app_nil_r. }
    rewrite Hsame. reflexivity.
Qed.

Lemma written_roll_lands_in_its_cell_witness :
  processPlayer
    (onRollsChange spareExample
       (INSERT (newRow "n" (rollParams "g" (SelectedCell.mk "p1" 1 1) 5))))
    bob
  = processPlayer spareExample bob.
Proof.
  apply (proj2 (proj2 (written_roll_lands_in_its_cell spareExample "g" "n" alice 1 1 5
                         ltac:(lia)))).
  discriminate.
Defined.



(** ** The upsert *)

Lemma inSlot_withPins params pins row :
  inSlot params (withPins pins row) = inSlot params row.
Proof. reflexivity. Qed.

Lemma inSlot_newRow newId params : inSlot params (newRow newId params) = true.
Proof.
  unfold inSlot, newRow. simpl. rewrite !String.eqb_refl, !Z.eqb_refl. reflexivity.
Qed.

Lemma filter_same_id l x :
  NoDup (map Roll.id l) → x ∈ l →
  List.filter (λ row, String.eqb (Roll.id row) (Roll.id x)) l = [x].
Proof.
  induction l as [|y l IH]; intros Hnd Hx; [inversion Hx|].
  simpl map in Hnd. apply NoDup_cons in Hnd as [Hy Hnd]. simpl.
  assert (Hnone : ∀ z l', Roll.id z ∉ map Roll.id l' →
            List.filter (λ row, String.eqb (Roll.id row) (Roll.id z)) l' = []).
  { intros z l' Hz. induction l' as [|w l' IHl]; [reflexivity|]. simpl.
    simpl in Hz. apply not_elem_of_cons in Hz as [Hw Hz].
    replace (String.eqb (Roll.id w) (Roll.id z)) with false
      by (symmetry; apply String.eqb_neq; congruence).
    apply IHl, Hz. }
  apply elem_of_cons in Hx as [->|Hx].
  - rewrite String.eqb_refl. f_equal. apply Hnone, Hy.
  - destruct (String.eqb_spec (Roll.id y) (Roll.id x)) as [He|Hne].
    + exfalso. apply Hy. rewrite He.
      change (map Roll.id l) with (Roll.id <$> l). apply list_elem_of_fmap_2, Hx.
    + apply IH; assumption.
Qed.

Lemma filter_singleton_elem {A} (P : A → bool) (l : list A) x :
  List.filter P l = [x] → x ∈ l ∧ P x = true.
Proof.
  intros H. assert (Hin : In x (List.filter P l)) by (rewrite H; left; reflexivity).
  apply filter_In in Hin as [Hin HP]. split; [apply list_elem_of_In, Hin|exact HP].
Qed.

Section Upsert.
Variable params : InsertRollParams.t.
Variable table : list Roll.t.
Variable existing : Roll.t.
Hypothesis distinct_ids : NoDup (map Roll.id table).
Hypothesis slot_row : List.filter (inSlot params) table = [existing].

Lemma setPins_existing_only row :
  row ∈ table → row ≠ existing → (setPins params existing) row = row.
Proof.
  intros Hin Hne. unfold setPins.
  destruct (String.eqb_spec (Roll.id row) (Roll.id existing)) as [He|_]; [|reflexivity].
  exfalso. apply Hne.
  apply (same_id_same_roll table); try assumption; try (symmetry; assumption).
  apply (filter_singleton_elem _ _ _ slot_row).
Qed.

Lemma setPins_slot :
  List.filter (inSlot params) (map (setPins params existing) table)
  = [withPins (InsertRollParams.pins params) existing].
Proof.
  assert (H : ∀ l, List.filter (inSlot params) (map (setPins params existing) l)
                   = map (setPins params existing) (List.filter (inSlot params) l)).
  { induction l as [|x l IH]; [reflexivity|]. simpl.
    assert (Hx : inSlot params (setPins params existing x) = inSlot params x).
    { unfold setPins. destruct (String.eqb _ _); reflexivity. }
    rewrite Hx. destruct (inSlot params x); simpl; rewrite IH; reflexivity. }
  rewrite H, slot_row. simpl. unfold setPins. rewrite String.eqb_refl. reflexivity.
Qed.

Lemma setPins_outside :
  List.filter (λ r, negb (inSlot params r)) (map (setPins params existing) table)
  = List.filter (λ r, negb (inSlot params r)) table.
Proof.
  assert (H : ∀ l, (∀ x, x ∈ l → x ∈ table) →
                   List.filter (λ r, negb (inSlot params r)) (map (setPins params existing) l)
                   = List.filter (λ r, negb (inSlot params r)) l).
  { induction l as [|x l IH]; intros Hsub; [reflexivity|]. simpl.
    assert (Hx : inSlot params (setPins params existing x) = inSlot params x).
    { unfold setPins. destruct (String.eqb _ _); reflexivity. }
    rewrite Hx, IH by (intros y Hy; apply Hsub; right; exact Hy).
    destruct (inSlot params x) eqn:Hs; simpl; [reflexivity|].
    f_equal. apply setPins_existing_only; [apply Hsub; left|].
    intros ->. destruct (filter_singleton_elem _ _ _ slot_row) as [_ He]. congruence. }
  apply H. auto.
Qed.

Lemma setPins_ids : map Roll.id (map (setPins params existing) table) = map Roll.id table.
Proof.
  rewrite map_map. apply map_ext. intros x. unfold setPins.
  destruct (String.eqb _ _); reflexivity.
Qed.

Lemma setPins_is_update :
  onRollsChange table (UPDATE (withPins (InsertRollParams.pins params) existing))
  = map (setPins params existing) table.
Proof.
  destruct (filter_singleton_elem _ _ _ slot_row) as [Hin _].
  rewrite update_is_map; [|exact distinct_ids|].
  - apply map_ext_in. intros x Hx. unfold setPins. simpl.
    destruct (String.eqb_spec (Roll.id x) (Roll.id existing)) as [He|_]; [|reflexivity].
    f_equal. apply (same_id_same_roll table); try assumption; try (symmetry; assumption).
    apply list_elem_of_In, Hx.
  - apply holdsId_elem. simpl.
    change (map Roll.id table) with (Roll.id <$> table).
    apply list_elem_of_fmap_2, Hin.
Qed.

Lemma insertRoll_existing newId :
  insertRoll newId params table
  = Resolved (withPins (InsertRollParams.pins params) existing, map (setPins params existing) table).
Proof.
  destruct (filter_singleton_elem _ _ _ slot_row) as [Hin _].
  unfold insertRoll. rewrite slot_row.
  rewrite (filter_same_id table existing distinct_ids Hin). reflexivity.
Qed.

End Upsert.

Lemma setPins_same params table existing :
  NoDup (map Roll.id table) →
  List.filter (inSlot params) table = [existing] →
  Roll.pins existing = InsertRollParams.pins params →
  map (setPins params existing) table = table.
Proof.
  intros Hnd Hslot Hp. rewrite <- (map_id table) at 2.
  apply map_ext_in. intros x Hx. unfold setPins.
  destruct (String.eqb_spec (Roll.id x) (Roll.id existing)) as [He|_]; [|reflexivity].
  assert (x = existing) as ->.
  { apply (same_id_same_roll table); try assumption; try (symmetry; assumption);
      [apply list_elem_of_In, Hx|apply (filter_singleton_elem _ _ _ Hslot)]. }
  unfold withPins. rewrite <- Hp. destruct existing; reflexivity.
Qed.

(** X21. The upsert keeps one row per slot. Over a rolls table with distinct
    ids that holds at most one row for the slot (game, player, frame, roll)
    of the write, [insertRoll] succeeds with a row carrying the given pins;
    afterwards the slot holds exactly that row, the rows of other slots are
    as before, ids are still distinct, the change event of the write brings a
    local copy of the table to the same rows, and writing the same pins again
    changes nothing. *)
Theorem upsert_keeps_one_row_per_slot (newId : string)
    (params : InsertRollParams.t) (table : list Roll.t) :
  NoDup (map Roll.id table) →
  holdsId table newId = false →
  (length (List.filter (inSlot params) table) ≤ 1)%nat →
  ∃ row table',
    insertRoll newId params table = Resolved (row, table')
    ∧ List.filter (inSlot params) table' = [row]
    ∧ Roll.pins row = InsertRollParams.pins params
    ∧ List.filter (λ r, negb (inSlot params r)) table'
      = List.filter (λ r, negb (inSlot params r)) table
    ∧ NoDup (map Roll.id table')
    ∧ onRollsChange table (writeEvent params table row) = table'
    ∧ ∀ newId', insertRoll newId' params table' = Resolved (row, table').
Proof.
  intros Hnd Hfresh Hslot.
  destruct (List.filter (inSlot params) table) as [|e [|e' rest]] eqn:Hf;
    [| |simpl in Hslot; lia].
  - exists (newRow newId params), (table ++ [newRow newId params]).
    assert (Hslot' : List.filter (inSlot params) (table ++ [newRow newId params])
                     = [newRow newId params]).
    { rewrite List.filter_app, Hf. simpl. rewrite inSlot_newRow. reflexivity. }
    assert (Hnd' : NoDup (map Roll.id (table ++ [newRow newId params]))).
    { rewrite map_app. apply NoDup_app. split; [exact Hnd|]. split.
      - intros id Hid Hin. simpl in Hin. apply list_elem_of_singleton in Hin as ->.
        apply holdsId_not_elem in Hfresh. contradiction.
      - simpl. apply NoDup_singleton. }
    split; [unfold insertRoll; rewrite Hf; reflexivity|].
    split; [exact Hslot'|]. split; [reflexivity|]. split.
    { rewrite List.filter_app. simpl. rewrite inSlot_newRow. simpl.
      apply app_nil_r. }
    split; [exact Hnd'|]. split.
    { unfold writeEvent. rewrite Hf. reflexivity. }
    intros newId'.
    rewrite (insertRoll_existing params _ _ Hnd' Hslot').
    rewrite (setPins_same params _ _ Hnd' Hslot') by reflexivity.
    reflexivity.
  - exists (withPins (InsertRollParams.pins params) e), (map (setPins params e) table).
    assert (Hnd' : NoDup (map Roll.id (map (setPins params e) table)))
      by (rewrite setPins_ids; exact Hnd).
    assert (Hslot' := setPins_slot params table e Hf).
    split; [apply insertRoll_existing; assumption|].
    split; [exact Hslot'|]. split; [reflexivity|].
    split; [apply setPins_outside; assumption|].
    split; [exact Hnd'|]. split.
    { unfold writeEvent. rewrite Hf. apply setPins_is_update; assumption. }
    intros newId'.
    rewrite (insertRoll_existing params _ _ Hnd' Hslot').
    rewrite (setPins_same params _ _ Hnd' Hslot') by reflexivity.
    reflexivity.
Qed.

Lemma upsert_keeps_one_row_per_slot_witness :
  ∃ row table',
    insertRoll "n" (InsertRollParams.mk "g" "p1" 1 1 8) spareExample
    = Resolved (row, table')
    ∧ List.filter (inSlot (InsertRollParams.mk "g" "p1" 1 1 8)) table' = [row]
    ∧ Roll.pins row = 8.
Proof.
  destruct (upsert_keeps_one_row_per_slot "n" (InsertRollParams.mk "g" "p1" 1 1 8)
              spareExample) as (row & table' & H1 & H2 & H3 & _).
  - apply NoDup_ListNoDup. repeat constructor; simpl; intuition discriminate.
  - reflexivity.
  - simpl. lia.
  - exists row, table'. split; [exact H1|]. split; [exact H2|exact H3].
Defined.

(** * Part V: the strike bonus over the roll set; the page after the last ball *)

(** ** Arrangements in slot order *)

Lemma slotLeb_cmp x y : slotLeb x y = true ↔ byFrameThenRoll x y <= 0.
Proof.
  unfold slotLeb, byFrameThenRoll.
  destruct (Z.eqb_spec (Roll.frame x) (Roll.frame y)) as [He|Hne]; simpl.
  - rewrite He, Z.ltb_irrefl. simpl. rewrite Z.leb_le. lia.
  - rewrite orb_false_r, Z.ltb_lt. lia.
Qed.

Lemma atSlot_self x : atSlot (Roll.frame x) (Roll.roll x) x = true.
Proof. unfold atSlot. rewrite !Z.eqb_refl. reflexivity. Qed.

Lemma ordered_inSlotOrder l : ordered byFrameThenRoll l → inSlotOrder l = true.
Proof.
  induction l as [|x l IH]; [reflexivity|]. intros [Hx Hl]. simpl.
  apply andb_true_intro. split; [|apply IH, Hl].
  apply forallb_forall. intros y Hy. apply slotLeb_cmp.
  rewrite Forall_forall in Hx. apply Hx, list_elem_of_In, Hy.
Qed.

Lemma inSlotOrder_ordered l : inSlotOrder l = true → ordered byFrameThenRoll l.
Proof.
  induction l as [|x l IH]; [intros; exact I|]. simpl.
  intros H. apply andb_prop in H as [Hx Hl]. split; [|apply IH, Hl].
  apply Forall_forall. intros y Hy. apply slotLeb_cmp.
  rewrite forallb_forall in Hx. apply Hx, list_elem_of_In, Hy.
Qed.

(** Slot order and the arrival order within each slot leave one list only. *)
Lemma arrangement_unique l1 l2 :
  inSlotOrder l1 = true → inSlotOrder l2 = true →
  (∀ a b, List.filter (atSlot a b) l1 = List.filter (atSlot a b) l2) →
  l1 = l2.
Proof.
  revert l2. induction l1 as [|x l1 IH]; intros l2 H1 H2 Hf.
  - destruct l2 as [|y l2]; [reflexivity|].
    specialize (Hf (Roll.frame y) (Roll.roll y)). simpl in Hf.
    rewrite atSlot_self in Hf. discriminate.
  - destruct l2 as [|y l2].
    { specialize (Hf (Roll.frame x) (Roll.roll x)). simpl in Hf.
      rewrite atSlot_self in Hf. discriminate. }
    simpl in H1, H2.
    apply andb_prop in H1 as [Hx H1]. apply andb_prop in H2 as [Hy H2].
    rewrite forallb_forall in Hx, Hy.
    assert (Hrefl : ∀ z, slotLeb z z = true).
    { intros z. unfold slotLeb. rewrite Z.eqb_refl, Z.leb_refl.
      simpl. apply orb_true_r. }
    assert (Hxy : slotLeb x y = true).
    { assert (Hin : In y (List.filter (atSlot (Roll.frame y) (Roll.roll y)) (x :: l1))).
      { rewrite Hf. simpl. rewrite atSlot_self. left. reflexivity. }
      apply filter_In in Hin as [[->|Hin] _]; [apply Hrefl|apply Hx, Hin]. }
    assert (Hyx : slotLeb y x = true).
    { assert (Hin : In x (List.filter (atSlot (Roll.frame x) (Roll.roll x)) (y :: l2))).
      { rewrite <- Hf. simpl. rewrite atSlot_self. left. reflexivity. }
      apply filter_In in Hin as [[->|Hin] _]; [apply Hrefl|apply Hy, Hin]. }
    assert (Hsame : atSlot (Roll.frame x) (Roll.roll x) y = true).
    { apply slotLeb_cmp in Hxy, Hyx. unfold byFrameThenRoll in Hxy, Hyx.
      unfold atSlot.
      rewrite (Z.eqb_sym (Roll.frame y) (Roll.frame x)) in Hyx.
      destruct (Z.eqb_spec (Roll.frame x) (Roll.frame y)) as [He|Hne];
        simpl in Hxy, Hyx; [|lia].
      rewrite <- He, Z.eqb_refl. simpl. apply Z.eqb_eq. lia. }
    pose proof (Hf (Roll.frame x) (Roll.roll x)) as Hhead. simpl in Hhead.
    rewrite atSlot_self, Hsame in Hhead. injection Hhead as -> _.
    f_equal. apply IH; [exact H1|exact H2|].
    intros a b. specialize (Hf a b). simpl in Hf.
    destruct (atSlot a b y); [injection Hf; auto|exact Hf].
Qed.

(** The sort of the frame builder arranges every roll list. *)
Lemma js_sort_arranged records :
  arrangedBySlot records (js_sort byFrameThenRoll records).
Proof.
  split.
  - apply ordered_inSlotOrder.
    apply (js_sort_ordered byFrameThenRoll byFrameThenRoll_trans byFrameThenRoll_total).
  - intros a b.
    rewrite (filter_js_sort byFrameThenRoll (atSlot a b)
               byFrameThenRoll_trans byFrameThenRoll_total).
    apply js_sort_ordered_id, ordered_all_tied. intros x y Hx Hy.
    apply list_elem_of_In, filter_In in Hx as [_ Hx].
    apply list_elem_of_In, filter_In in Hy as [_ Hy].
    unfold atSlot in Hx, Hy.
    apply andb_prop in Hx as [Hx1 Hx2]. apply andb_prop in Hy as [Hy1 Hy2].
    apply Z.eqb_eq in Hx1, Hx2, Hy1, Hy2. unfold byFrameThenRoll.
    replace (Roll.frame x =? Roll.frame y) with true
      by (symmetry; apply Z.eqb_eq; lia).
    simpl. lia.
Qed.

Lemma arranged_is_sorted records arranged :
  arrangedBySlot records arranged → arranged = js_sort byFrameThenRoll records.
Proof.
  intros [Ho Hs]. destruct (js_sort_arranged records) as [Ho' Hs'].
  apply arrangement_unique; [exact Ho|exact Ho'|].
  intros a b. rewrite Hs, Hs'. reflexivity.
Qed.

(** In a list in slot order, the records picked by [p] come before those
    picked by [q] when no [q] record comes before a [p] record. *)
Lemma filter_sorted_split (p q pq : Roll.t → bool) T :
  ordered byFrameThenRoll T →
  (∀ x, pq x = p x || q x) →
  (∀ x, p x = true → q x = true → False) →
  (∀ x y, q x = true → p y = true → byFrameThenRoll x y <= 0 → False) →
  List.filter pq T = List.filter p T ++ List.filter q T.
Proof.
  intros Ho Hpq Hdis Hsep. induction T as [|x T IH]; [reflexivity|].
  destruct Ho as [Hx Ho]. specialize (IH Ho). simpl. rewrite Hpq.
  destruct (p x) eqn:Hp, (q x) eqn:Hq; simpl.
  - destruct (Hdis x Hp Hq).
  - rewrite IH. reflexivity.
  - assert (Hnil : List.filter p T = []).
    { clear IH. induction T as [|y T IHT]; [reflexivity|]. simpl.
      apply Forall_cons in Hx as [Hy Hx]. destruct Ho as [_ Ho].
      destruct (p y) eqn:Hpy; [destruct (Hsep x y Hq Hpy Hy)|].
      apply IHT; assumption. }
    rewrite IH, Hnil. reflexivity.
  - exact IH.
Qed.

Lemma later_frames_concat T (f n : nat) :
  ordered byFrameThenRoll T →
  List.filter (λ r, (Z.of_nat f + 1 <? Roll.frame r)
                    && (Roll.frame r <=? Z.of_nat f + 1 + Z.of_nat n)) T
  = concat (map (λ j, List.filter (inFrame j) T) (seq (S f) n)).
Proof.
  intros Ho. induction n as [|n IH].
  - simpl concat. clear Ho. induction T as [|x T IHT]; [reflexivity|].
    cbn [List.filter].
    destruct ((Z.of_nat f + 1 <? Roll.frame x)
              && (Roll.frame x <=? Z.of_nat f + 1 + Z.of_nat 0)) eqn:E; [|exact IHT].
    apply andb_prop in E as [E1 E2]. apply Z.ltb_lt in E1. apply Z.leb_le in E2. lia.
  - rewrite seq_S, map_app, concat_app. cbn [map concat]. rewrite app_nil_r, <- IH.
    apply filter_sorted_split; [exact Ho| | |].
    + intros x. unfold inFrame.
      destruct (Z.ltb_spec (Z.of_nat f + 1) (Roll.frame x));
        destruct (Z.leb_spec (Roll.frame x) (Z.of_nat f + 1 + Z.of_nat (S n)));
        destruct (Z.leb_spec (Roll.frame x) (Z.of_nat f + 1 + Z.of_nat n));
        destruct (Z.eqb_spec (Roll.frame x) (Z.of_nat (S f + n) + 1));
        cbn [andb orb]; try reflexivity; lia.
    + intros x Hp Hq. unfold inFrame in Hq.
      apply andb_prop in Hp as [_ Hp]. apply Z.leb_le in Hp. apply Z.eqb_eq in Hq. lia.
    + intros x y Hq Hp Hc. unfold inFrame in Hq.
      apply andb_prop in Hp as [_ Hp]. apply Z.leb_le in Hp. apply Z.eqb_eq in Hq.
      unfold byFrameThenRoll in Hc.
      destruct (Z.eqb_spec (Roll.frame x) (Roll.frame y)); simpl in Hc; lia.
Qed.

(** The pins the lookahead scans, read off the roll set. *)
Lemma laterPins_roll_set rolls player (f : nat) :
  (f < 9)%nat →
  laterPins (PlayerWithFrames.frames (processPlayer rolls player)) f
  = map Roll.pins
      (js_sort byFrameThenRoll (List.filter (afterFrame f) (rollsOf rolls player))).
Proof.
  intros Hf. set (P := rollsOf rolls player).
  set (T := js_sort byFrameThenRoll P).
  assert (HT : ordered byFrameThenRoll T)
    by apply (js_sort_ordered byFrameThenRoll byFrameThenRoll_trans byFrameThenRoll_total).
  rewrite <- (filter_js_sort byFrameThenRoll (afterFrame f)
                byFrameThenRoll_trans byFrameThenRoll_total).
  fold T.
  assert (Hext : List.filter (afterFrame f) T
                 = List.filter (λ r, (Z.of_nat f + 1 <? Roll.frame r)
                     && (Roll.frame r <=? Z.of_nat f + 1 + Z.of_nat (9 - f))) T).
  { apply filter_ext. intros r. unfold afterFrame.
    replace (Z.of_nat f + 1 + Z.of_nat (9 - f)) with 10 by lia. reflexivity. }
  rewrite Hext, (later_frames_concat T f (9 - f) HT).
  assert (Hframes :
    map (λ fr, map FrameRoll.pins (FrameData.rolls fr))
      (PlayerWithFrames.frames (processPlayer rolls player))
    = map (λ j, map Roll.pins (List.filter (inFrame j) T)) (seq 0 10)).
  { apply list_eq. intros i.
    change (map ?g ?l !! i) with ((g <$> l) !! i). rewrite !list_lookup_fmap.
    assert (Hlen : length (PlayerWithFrames.frames (processPlayer rolls player)) = 10%nat)
      by (rewrite processPlayer_frames, scoreFrames_length; apply groupRolls_length).
    destruct (Nat.lt_ge_cases i 10) as [Hi|Hi].
    - destruct (lookup_lt_is_Some_2 _ i ltac:(rewrite Hlen; exact Hi)) as [fr Hfr].
      rewrite Hfr, (lookup_seq_lt 0 10 i Hi). simpl. f_equal.
      destruct (frame_rolls_lookup rolls player i fr Hfr) as [_ ->].
      rewrite map_map. simpl. fold P.
      unfold T.
      rewrite (filter_js_sort byFrameThenRoll (inFrame i)
                 byFrameThenRoll_trans byFrameThenRoll_total).
      rewrite same_frame_sort. reflexivity.
    - rewrite (lookup_ge_None_2 _ i) by (rewrite Hlen; exact Hi).
      rewrite (lookup_ge_None_2 (seq 0 10) i) by (rewrite length_seq; exact Hi).
      reflexivity. }
  unfold laterPins. rewrite <- skipn_map, Hframes, skipn_map.
  rewrite concat_map, map_map. f_equal. f_equal.
  clear -Hf. do 9 (destruct f as [|f]; [reflexivity|]). lia.
Qed.

(** ** Strike lookahead *)

(** C1. Strike lookahead over the roll set. Read the rolls of a player frame
    by frame and roll by roll, the records of one slot in their order of
    arrival. Whenever the first roll of a frame f in 0-8, read this way, is
    10, the frame builder gives frame f the total 10 plus the pins of the
    next two rolls of the frames after f, read the same way; a roll not
    recorded counts 0. Every roll list can be read this way. For the rolls
    frame0 = [10], frame1 = [7,2] the frame totals are 19 and 9 and the
    running totals 19 and 28. *)
Theorem strike_lookahead_over_roll_set :
  (∀ (rolls : list Roll.t) (player : Player.t) (f : nat) (fr : FrameData.t)
     (own later : list Roll.t) (first : Roll.t),
      (f < 9)%nat →
      PlayerWithFrames.frames (processPlayer rolls player) !! f = Some fr →
      arrangedBySlot (List.filter (inFrame f) (rollsOf rolls player)) own →
      own !! 0%nat = Some first →
      Roll.pins first = 10 →
      arrangedBySlot (List.filter (afterFrame f) (rollsOf rolls player)) later →
      FrameData.frameTotal fr = 10 + sumZ (take 2 (map Roll.pins later)))
  ∧ (∀ records, ∃ arranged, arrangedBySlot records arranged)
  ∧ (∀ (player : Player.t) (i1 i2 i3 : string),
      let out := processPlayer (strikeExample player i1 i2 i3) player in
      map FrameData.frameTotal (take 2 (PlayerWithFrames.frames out)) = [19; 9]
      ∧ map FrameData.runningTotal (take 2 (PlayerWithFrames.frames out)) = [19; 28]).
Proof.
  split; [|split].
  - intros rolls player f fr own later first Hf Hfr Hown Hfirst Hpins Hlater.
    apply arranged_is_sorted in Hown, Hlater.
    rewrite same_frame_sort in Hown.
    destruct (frame_rolls_lookup rolls player f fr Hfr) as [_ Hrolls].
    rewrite <- Hown in Hrolls.
    pose proof (standard_frame_lookup rolls player f fr Hf Hfr) as Ht.
    cbv zeta in Ht. unfold framePins in Ht. rewrite Hrolls in Ht.
    destruct own as [|x own']; [discriminate|]. injection Hfirst as ->.
    simpl in Ht. rewrite Hpins in Ht. simpl in Ht. rewrite Ht.
    unfold nextTwoRollsSum. rewrite laterPins_roll_set by exact Hf.
    rewrite Hlater. reflexivity.
  - intros records. exists (js_sort byFrameThenRoll records).
    apply js_sort_arranged.
  - intros player i1 i2 i3 out. subst out.
    unfold processPlayer, strikeExample. simpl List.filter.
    rewrite String.eqb_refl. split; reflexivity.
Qed.

Lemma strike_lookahead_over_roll_set_witness :
  ∃ fr,
    PlayerWithFrames.frames (processPlayer (strikeExample alice "a" "b" "c") alice)
      !! 0%nat = Some fr
    ∧ FrameData.frameTotal fr = 10 + sumZ (take 2 (map Roll.pins
        [Roll.mk "b" "g" "p1" 2 1 7; Roll.mk "c" "g" "p1" 2 2 2])).
Proof.
  eexists. split; [reflexivity|].
  apply (proj1 strike_lookahead_over_roll_set
           (strikeExample alice "a" "b" "c") alice 0%nat _
           [Roll.mk "a" "g" "p1" 1 1 10]
           [Roll.mk "b" "g" "p1" 2 1 7; Roll.mk "c" "g" "p1" 2 2 2]
           (Roll.mk "a" "g" "p1" 1 1 10)).
  - lia.
  - reflexivity.
  - split; [reflexivity|intros frame roll; reflexivity].
  - reflexivity.
  - reflexivity.
  - split; [reflexivity|intros frame roll; reflexivity].
Defined.

(** ** The page after the last ball *)

(** Whenever a roll input leaves no selection, the auto-select effect picks
    the first open slot of the scoreboard as it stands. *)
Lemma deselect_is_followed_by_auto_select players cell pins :
  (0 < length players)%nat →
  handleRollInput players (Some cell) pins = None →
  selectionAfterRoll players (Some cell) pins = firstOpenSlotOf players.
Proof.
  intros Hlen Hnone. unfold selectionAfterRoll. rewrite Hnone.
  unfold autoSelect.
  replace (0 <? length players)%nat with true
    by (symmetry; apply Nat.ltb_lt; exact Hlen).
  destruct (firstOpenSlotOf players); reflexivity.
Qed.

(** C6. The last ball is asked again. [advanceTurn] ends the game with
    [setSelectedCell(null)] after roll index 2 of frame 9 of the last player,
    but the page does not stay without a selection: the auto-select effect
    runs next and selects the first open slot of the scoreboard as it
    stands. That scoreboard does not hold the ball just bowled, so in a game
    played in order the slot selected is the one just bowled: after the last
    strike of a game ending X X X the selection is again (last player, frame
    9, roll index 2), and after the second ball of an open last frame it is
    again (last player, frame 9, roll index 1). Only over a scoreboard with
    no open slot does the page stay without a selection. *)
Theorem last_ball_is_asked_again :
  (∀ (players : list PlayerWithFrames.t) (playerId : string) (pins : Z),
     let pIndex := findIndex (hasId playerId) players in
     0 <= pIndex → pIndex = Z.of_nat (length players) - 1 →
     handleRollInput players (Some (SelectedCell.mk playerId 9 2)) pins = None
     ∧ selectionAfterRoll players (Some (SelectedCell.mk playerId 9 2)) pins
       = firstOpenSlotOf players)
  ∧ (handleRollInput lastBallBoard (Some (SelectedCell.mk "p2" 9 2)) 10 = None
     ∧ selectionAfterRoll lastBallBoard (Some (SelectedCell.mk "p2" 9 2)) 10
       = Some (SelectedCell.mk "p2" 9 2))
  ∧ (handleRollInput openLastBallBoard (Some (SelectedCell.mk "p2" 9 1)) 3 = None
     ∧ selectionAfterRoll openLastBallBoard (Some (SelectedCell.mk "p2" 9 1)) 3
       = Some (SelectedCell.mk "p2" 9 1))
  ∧ autoSelect finishedBoard None = None.
Proof.
  split; [|split; [|split]].
  - intros players playerId pins pIndex Hfound Hlast.
    assert (Hnone : handleRollInput players (Some (SelectedCell.mk playerId 9 2)) pins
                    = None).
    { unfold handleRollInput. simpl.
      destruct (advanceTurn_tenth_frame players playerId pins
                  (Some (SelectedCell.mk playerId 9 2)) Hfound)
        as (_ & _ & _ & Hend & _).
      apply (Hend Hlast). }
    split; [exact Hnone|].
    apply deselect_is_followed_by_auto_select; [|exact Hnone].
    subst pIndex. lia.
  - split; vm_compute; reflexivity.
  - split; vm_compute; reflexivity.
  - vm_compute. reflexivity.
Qed.
